(** * dbman: the schema differ, the parameter envelope and the release engine

    A shallow embedding of the Go sources of southwinds-io/dbman:
    - package [diff]: schema snapshot types, [Comparator], [Generator],
      [Differ];
    - package [plugin]: the [Parameter] envelope and the RPC client of a
      provider;
    - package [core]: the [DbMan] actions [Create], [Deploy], [Upgrade]
      and [Query], and the connection and readiness checks.

    Go maps are [gmap]s, slices are lists, [int] and [int64] are [Z],
    pointers to optional scalars ([*string], [*int]) are [option]s.
    A run-time panic is an explicit outcome. *)

From Stdlib Require Import ZArith Lia Ascii.
From stdpp Require Import gmap strings list fin_maps pretty sorting.

Set Warnings "-register-all".
Local Open Scope string_scope.
Local Open Scope Z_scope.
Local Open Scope list_scope.

(** ** Go idioms shared by the packages *)

(** [for k, v := range m { if c(k, v) { acc = append(acc, x(k, v)) } }]:
    the body either appends one element or leaves [acc] alone.  Go visits
    the entries of a map in an unspecified order; the model visits them in
    the order of [map_to_list]. *)
Definition range_append {A B : Type}
    (m : gmap string A) (body : string → A → option B) (acc : list B) : list B :=
  foldl (λ acc kv, match body kv.1 kv.2 with
                   | Some b => acc ++ [b]
                   | None => acc
                   end) acc (map_to_list m).

(** The same loop over a slice. *)
Definition slice_append {A B : Type}
    (l : list A) (body : A → option B) (acc : list B) : list B :=
  foldl (λ acc a, match body a with
                  | Some b => acc ++ [b]
                  | None => acc
                  end) acc l.

(** [len(x) > 0] *)
Definition nonempty {A : Type} (l : list A) : bool :=
  match l with [] => false | _ :: _ => true end.

(** [fmt.Sprintf] with [%s] and [%d] verbs only: the pieces in order.
    [%d] of an integer is [pretty]. *)
Definition cat (pieces : list string) : string := foldr String.append "" pieces.

(** The line feed ["\n"] of a Go string literal. *)
Definition LF : string := String (Ascii.ascii_of_nat 10) "".

(** [for i, x := range l { ... }] over a slice, threading the loop state. *)
Definition range_slice {A S : Type} (l : list A) (body : nat → A → S → S) (s : S) : S :=
  foldl (λ s ix, body ix.1 ix.2 s) s (imap pair l).

(** Statement sequencing on a threaded state. *)
Notation "s ;> f" := (f s) (at level 61, left associativity, only parsing).

(** A Go call either returns or panics (a failed type assertion, a write
    to a nil map, an index out of range). *)
Inductive outcome (A : Type) : Type :=
| Done (a : A)
| Panic.
Arguments Done {A} a.
Arguments Panic {A}.

(** A Go [(T, error)] result whose error is checked before [T] is used. *)
Inductive res (A : Type) : Type :=
| Ok (a : A)
| Err (e : string).
Arguments Ok {A} a.
Arguments Err {A} e.

(** [strings.HasSuffix] and [strings.TrimSuffix] *)
Definition HasSuffix (s suffix : string) : bool :=
  let n := String.length s in
  let k := String.length suffix in
  (k <=? n)%nat && String.eqb (String.substring (n - k) k s) suffix.

Definition TrimSuffix (s suffix : string) : string :=
  if HasSuffix s suffix
  then String.substring 0 (String.length s - String.length suffix) s
  else s.

(** * Package diff *)

Module Diff.

(** ** Schema snapshot (schema.go) *)

Record Column := {
  Column_Name : string;
  Column_DataType : string;
  Column_IsNullable : bool;
  Column_DefaultValue : option string;
  Column_CharMaxLength : option Z;
  Column_NumericPrecision : option Z;
  Column_NumericScale : option Z;
  Column_OrdinalPosition : Z;
  Column_Comment : option string
}.

Record Table := {
  Table_Name : string;
  Table_Schema : string;
  Table_Columns : gmap string Column;
  Table_Comment : string
}.

Record Index := {
  Index_Name : string;
  Index_TableName : string;
  Index_Schema : string;
  Index_Columns : list string;
  Index_IsUnique : bool;
  Index_IsPrimary : bool;
  Index_Definition : string
}.

Record Constraint := {
  Constraint_Name : string;
  Constraint_TableName : string;
  Constraint_Schema : string;
  Constraint_Type : string;
  Constraint_Definition : string;
  Constraint_ForeignTable : option string;
  Constraint_ForeignColumns : list string;
  Constraint_OnDelete : option string;
  Constraint_OnUpdate : option string
}.

Record Sequence := {
  Sequence_Name : string;
  Sequence_Schema : string;
  Sequence_StartValue : Z;
  Sequence_Increment : Z
}.

Record Enum := {
  Enum_Name : string;
  Enum_Schema : string;
  Enum_Values : list string
}.

Record Func := {
  Func_Name : string;
  Func_Schema : string;
  Func_Definition : string;
  Func_ReturnType : string;
  Func_Language : string
}.

Record View := {
  View_Name : string;
  View_Schema : string;
  View_Definition : string
}.

Record Trigger := {
  Trigger_Name : string;
  Trigger_TableName : string;
  Trigger_Schema : string;
  Trigger_Timing : string;
  Trigger_Event : string;
  Trigger_Definition : string
}.

Record DatabaseSchema := {
  Tables : gmap string Table;
  Sequences : gmap string Sequence;
  Enums : gmap string Enum;
  Functions : gmap string Func;
  Indexes : gmap string Index;
  Constraints : gmap string Constraint;
  Views : gmap string View;
  Triggers : gmap string Trigger
}.

(** ** Diff result (schema.go) *)

Record ColumnDiff := {
  ColumnDiff_Name : string;
  OldColumn : Column;
  NewColumn : Column;
  TypeChanged : bool;
  NullableChanged : bool;
  DefaultChanged : bool
}.

Record TableDiff := {
  TableDiff_TableName : string;
  AddedColumns : list Column;
  DroppedColumns : list Column;
  AlteredColumns : list ColumnDiff
}.

Record EnumDiff := {
  EnumDiff_Name : string;
  AddedValues : list string;
  RemovedValues : list string
}.

Record FunctionDiff := {
  FunctionDiff_Name : string;
  FunctionDiff_OldDefinition : string;
  FunctionDiff_NewDefinition : string
}.

Record ViewDiff := {
  ViewDiff_Name : string;
  ViewDiff_OldDefinition : string;
  ViewDiff_NewDefinition : string
}.

Record DiffResult := {
  CreatedTables : list Table;
  DroppedTables : list Table;
  AlteredTables : list TableDiff;
  CreatedIndexes : list Index;
  DroppedIndexes : list Index;
  CreatedConstraints : list Constraint;
  DroppedConstraints : list Constraint;
  CreatedSequences : list Sequence;
  DroppedSequences : list Sequence;
  CreatedEnums : list Enum;
  DroppedEnums : list Enum;
  AlteredEnums : list EnumDiff;
  CreatedFunctions : list Func;
  DroppedFunctions : list Func;
  AlteredFunctions : list FunctionDiff;
  CreatedViews : list View;
  DroppedViews : list View;
  AlteredViews : list ViewDiff;
  CreatedTriggers : list Trigger;
  DroppedTriggers : list Trigger
}.

(** [&DiffResult{}] *)
Definition emptyDiffResult : DiffResult :=
  {| CreatedTables := []; DroppedTables := []; AlteredTables := [];
     CreatedIndexes := []; DroppedIndexes := [];
     CreatedConstraints := []; DroppedConstraints := [];
     CreatedSequences := []; DroppedSequences := [];
     CreatedEnums := []; DroppedEnums := []; AlteredEnums := [];
     CreatedFunctions := []; DroppedFunctions := []; AlteredFunctions := [];
     CreatedViews := []; DroppedViews := []; AlteredViews := [];
     CreatedTriggers := []; DroppedTriggers := [] |}.

(** [func (d *DiffResult) HasChanges() bool] *)
Definition HasChanges (d : DiffResult) : bool :=
  nonempty (CreatedTables d) ||
  nonempty (DroppedTables d) ||
  nonempty (AlteredTables d) ||
  nonempty (CreatedIndexes d) ||
  nonempty (DroppedIndexes d) ||
  nonempty (CreatedConstraints d) ||
  nonempty (DroppedConstraints d) ||
  nonempty (CreatedViews d) ||
  nonempty (DroppedViews d) ||
  nonempty (AlteredViews d) ||
  nonempty (CreatedFunctions d) ||
  nonempty (DroppedFunctions d) ||
  nonempty (AlteredFunctions d) ||
  nonempty (CreatedTriggers d) ||
  nonempty (DroppedTriggers d) ||
  nonempty (CreatedEnums d) ||
  nonempty (DroppedEnums d) ||
  nonempty (CreatedSequences d) ||
  nonempty (DroppedSequences d).

(** ** Comparator (comparator.go)

    Map values are pointers in the source ([*Table], [*Column], ...); the
    reader never stores a nil pointer, and the model keeps the pointed-to
    records. *)

Definition compareNullableStrings (a b : option string) : bool :=
  match a, b with
  | None, None => true
  | None, Some _ | Some _, None => false
  | Some x, Some y => String.eqb x y
  end.

(** [compareColumns]: [hasChanges] is raised together with each flag, so it
    is their disjunction; [nil] is [None]. *)
Definition compareColumns (source target : Column) : option ColumnDiff :=
  let typeChanged := negb (String.eqb (Column_DataType source) (Column_DataType target)) in
  let nullableChanged := negb (Bool.eqb (Column_IsNullable source) (Column_IsNullable target)) in
  let defaultChanged :=
    negb (compareNullableStrings (Column_DefaultValue source) (Column_DefaultValue target)) in
  let hasChanges := typeChanged || nullableChanged || defaultChanged in
  if negb hasChanges then None
  else Some {| ColumnDiff_Name := Column_Name target;
               OldColumn := source;
               NewColumn := target;
               TypeChanged := typeChanged;
               NullableChanged := nullableChanged;
               DefaultChanged := defaultChanged |}.

(** [compareTableStructure]: [hasChanges] is raised with every append, so it
    holds exactly when one of the three slices is non-empty. *)
Definition compareTableStructure (source target : Table) : option TableDiff :=
  let added :=
    range_append (Table_Columns target)
      (λ colName targetCol,
         match Table_Columns source !! colName with
         | None => Some targetCol
         | Some _ => None
         end) [] in
  let dropped :=
    range_append (Table_Columns source)
      (λ colName sourceCol,
         match Table_Columns target !! colName with
         | None => Some sourceCol
         | Some _ => None
         end) [] in
  let altered :=
    range_append (Table_Columns source)
      (λ colName sourceCol,
         match Table_Columns target !! colName with
         | Some targetCol => compareColumns sourceCol targetCol
         | None => None
         end) [] in
  let hasChanges := nonempty added || nonempty dropped || nonempty altered in
  if negb hasChanges then None
  else Some {| TableDiff_TableName := Table_Name target;
               AddedColumns := added;
               DroppedColumns := dropped;
               AlteredColumns := altered |}.

(** [compareEnumValues]: [sourceMap] and [targetMap] are [map[string]bool]
    holding [true] for every label, that is, sets of labels. *)
Definition compareEnumValues (source target : Enum) : option EnumDiff :=
  let sourceMap : gset string := list_to_set (Enum_Values source) in
  let targetMap : gset string := list_to_set (Enum_Values target) in
  let added :=
    slice_append (Enum_Values target)
      (λ val, if bool_decide (val ∈ sourceMap) then None else Some val) [] in
  let removed :=
    slice_append (Enum_Values source)
      (λ val, if bool_decide (val ∈ targetMap) then None else Some val) [] in
  let hasChanges := nonempty added || nonempty removed in
  if negb hasChanges then None
  else Some {| EnumDiff_Name := Enum_Name target;
               AddedValues := added;
               RemovedValues := removed |}.

(** The two loops every object class shares: entries of [there] whose key
    is missing from [here]. *)
Definition missingFrom {A : Type} (here there : gmap string A) (acc : list A) : list A :=
  range_append there
    (λ key x, match here !! key with None => Some x | Some _ => None end) acc.

Definition compareTables (source target : DatabaseSchema) (result : DiffResult) : DiffResult :=
  {| CreatedTables := missingFrom (Tables source) (Tables target) (CreatedTables result);
     DroppedTables := missingFrom (Tables target) (Tables source) (DroppedTables result);
     AlteredTables :=
       range_append (Tables source)
         (λ key sourceTable,
            match Tables target !! key with
            | Some targetTable => compareTableStructure sourceTable targetTable
            | None => None
            end) (AlteredTables result);
     CreatedIndexes := CreatedIndexes result;
     DroppedIndexes := DroppedIndexes result;
     CreatedConstraints := CreatedConstraints result;
     DroppedConstraints := DroppedConstraints result;
     CreatedSequences := CreatedSequences result;
     DroppedSequences := DroppedSequences result;
     CreatedEnums := CreatedEnums result;
     DroppedEnums := DroppedEnums result;
     AlteredEnums := AlteredEnums result;
     CreatedFunctions := CreatedFunctions result;
     DroppedFunctions := DroppedFunctions result;
     AlteredFunctions := AlteredFunctions result;
     CreatedViews := CreatedViews result;
     DroppedViews := DroppedViews result;
     AlteredViews := AlteredViews result;
     CreatedTriggers := CreatedTriggers result;
     DroppedTriggers := DroppedTriggers result |}.

(** [compareIndexes]: primary-key indexes are skipped in both loops. *)
Definition compareIndexes (source target : DatabaseSchema) (result : DiffResult) : DiffResult :=
  {| CreatedTables := CreatedTables result;
     DroppedTables := DroppedTables result;
     AlteredTables := AlteredTables result;
     CreatedIndexes :=
       range_append (Indexes target)
         (λ key targetIndex,
            match Indexes source !! key with
            | None => if negb (Index_IsPrimary targetIndex) then Some targetIndex else None
            | Some _ => None
            end) (CreatedIndexes result);
     DroppedIndexes :=
       range_append (Indexes source)
         (λ key sourceIndex,
            match Indexes target !! key with
            | None => if negb (Index_IsPrimary sourceIndex) then Some sourceIndex else None
            | Some _ => None
            end) (DroppedIndexes result);
     CreatedConstraints := CreatedConstraints result;
     DroppedConstraints := DroppedConstraints result;
     CreatedSequences := CreatedSequences result;
     DroppedSequences := DroppedSequences result;
     CreatedEnums := CreatedEnums result;
     DroppedEnums := DroppedEnums result;
     AlteredEnums := AlteredEnums result;
     CreatedFunctions := CreatedFunctions result;
     DroppedFunctions := DroppedFunctions result;
     AlteredFunctions := AlteredFunctions result;
     CreatedViews := CreatedViews result;
     DroppedViews := DroppedViews result;
     AlteredViews := AlteredViews result;
     CreatedTriggers := CreatedTriggers result;
     DroppedTriggers := DroppedTriggers result |}.

Definition compareConstraints (source target : DatabaseSchema) (result : DiffResult) : DiffResult :=
  {| CreatedTables := CreatedTables result;
     DroppedTables := DroppedTables result;
     AlteredTables := AlteredTables result;
     CreatedIndexes := CreatedIndexes result;
     DroppedIndexes := DroppedIndexes result;
     CreatedConstraints :=
       missingFrom (Constraints source) (Constraints target) (CreatedConstraints result);
     DroppedConstraints :=
       missingFrom (Constraints target) (Constraints source) (DroppedConstraints result);
     CreatedSequences := CreatedSequences result;
     DroppedSequences := DroppedSequences result;
     CreatedEnums := CreatedEnums result;
     DroppedEnums := DroppedEnums result;
     AlteredEnums := AlteredEnums result;
     CreatedFunctions := CreatedFunctions result;
     DroppedFunctions := DroppedFunctions result;
     AlteredFunctions := AlteredFunctions result;
     CreatedViews := CreatedViews result;
     DroppedViews := DroppedViews result;
     AlteredViews := AlteredViews result;
     CreatedTriggers := CreatedTriggers result;
     DroppedTriggers := DroppedTriggers result |}.

Definition compareSequences (source target : DatabaseSchema) (result : DiffResult) : DiffResult :=
  {| CreatedTables := CreatedTables result;
     DroppedTables := DroppedTables result;
     AlteredTables := AlteredTables result;
     CreatedIndexes := CreatedIndexes result;
     DroppedIndexes := DroppedIndexes result;
     CreatedConstraints := CreatedConstraints result;
     DroppedConstraints := DroppedConstraints result;
     CreatedSequences :=
       missingFrom (Sequences source) (Sequences target) (CreatedSequences result);
     DroppedSequences :=
       missingFrom (Sequences target) (Sequences source) (DroppedSequences result);
     CreatedEnums := CreatedEnums result;
     DroppedEnums := DroppedEnums result;
     AlteredEnums := AlteredEnums result;
     CreatedFunctions := CreatedFunctions result;
     DroppedFunctions := DroppedFunctions result;
     AlteredFunctions := AlteredFunctions result;
     CreatedViews := CreatedViews result;
     DroppedViews := DroppedViews result;
     AlteredViews := AlteredViews result;
     CreatedTriggers := CreatedTriggers result;
     DroppedTriggers := DroppedTriggers result |}.

Definition compareEnums (source target : DatabaseSchema) (result : DiffResult) : DiffResult :=
  {| CreatedTables := CreatedTables result;
     DroppedTables := DroppedTables result;
     AlteredTables := AlteredTables result;
     CreatedIndexes := CreatedIndexes result;
     DroppedIndexes := DroppedIndexes result;
     CreatedConstraints := CreatedConstraints result;
     DroppedConstraints := DroppedConstraints result;
     CreatedSequences := CreatedSequences result;
     DroppedSequences := DroppedSequences result;
     CreatedEnums := missingFrom (Enums source) (Enums target) (CreatedEnums result);
     DroppedEnums := missingFrom (Enums target) (Enums source) (DroppedEnums result);
     AlteredEnums :=
       range_append (Enums source)
         (λ key sourceEnum,
            match Enums target !! key with
            | Some targetEnum => compareEnumValues sourceEnum targetEnum
            | None => None
            end) (AlteredEnums result);
     CreatedFunctions := CreatedFunctions result;
     DroppedFunctions := DroppedFunctions result;
     AlteredFunctions := AlteredFunctions result;
     CreatedViews := CreatedViews result;
     DroppedViews := DroppedViews result;
     AlteredViews := AlteredViews result;
     CreatedTriggers := CreatedTriggers result;
     DroppedTriggers := DroppedTriggers result |}.

Definition compareFunctions (source target : DatabaseSchema) (result : DiffResult) : DiffResult :=
  {| CreatedTables := CreatedTables result;
     DroppedTables := DroppedTables result;
     AlteredTables := AlteredTables result;
     CreatedIndexes := CreatedIndexes result;
     DroppedIndexes := DroppedIndexes result;
     CreatedConstraints := CreatedConstraints result;
     DroppedConstraints := DroppedConstraints result;
     CreatedSequences := CreatedSequences result;
     DroppedSequences := DroppedSequences result;
     CreatedEnums := CreatedEnums result;
     DroppedEnums := DroppedEnums result;
     AlteredEnums := AlteredEnums result;
     CreatedFunctions :=
       missingFrom (Functions source) (Functions target) (CreatedFunctions result);
     DroppedFunctions :=
       missingFrom (Functions target) (Functions source) (DroppedFunctions result);
     AlteredFunctions :=
       range_append (Functions source)
         (λ key sourceFunc,
            match Functions target !! key with
            | Some targetFunc =>
                if negb (String.eqb (Func_Definition sourceFunc) (Func_Definition targetFunc))
                then Some {| FunctionDiff_Name := Func_Name targetFunc;
                             FunctionDiff_OldDefinition := Func_Definition sourceFunc;
                             FunctionDiff_NewDefinition := Func_Definition targetFunc |}
                else None
            | None => None
            end) (AlteredFunctions result);
     CreatedViews := CreatedViews result;
     DroppedViews := DroppedViews result;
     AlteredViews := AlteredViews result;
     CreatedTriggers := CreatedTriggers result;
     DroppedTriggers := DroppedTriggers result |}.

Definition compareViews (source target : DatabaseSchema) (result : DiffResult) : DiffResult :=
  {| CreatedTables := CreatedTables result;
     DroppedTables := DroppedTables result;
     AlteredTables := AlteredTables result;
     CreatedIndexes := CreatedIndexes result;
     DroppedIndexes := DroppedIndexes result;
     CreatedConstraints := CreatedConstraints result;
     DroppedConstraints := DroppedConstraints result;
     CreatedSequences := CreatedSequences result;
     DroppedSequences := DroppedSequences result;
     CreatedEnums := CreatedEnums result;
     DroppedEnums := DroppedEnums result;
     AlteredEnums := AlteredEnums result;
     CreatedFunctions := CreatedFunctions result;
     DroppedFunctions := DroppedFunctions result;
     AlteredFunctions := AlteredFunctions result;
     CreatedViews := missingFrom (Views source) (Views target) (CreatedViews result);
     DroppedViews := missingFrom (Views target) (Views source) (DroppedViews result);
     AlteredViews :=
       range_append (Views source)
         (λ key sourceView,
            match Views target !! key with
            | Some targetView =>
                if negb (String.eqb (View_Definition sourceView) (View_Definition targetView))
                then Some {| ViewDiff_Name := View_Name targetView;
                             ViewDiff_OldDefinition := View_Definition sourceView;
                             ViewDiff_NewDefinition := View_Definition targetView |}
                else None
            | None => None
            end) (AlteredViews result);
     CreatedTriggers := CreatedTriggers result;
     DroppedTriggers := DroppedTriggers result |}.

Definition compareTriggers (source target : DatabaseSchema) (result : DiffResult) : DiffResult :=
  {| CreatedTables := CreatedTables result;
     DroppedTables := DroppedTables result;
     AlteredTables := AlteredTables result;
     CreatedIndexes := CreatedIndexes result;
     DroppedIndexes := DroppedIndexes result;
     CreatedConstraints := CreatedConstraints result;
     DroppedConstraints := DroppedConstraints result;
     CreatedSequences := CreatedSequences result;
     DroppedSequences := DroppedSequences result;
     CreatedEnums := CreatedEnums result;
     DroppedEnums := DroppedEnums result;
     AlteredEnums := AlteredEnums result;
     CreatedFunctions := CreatedFunctions result;
     DroppedFunctions := DroppedFunctions result;
     AlteredFunctions := AlteredFunctions result;
     CreatedViews := CreatedViews result;
     DroppedViews := DroppedViews result;
     AlteredViews := AlteredViews result;
     CreatedTriggers := missingFrom (Triggers source) (Triggers target) (CreatedTriggers result);
     DroppedTriggers := missingFrom (Triggers target) (Triggers source) (DroppedTriggers result) |}.

(** [func (c *Comparator) Compare(source, target *DatabaseSchema) *DiffResult] *)
Definition Compare (source target : DatabaseSchema) : DiffResult :=
  let result := emptyDiffResult in
  let result := compareTables source target result in
  let result := compareIndexes source target result in
  let result := compareConstraints source target result in
  let result := compareSequences source target result in
  let result := compareEnums source target result in
  let result := compareFunctions source target result in
  let result := compareViews source target result in
  let result := compareTriggers source target result in
  result.

(** ** Script generator (generator.go) *)

Record GeneratedScript := {
  UpScript : string;
  DownScript : string;
  GeneratedAt : string;
  Description : string;
  HasBreaking : bool;
  Warnings : list string
}.

Record Generator := { schema : string }.

(** [func NewGenerator(schema string) *Generator] *)
Definition NewGenerator (schema : string) : Generator :=
  let schema := if String.eqb schema "" then "public" else schema in
  {| schema := schema |}.

(** The two [strings.Builder]s and the two fields of [script] that the
    [generate*] methods write. *)
Record Out := {
  up : string;
  down : string;
  warnings : list string;
  hasBreaking : bool
}.

Definition upWrite (text : string) (o : Out) : Out :=
  {| up := up o +:+ text; down := down o;
     warnings := warnings o; hasBreaking := hasBreaking o |}.

Definition downWrite (text : string) (o : Out) : Out :=
  {| up := up o; down := down o +:+ text;
     warnings := warnings o; hasBreaking := hasBreaking o |}.

(** [script.Warnings = append(script.Warnings, w)] *)
Definition warn (w : string) (o : Out) : Out :=
  {| up := up o; down := down o;
     warnings := warnings o ++ [w]; hasBreaking := hasBreaking o |}.

(** [script.HasBreaking = true] *)
Definition breaking (o : Out) : Out :=
  {| up := up o; down := down o;
     warnings := warnings o; hasBreaking := true |}.

Definition when (c : bool) (f : Out → Out) (o : Out) : Out := if c then f o else o.

(** [func (g *Generator) formatColumnType(col *Column) string] *)
Definition formatColumnType (col : Column) : string :=
  let dataType := Column_DataType col in
  match Column_CharMaxLength col with
  | Some n => cat [dataType; "("; pretty n; ")"]
  | None =>
      match Column_NumericPrecision col, Column_NumericScale col with
      | Some p, Some sc => cat [dataType; "("; pretty p; ","; pretty sc; ")"]
      | Some p, None => cat [dataType; "("; pretty p; ")"]
      | None, _ => dataType
      end
  end.

(** The quoted labels of an enum, one per line, comma separated. *)
Definition enumValueLines (write : string → Out → Out) (values : list string) (o : Out) : Out :=
  range_slice values
    (λ i val o,
       o ;> write (cat ["    '"; val; "'"])
         ;> (if Z.of_nat i <? Z.of_nat (length values) - 1
             then write ("," +:+ LF) else write LF)) o.

Definition generateEnums (g : Generator) (diff : DiffResult) (o : Out) : Out :=
  let o := foldl (λ o enum,
      o ;> upWrite (cat ["CREATE TYPE "; schema g; "."; Enum_Name enum; " AS ENUM ("; LF])
        ;> enumValueLines upWrite (Enum_Values enum)
        ;> upWrite (cat [");"; LF; LF])
        ;> downWrite (cat ["DROP TYPE IF EXISTS "; schema g; "."; Enum_Name enum; ";"; LF; LF]))
    o (CreatedEnums diff) in
  let o := foldl (λ o enumDiff,
      o ;> (λ o, foldl (λ o val,
               o ;> upWrite (cat ["ALTER TYPE "; schema g; "."; EnumDiff_Name enumDiff;
                                  " ADD VALUE '"; val; "';"; LF]))
             o (AddedValues enumDiff))
        ;> when (nonempty (RemovedValues enumDiff))
             (λ o, o ;> warn (cat ["Cannot automatically remove enum values from ";
                                   EnumDiff_Name enumDiff;
                                   ". Manual intervention required."])
                     ;> breaking)
        ;> upWrite LF)
    o (AlteredEnums diff) in
  let o := foldl (λ o enum,
      o ;> upWrite (cat ["DROP TYPE IF EXISTS "; schema g; "."; Enum_Name enum; ";"; LF; LF])
        ;> downWrite (cat ["CREATE TYPE "; schema g; "."; Enum_Name enum; " AS ENUM ("; LF])
        ;> enumValueLines downWrite (Enum_Values enum)
        ;> downWrite (cat [");"; LF; LF]))
    o (DroppedEnums diff) in
  o.

Definition createSequence (g : Generator) (seq : Sequence) : string :=
  cat ["CREATE SEQUENCE "; schema g; "."; Sequence_Name seq;
       " START WITH "; pretty (Sequence_StartValue seq);
       " INCREMENT BY "; pretty (Sequence_Increment seq); ";"; LF; LF].

Definition dropSequence (g : Generator) (seq : Sequence) : string :=
  cat ["DROP SEQUENCE IF EXISTS "; schema g; "."; Sequence_Name seq; ";"; LF; LF].

Definition generateSequences (g : Generator) (diff : DiffResult) (o : Out) : Out :=
  let o := foldl (λ o seq,
      o ;> upWrite (createSequence g seq) ;> downWrite (dropSequence g seq))
    o (CreatedSequences diff) in
  let o := foldl (λ o seq,
      o ;> upWrite (dropSequence g seq) ;> downWrite (createSequence g seq))
    o (DroppedSequences diff) in
  o.

(** One comparison of the in-place sort: swap [columns[i]] and [columns[j]]
    when they are out of order. *)
Definition sortStep (i j : nat) (columns : list Column) : list Column :=
  match columns !! i, columns !! j with
  | Some ci, Some cj =>
      if Column_OrdinalPosition ci >? Column_OrdinalPosition cj
      then <[j := ci]> (<[i := cj]> columns)
      else columns
  | _, _ => columns
  end.

(** [for i := 0; i < n; i++ { for j := i + 1; j < n; j++ { ... } }] *)
Definition sortByOrdinal (columns : list Column) : list Column :=
  let n := length columns in
  foldl (λ columns i,
           foldl (λ columns j, sortStep i j columns) columns (seq (S i) (n - S i)))
        columns (seq 0 n).

(** [NOT NULL] and [DEFAULT] suffixes of a column definition. *)
Definition columnSuffix (write : string → Out → Out) (col : Column) (o : Out) : Out :=
  o ;> when (negb (Column_IsNullable col)) (write " NOT NULL")
    ;> (match Column_DefaultValue col with
        | Some d => write (cat [" DEFAULT "; d])
        | None => λ o, o
        end).

Definition generateAlteredColumn (g : Generator) (tableDiff : TableDiff)
    (colDiff : ColumnDiff) (o : Out) : Out :=
  let alter := cat ["ALTER TABLE "; schema g; "."; TableDiff_TableName tableDiff;
                    " ALTER COLUMN "; ColumnDiff_Name colDiff] in
  o ;> when (TypeChanged colDiff)
         (λ o, o ;> upWrite (cat [alter; " TYPE "; formatColumnType (NewColumn colDiff); ";"; LF])
                 ;> downWrite (cat [alter; " TYPE "; formatColumnType (OldColumn colDiff); ";"; LF])
                 ;> warn (cat ["Type change on "; TableDiff_TableName tableDiff; ".";
                               ColumnDiff_Name colDiff;
                               " may cause data loss or conversion errors"]))
    ;> when (NullableChanged colDiff)
         (λ o, if Column_IsNullable (NewColumn colDiff)
               then o ;> upWrite (cat [alter; " DROP NOT NULL;"; LF])
                      ;> downWrite (cat [alter; " SET NOT NULL;"; LF])
               else o ;> upWrite (cat [alter; " SET NOT NULL;"; LF])
                      ;> downWrite (cat [alter; " DROP NOT NULL;"; LF])
                      ;> warn (cat ["Setting NOT NULL on "; TableDiff_TableName tableDiff; ".";
                                    ColumnDiff_Name colDiff;
                                    " may fail if existing NULL values exist"]))
    ;> when (DefaultChanged colDiff)
         (λ o, o ;> (match Column_DefaultValue (NewColumn colDiff) with
                     | Some d => upWrite (cat [alter; " SET DEFAULT "; d; ";"; LF])
                     | None => upWrite (cat [alter; " DROP DEFAULT;"; LF])
                     end)
                 ;> (match Column_DefaultValue (OldColumn colDiff) with
                     | Some d => downWrite (cat [alter; " SET DEFAULT "; d; ";"; LF])
                     | None => downWrite (cat [alter; " DROP DEFAULT;"; LF])
                     end)).

Definition generateAlteredTable (g : Generator) (tableDiff : TableDiff) (o : Out) : Out :=
  let tbl := cat ["ALTER TABLE "; schema g; "."; TableDiff_TableName tableDiff] in
  let o := foldl (λ o col,
      o ;> upWrite (cat [tbl; " ADD COLUMN "; Column_Name col; " "; formatColumnType col])
        ;> columnSuffix upWrite col
        ;> upWrite (";" +:+ LF)
        ;> downWrite (cat [tbl; " DROP COLUMN IF EXISTS "; Column_Name col; ";"; LF]))
    o (AddedColumns tableDiff) in
  let o := foldl (λ o col,
      o ;> upWrite (cat [tbl; " DROP COLUMN IF EXISTS "; Column_Name col; ";"; LF])
        ;> warn (cat ["Dropping column "; TableDiff_TableName tableDiff; "."; Column_Name col;
                      " will result in data loss"])
        ;> breaking
        ;> downWrite (cat [tbl; " ADD COLUMN "; Column_Name col; " "; formatColumnType col])
        ;> columnSuffix downWrite col
        ;> downWrite (";" +:+ LF))
    o (DroppedColumns tableDiff) in
  let o := foldl (λ o colDiff, generateAlteredColumn g tableDiff colDiff o)
    o (AlteredColumns tableDiff) in
  o ;> upWrite LF ;> downWrite LF.

Definition generateTables (g : Generator) (diff : DiffResult) (o : Out) : Out :=
  let o := foldl (λ o table,
      let columns := sortByOrdinal (range_append (Table_Columns table) (λ _ col, Some col) []) in
      o ;> upWrite (cat ["CREATE TABLE "; schema g; "."; Table_Name table; " ("; LF])
        ;> range_slice columns
             (λ i col o,
                o ;> upWrite (cat ["    "; Column_Name col; " "; formatColumnType col])
                  ;> columnSuffix upWrite col
                  ;> (if Z.of_nat i <? Z.of_nat (length columns) - 1
                      then upWrite ("," +:+ LF) else upWrite LF))
        ;> upWrite (cat [");"; LF; LF])
        ;> downWrite (cat ["DROP TABLE IF EXISTS "; schema g; "."; Table_Name table;
                           " CASCADE;"; LF; LF]))
    o (CreatedTables diff) in
  let o := foldl (λ o tableDiff, generateAlteredTable g tableDiff o) o (AlteredTables diff) in
  let o := foldl (λ o table,
      o ;> upWrite (cat ["DROP TABLE IF EXISTS "; schema g; "."; Table_Name table;
                         " CASCADE;"; LF; LF])
        ;> warn (cat ["Dropping table "; Table_Name table; " will result in complete data loss"])
        ;> breaking
        ;> downWrite (cat ["-- TODO: Recreate table "; schema g; "."; Table_Name table;
                           " with all columns and data"; LF; LF]))
    o (DroppedTables diff) in
  o.

Definition dropConstraint (g : Generator) (c : Constraint) : string :=
  cat ["ALTER TABLE "; schema g; "."; Constraint_TableName c;
       " DROP CONSTRAINT IF EXISTS "; Constraint_Name c; ";"; LF].

Definition addConstraint (g : Generator) (c : Constraint) : string :=
  cat ["ALTER TABLE "; schema g; "."; Constraint_TableName c;
       " ADD CONSTRAINT "; Constraint_Name c; " "; Constraint_Definition c; ";"; LF].

Definition generateConstraints (g : Generator) (diff : DiffResult) (o : Out) : Out :=
  let o := foldl (λ o c, o ;> upWrite (dropConstraint g c)) o (DroppedConstraints diff) in
  let o := o ;> when (nonempty (DroppedConstraints diff)) (upWrite LF) in
  let o := foldl (λ o c,
      o ;> upWrite (addConstraint g c) ;> downWrite (dropConstraint g c))
    o (CreatedConstraints diff) in
  let o := o ;> when (nonempty (CreatedConstraints diff))
                  (λ o, o ;> upWrite LF ;> downWrite LF) in
  let o := foldl (λ o c, o ;> downWrite (addConstraint g c)) o (DroppedConstraints diff) in
  let o := o ;> when (nonempty (DroppedConstraints diff)) (downWrite LF) in
  o.

Definition dropIndex (g : Generator) (index : Index) : string :=
  cat ["DROP INDEX IF EXISTS "; schema g; "."; Index_Name index; ";"; LF].

Definition generateIndexes (g : Generator) (diff : DiffResult) (o : Out) : Out :=
  let o := foldl (λ o index,
      o ;> upWrite (cat [Index_Definition index; ";"; LF]) ;> downWrite (dropIndex g index))
    o (CreatedIndexes diff) in
  let o := o ;> when (nonempty (CreatedIndexes diff))
                  (λ o, o ;> upWrite LF ;> downWrite LF) in
  let o := foldl (λ o index,
      o ;> upWrite (dropIndex g index) ;> downWrite (cat [Index_Definition index; ";"; LF]))
    o (DroppedIndexes diff) in
  let o := o ;> when (nonempty (DroppedIndexes diff))
                  (λ o, o ;> upWrite LF ;> downWrite LF) in
  o.

Definition dropFunction (g : Generator) (fn : Func) : string :=
  cat ["DROP FUNCTION IF EXISTS "; schema g; "."; Func_Name fn; ";"; LF; LF].

Definition generateFunctions (g : Generator) (diff : DiffResult) (o : Out) : Out :=
  let o := foldl (λ o fn,
      o ;> upWrite (Func_Definition fn) ;> upWrite (cat [";"; LF; LF])
        ;> downWrite (dropFunction g fn))
    o (CreatedFunctions diff) in
  let o := foldl (λ o fnDiff,
      o ;> upWrite (cat ["-- Replacing function "; FunctionDiff_Name fnDiff; LF])
        ;> upWrite (FunctionDiff_NewDefinition fnDiff)
        ;> upWrite (cat [";"; LF; LF])
        ;> downWrite (cat ["-- Restoring function "; FunctionDiff_Name fnDiff; LF])
        ;> downWrite (FunctionDiff_OldDefinition fnDiff)
        ;> downWrite (cat [";"; LF; LF]))
    o (AlteredFunctions diff) in
  let o := foldl (λ o fn,
      o ;> upWrite (dropFunction g fn)
        ;> downWrite (Func_Definition fn) ;> downWrite (cat [";"; LF; LF]))
    o (DroppedFunctions diff) in
  o.

Definition createView (g : Generator) (name definition : string) : string :=
  cat ["CREATE VIEW "; schema g; "."; name; " AS"; LF; definition; ";"; LF; LF].

Definition replaceView (g : Generator) (name definition : string) : string :=
  cat ["CREATE OR REPLACE VIEW "; schema g; "."; name; " AS"; LF; definition; ";"; LF; LF].

Definition dropView (g : Generator) (name : string) : string :=
  cat ["DROP VIEW IF EXISTS "; schema g; "."; name; ";"; LF; LF].

Definition generateViews (g : Generator) (diff : DiffResult) (o : Out) : Out :=
  let o := foldl (λ o view,
      o ;> upWrite (createView g (View_Name view) (View_Definition view))
        ;> downWrite (dropView g (View_Name view)))
    o (CreatedViews diff) in
  let o := foldl (λ o viewDiff,
      o ;> upWrite (replaceView g (ViewDiff_Name viewDiff) (ViewDiff_NewDefinition viewDiff))
        ;> downWrite (replaceView g (ViewDiff_Name viewDiff) (ViewDiff_OldDefinition viewDiff)))
    o (AlteredViews diff) in
  let o := foldl (λ o view,
      o ;> upWrite (dropView g (View_Name view))
        ;> downWrite (createView g (View_Name view) (View_Definition view)))
    o (DroppedViews diff) in
  o.

Definition dropTrigger (g : Generator) (trigger : Trigger) : string :=
  cat ["DROP TRIGGER IF EXISTS "; Trigger_Name trigger; " ON "; schema g; ".";
       Trigger_TableName trigger; ";"; LF; LF].

Definition generateTriggers (g : Generator) (diff : DiffResult) (o : Out) : Out :=
  let o := foldl (λ o trigger,
      o ;> upWrite (cat [Trigger_Definition trigger; ";"; LF; LF])
        ;> downWrite (dropTrigger g trigger))
    o (CreatedTriggers diff) in
  let o := foldl (λ o trigger,
      o ;> upWrite (dropTrigger g trigger)
        ;> downWrite (cat [Trigger_Definition trigger; ";"; LF; LF]))
    o (DroppedTriggers diff) in
  o.

(** [func (g *Generator) Generate(diff *DiffResult, description string)];
    [generatedAt] is [time.Now()] already rendered in RFC 3339. *)
Definition Generate (g : Generator) (diff : DiffResult) (description generatedAt : string)
    : GeneratedScript :=
  let o := {| up := ""; down := ""; warnings := []; hasBreaking := false |} in
  let o := o ;> upWrite (cat ["-- Migration: "; description; LF])
             ;> upWrite (cat ["-- Generated: "; generatedAt; LF])
             ;> upWrite (cat ["-- UP Migration"; LF; LF])
             ;> downWrite (cat ["-- Migration: "; description; LF])
             ;> downWrite (cat ["-- Generated: "; generatedAt; LF])
             ;> downWrite (cat ["-- DOWN Migration"; LF; LF]) in
  let o := generateEnums g diff o in
  let o := generateSequences g diff o in
  let o := generateTables g diff o in
  let o := generateConstraints g diff o in
  let o := generateIndexes g diff o in
  let o := generateFunctions g diff o in
  let o := generateViews g diff o in
  let o := generateTriggers g diff o in
  {| UpScript := up o;
     DownScript := down o;
     GeneratedAt := generatedAt;
     Description := description;
     HasBreaking := hasBreaking o;
     Warnings := warnings o |}.

End Diff.

(** * Package plugin *)

Module Plugin.

(** ** Values behind [interface{}]

    What [encoding/json] stores in an [interface{}]: [nil], [bool],
    [float64] (kept as the number's literal), [string], [[]interface{}]
    and [map[string]interface{}]. *)
Inductive jvalue : Type :=
| JNull
| JBool (b : bool)
| JNum (literal : string)
| JStr (s : string)
| JArr (items : list jvalue)
| JObj (members : gmap string jvalue).

(** [encoding/json] is not part of the repository: [Marshal] and
    [Unmarshal] on [map[string]interface{}] are parameters.  [Unmarshal]
    yields the decoded map ([None] is the nil map that the text [null]
    decodes to) and the error, if any. *)
Class JSON := {
  json_Marshal : gmap string jvalue → string;
  json_Unmarshal : string → option (gmap string jvalue) * option string
}.

(** All leaves are strings. *)
Fixpoint stringLeaves (v : jvalue) : bool :=
  match v with
  | JStr _ => true
  | JArr items => forallb stringLeaves items
  | JObj members => map_fold (λ _ x b, stringLeaves x && b) true members
  | JNull | JBool _ | JNum _ => false
  end.

(** ** The envelope (parameter.go) *)

(** [type Parameter struct]; the name is reserved here, hence [Param].
    [value] is a Go map: [None] is the nil map. [log] is the content of
    the [bytes.Buffer]. *)
Record Param := {
  value : option (gmap string jvalue);
  log : string
}.

(** Modelled from the spec: the declaration of [Version] is not among the
    sources; the fields are those that [GetVersion] and [setDbVersion]
    fill in.  [Time] keeps the text handed to [time.Parse]. *)
Record Version := {
  AppVersion : string;
  DbVersion : string;
  Description : string;
  Source : string;
  Time : string
}.

(** An envelope with string-only leaves. *)
Definition stringOnly (r : Param) : bool :=
  match value r with
  | Some m => map_fold (λ _ x b, stringLeaves x && b) true m
  | None => true
  end.

(** The [result] entry is missing or is not an object. *)
Definition noResultObject (r : Param) : Prop :=
  match value r with
  | Some m =>
      match m !! "result" with
      | Some (JObj _) => False
      | Some _ | None => True
      end
  | None => True
  end.

(** [m[key]] on a Go map: the nil interface when the key is absent, also
    on a nil map. *)
Definition index (m : option (gmap string jvalue)) (key : string) : jvalue :=
  match m with
  | Some m => default JNull (m !! key)
  | None => JNull
  end.

(** [x.(string)] *)
Definition assertString (x : jvalue) : outcome string :=
  match x with
  | JStr s => Done s
  | _ => Panic
  end.

(** [x.(map[string]interface{})] *)
Definition assertMap (x : jvalue) : outcome (gmap string jvalue) :=
  match x with
  | JObj m => Done m
  | _ => Panic
  end.

Definition NewParameter : Param :=
  {| value := Some ∅; log := "" |}.

Definition GetString (r : Param) (key : string) : outcome string :=
  assertString (index (value r) key).

Definition Get (r : Param) (key : string) : jvalue :=
  index (value r) key.

(** [r.value[key] = value]: an assignment to an entry of a nil map panics. *)
Definition Set_ (r : Param) (key : string) (v : jvalue) : outcome Param :=
  match value r with
  | Some m => Done {| value := Some (<[key := v]> m); log := log r |}
  | None => Panic
  end.

(** [func (r *Parameter) GetVersion() *Version].  A decoded envelope never
    holds a nil map inside an interface, so after the type assertion
    [v != nil] holds and the closing [return nil] is not reached. *)
Definition GetVersion (r : Param) : outcome (option Version) :=
  match assertMap (index (value r) "result") with
  | Panic => Panic
  | Done v =>
      match assertString (index (Some v) "time") with
      | Panic => Panic
      | Done t =>
          match assertString (index (Some v) "appVersion"),
                assertString (index (Some v) "dbVersion"),
                assertString (index (Some v) "description"),
                assertString (index (Some v) "source") with
          | Done appVersion, Done dbVersion, Done description, Done source =>
              Done (Some {| AppVersion := appVersion;
                            DbVersion := dbVersion;
                            Description := description;
                            Source := source;
                            Time := t |})
          | _, _, _, _ => Panic
          end
      end
  end.

(** [r.log.WriteString(fmt.Sprintf("%s\n", message))] *)
Definition Log (r : Param) (message : string) : Param :=
  {| value := value r; log := log r +:+ cat [message; LF] |}.

Definition HasError (r : Param) : bool :=
  match index (value r) "error" with
  | JNull => false
  | _ => true
  end.

(** [func (r *Parameter) Error() error] *)
Definition Error (r : Param) : outcome (option string) :=
  match index (value r) "error" with
  | JNull => Done None
  | JStr s => Done (Some s)
  | _ => Panic
  end.

Definition GetLog (r : Param) : outcome string :=
  match index (value r) "log" with
  | JNull => Done ""
  | JStr log => Done (if HasSuffix log (LF +:+ LF) then TrimSuffix log LF else log)
  | _ => Panic
  end.

Section Codec.
Context `{JSON}.

(** [func (r *Parameter) ToString() string]: the receiver is updated in
    place, so the text comes with the envelope as the call leaves it.
    Every [jvalue] can be marshalled, so the error branch is not taken. *)
Definition ToString (r : Param) : outcome (string * Param) :=
  match value r with
  | None => Panic
  | Some m =>
      let m := <["log" := JStr (log r)]> m in
      Done (json_Marshal m, {| value := Some m; log := log r |})
  end.

(** [func (r *Parameter) FromJSON(jsonString string) error] *)
Definition FromJSON (r : Param) (jsonString : string) : Param * option string :=
  let '(m, err) := json_Unmarshal jsonString in
  ({| value := m; log := log r |}, err).

Definition NewParameterFromJSON (jsonString : string) : Param :=
  let r := {| value := Some ∅; log := "" |} in
  fst (FromJSON r jsonString).

End Codec.

(** ** The provider interface (dbProvider.go)

    A provider is a state machine behind the six string-to-string
    methods; the three that the release actions call are kept.  [db_] is
    prefixed because [GetVersion] is also a method of [Parameter]. *)
Class DatabaseProvider (P : Type) := {
  db_GetVersion : P → string * P;
  db_SetVersion : string → P → string * P;
  db_RunCommand : string → P → string * P
}.

End Plugin.

(** * Package core *)

Module Core.
Import Plugin.

(** ** Manifest, plan and script manager

    Their declarations are not among the sources; [dbman.go] uses them
    through the fields and methods below. *)

(** Modelled from the spec: a script of a command carries its content
    reference. *)
Record Script := {
  Script_Name : string;
  Script_Content : string
}.

(** Modelled from the spec: [Command{name, description, transactional,
    asAdmin, useDb, scripts[]}], as also built by [CheckConfigSet]. *)
Record Command := {
  Command_Name : string;
  Command_Description : string;
  Transactional : bool;
  AsAdmin : bool;
  UseDb : bool;
  Scripts : list Script
}.

(** Modelled from the spec: the release manifest, with the fields that
    the actions read: [create] and [deploy] name ordered lists of command
    identifiers and [upgrade] has the slots [prepare], [alter] and
    [deploy]. *)
Record Manifest := {
  Manifest_DbVersion : string;
  CommandsPath : string;
  QueriesPath : string;
  Create_Commands : list string;
  Deploy_Commands : list string;
  Upgrade_Prepare : string;
  Upgrade_Alter : string;
  Upgrade_Deploy : string
}.

(** Modelled from the spec: [Release{appVersion, dbVersion, path}]; the
    source calls a value of this type [info]. *)
Record Info := {
  Info_AppVersion : string;
  Info_DbVersion : string;
  Path : string
}.

(** Modelled from the spec: the ordered sequence of releases. *)
Record Plan := {
  Releases : list Info
}.

(** The methods of [ScriptManager], [Manifest], [Plan], [Command] and
    [Version] that the actions call and whose bodies are not among the
    sources, as parameters.  The fetchers read the release source, which
    no action writes. *)
Class Scripts_ := {
  fetchPlan : res Plan;
  fetchManifest : string → res (Info * Manifest);
  fetchCommandContent : string → string → Command → res Command;
  GetCommands : Manifest → list string → list Command;
  getUpgradeWindow : Plan → string → string → Z * Z;
  Command_ToString : Command → string;
  Version_ToString : Version → string
}.

(** Modelled from the spec: the configuration record, which is not among
    the sources, with the options that the actions read with [dm.get]. *)
Record Config := {
  Cfg_AppVersion : string;
  Cfg_DbName : string;
  Cfg_RepoURI : string
}.

(** ** The engine and its calls to the provider *)

(** A call that an action made to the provider, with the reply.  The
    argument is kept as the value whose [ToString] was sent. *)
Inductive Call : Type :=
| CallGetVersion (reply : string)
| CallRunCommand (c : Command) (reply : string)
| CallSetVersion (input : Version) (reply : string).

Section Engine.
Context `{JSON} `{Scripts_} {P : Type} `{DatabaseProvider P}.

(** The state an action runs in: the provider and, as a history variable,
    the calls made so far. *)
Record World := {
  provider : P;
  calls : list Call
}.

(** An action step: it returns or panics, and leaves a world either way. *)
Definition Action (A : Type) : Type := World → outcome A * World.

Definition ret {A : Type} (a : A) : Action A := λ w, (Done a, w).

Definition bind {A B : Type} (m : Action A) (k : A → Action B) : Action B :=
  λ w, match m w with
       | (Done a, w) => k a w
       | (Panic, w) => (Panic, w)
       end.

Definition lift {A : Type} (o : outcome A) : Action A := λ w, (o, w).

Notation "x <- m ;; k" := (bind m (λ x, k))
  (at level 100, m at next level, right associativity).

(** [dm.DbPlugin().GetVersion()] *)
Definition callGetVersion : Action string :=
  λ w, let '(reply, p) := db_GetVersion (provider w) in
       (Done reply, {| provider := p; calls := calls w ++ [CallGetVersion reply] |}).

(** [dm.DbPlugin().RunCommand(c.ToString())] *)
Definition callRunCommand (c : Command) : Action string :=
  λ w, let '(reply, p) := db_RunCommand (Command_ToString c) (provider w) in
       (Done reply, {| provider := p; calls := calls w ++ [CallRunCommand c reply] |}).

(** [dm.DbPlugin().SetVersion(input.ToString())] *)
Definition callSetVersion (input : Version) : Action string :=
  λ w, let '(reply, p) := db_SetVersion (Version_ToString input) (provider w) in
       (Done reply, {| provider := p; calls := calls w ++ [CallSetVersion input reply] |}).

(** The first loop of [runCommands]: fetch the content of every command,
    stopping at the first error. *)
Fixpoint fetchCommands (cfg : Config) (manifest : Manifest) (cmds : list Command)
    : res (list Command) :=
  match cmds with
  | [] => Ok []
  | cmd :: cmds =>
      match fetchCommandContent (Cfg_AppVersion cfg) (CommandsPath manifest) cmd with
      | Err err => Err err
      | Ok cmd =>
          match fetchCommands cfg manifest cmds with
          | Err err => Err err
          | Ok commands => Ok (cmd :: commands)
          end
      end
  end.

(** The second loop of [runCommands]: execute the commands in order,
    stopping at the first reply that carries an error. *)
Fixpoint executeCommands (commands : list Command) (log : string)
    : Action (string * option string) :=
  match commands with
  | [] => ret (log, None)
  | c :: commands =>
      let log := log +:+ cat ["? I have started execution of the command '";
                              Command_Name c; "'"; LF] in
      r <- callRunCommand c ;;
      let result := NewParameterFromJSON r in
      if HasError result then
        err <- lift (Error result) ;;
        let log := log +:+ cat ["!!! the execution of the command '"; Command_Name c;
                                "' has failed: "; default "%!s(<nil>)" err; LF] in
        ret (log, err)
      else
        l <- lift (GetLog result) ;;
        let log := log +:+ l in
        let log := log +:+ cat ["? the execution of the command '"; Command_Name c;
                                "' has succeeded"; LF] in
        executeCommands commands log
  end.

(** [func (dm *DbMan) runCommands(cmds []Command, manifest *Manifest)] *)
Definition runCommands (cfg : Config) (cmds : list Command) (manifest : Manifest)
    : Action (string * option string) :=
  match fetchCommands cfg manifest cmds with
  | Err err => ret ("", Some err)
  | Ok commands => executeCommands commands ""
  end.

(** [func (dm *DbMan) setDbVersion(appVer, dbVersion, description, path)] *)
Definition setDbVersion (cfg : Config) (appVer dbVersion description path : string)
    : Action (option string) :=
  let input := {| AppVersion := appVer;
                  DbVersion := dbVersion;
                  Description := description;
                  Source := cat [Cfg_RepoURI cfg; "/"; path];
                  Time := "" |} in
  r <- callSetVersion input ;;
  let setVerResult := NewParameterFromJSON r in
  if HasError setVerResult then lift (Error setVerResult) else ret None.

(** [func (dm *DbMan) getVersion()], returning a [*Version] and an [error] *)
Definition getVersion : Action (option Version * option string) :=
  v <- callGetVersion ;;
  let result := NewParameterFromJSON v in
  version <- lift (GetVersion result) ;;
  err <- lift (Error result) ;;
  ret (version, err).

Definition alreadyExistsCreate (v : Version) : string :=
  cat ["!!! I have found an existing database version "; DbVersion v;
       ", which is for application version "; AppVersion v; "."; LF;
       "I cannot create the database because the database is already there!"; LF;
       "If you meant to run this command then ensure there is not any database."].

(** [func (dm *DbMan) Create() (log bytes.Buffer, err error, elapsed time.Duration)];
    the wall-clock [elapsed] is left out, here and below. *)
Definition Create (cfg : Config) : Action (string * option string) :=
  let appVer := Cfg_AppVersion cfg in
  let log := cat ["? I am checking that the database '"; Cfg_DbName cfg;
                  "' does not already exist"; LF] in
  r <- callGetVersion ;;
  let result := NewParameterFromJSON r in
  v <- (if negb (HasError result) then lift (GetVersion result) else ret None) ;;
  match v with
  | Some v => ret (log, Some (alreadyExistsCreate v))
  | None =>
      let log := log +:+ cat ["? I am retrieving the release manifest for application version '";
                              Cfg_AppVersion cfg; "'"; LF] in
      match fetchManifest appVer with
      | Err err => ret (log, Some err)
      | Ok (_, manifest) =>
          let cmds := GetCommands manifest (Create_Commands manifest) in
          out <- runCommands cfg cmds manifest ;;
          ret (log +:+ out.1, out.2)
      end
  end.

Definition alreadyExistsDeploy (dbVersion appVersion : string) : string :=
  cat ["!!! I have found an existing database version "; dbVersion;
       ", which is for application version "; appVersion].

(** [func (dm *DbMan) Deploy() (log bytes.Buffer, err error, elapsed time.Duration)] *)
Definition Deploy (cfg : Config) : Action (string * option string) :=
  let log := "" in
  let appVer := Cfg_AppVersion cfg in
  r <- callGetVersion ;;
  let result := NewParameterFromJSON r in
  if negb (HasError result) then
    dbVersion <- lift (GetString result "dbVersion") ;;
    appVersion <- lift (GetString result "appVersion") ;;
    ret (log, Some (alreadyExistsDeploy dbVersion appVersion))
  else
    match fetchManifest appVer with
    | Err err => ret (log, Some err)
    | Ok (info, manifest) =>
        let cmds := GetCommands manifest (Deploy_Commands manifest) in
        out <- runCommands cfg cmds manifest ;;
        let log := log +:+ out.1 in
        match out.2 with
        | Some err => ret (log, Some err)
        | None =>
            err <- setDbVersion cfg appVer (Manifest_DbVersion manifest)
                     (cat ["Created database version "; Manifest_DbVersion manifest])
                     (Path info) ;;
            let log := if err is Some _
                       then log +:+ cat ["? I am updating the release version history"; LF]
                       else log in
            ret (log, err)
        end
    end.

Definition updatingHistory : string :=
  cat ["? I am updating the release version history"; LF].

(** The alter stage of a release that is not the current one: run the
    alter command when the manifest defines one. *)
Definition upgradeAlter (cfg : Config) (manifest : Manifest) (log : string)
    : Action (string * option string) :=
  if (0 <? String.length (Upgrade_Alter manifest))%nat then
    let cmd := GetCommands manifest [Upgrade_Alter manifest] in
    out <- runCommands cfg cmd manifest ;;
    ret (log +:+ out.1, out.2)
  else
    ret (log +:+ cat ["? I did not find an Alter command in the manifest, ";
                      "so I am not applying any changes to the schema"; LF],
         None).

(** What follows the alter stage: on the target release the deploy stage
    and the history row of the upgrade, on an intermediate release the
    history row of the schema update.  [inl] leaves the action with that
    result, [inr] goes on to the next release with the log so far. *)
Definition upgradeRecord (cfg : Config) (version : Version) (info : Info)
    (manifest : Manifest) (targetIx i : Z) (log : string)
    : Action ((string * option string) + string) :=
  let targetAppVer := Cfg_AppVersion cfg in
  if i =? targetIx then
    let cmd := GetCommands manifest [Upgrade_Deploy manifest] in
    out <- runCommands cfg cmd manifest ;;
    let log := log +:+ out.1 in
    match out.2 with
    | Some err => ret (inl (log, Some err))
    | None =>
        err <- setDbVersion cfg targetAppVer (Manifest_DbVersion manifest)
                 (cat ["Upgraded database from version "; DbVersion version;
                       " to "; Manifest_DbVersion manifest])
                 (Path info) ;;
        match err with
        | Some err => ret (inl (log, Some err))
        | None => ret (inr (log +:+ updatingHistory))
        end
    end
  else
    err <- setDbVersion cfg (Info_AppVersion info) (Manifest_DbVersion manifest)
             (cat ["Updated database schema only to version ";
                   Manifest_DbVersion manifest])
             (Path info) ;;
    match err with
    | Some err => ret (inl (log, Some err))
    | None => ret (inr (log +:+ updatingHistory))
    end.

(** The body of the loop of [Upgrade] for the release at plan index [i]. *)
Definition upgradeRelease (cfg : Config) (version : Version) (plan : Plan)
    (currentIx targetIx i : Z) (log : string)
    : Action ((string * option string) + string) :=
  info <- lift (if i - 1 <? 0 then Panic
                else match Releases plan !! Z.to_nat (i - 1) with
                     | Some info => Done info
                     | None => Panic
                     end) ;;
  let log := log +:+ cat ["? I am applying manifest for application version ";
                          Info_AppVersion info; ", db version "; Info_DbVersion info; LF] in
  match fetchManifest (Info_AppVersion info) with
  | Err err => ret (inl (log, Some err))
  | Ok (_, manifest) =>
      if i =? currentIx then
        let cmd := GetCommands manifest [Upgrade_Prepare manifest] in
        out <- runCommands cfg cmd manifest ;;
        let log := log +:+ out.1 in
        match out.2 with
        | Some err => ret (inl (log, Some err))
        | None => ret (inr log)
        end
      else
        altered <- upgradeAlter cfg manifest log ;;
        match altered.2 with
        | Some err => ret (inl (altered.1, Some err))
        | None => upgradeRecord cfg version info manifest targetIx i altered.1
        end
  end.

(** [for i := currentIx; i <= targetIx; i++ { ... }] with [n] releases
    left to visit, the next one at index [i]. *)
Fixpoint upgradeLoop (cfg : Config) (version : Version) (plan : Plan)
    (currentIx targetIx : Z) (n : nat) (i : Z) (log : string)
    : Action (string * option string) :=
  match n with
  | O => ret (log, None)
  | S n =>
      step <- upgradeRelease cfg version plan currentIx targetIx i log ;;
      match step with
      | inl result => ret result
      | inr log => upgradeLoop cfg version plan currentIx targetIx n (i + 1) log
      end
  end.

Definition nothingToDo (version : Version) : string :=
  cat ["? I have nothing to do: the current version (i.e. "; AppVersion version;
       ") matches the version deployed"; LF;
       "If you need to upgrade to a different version change the value of the ";
       "'AppVersion' configuration variable"; LF].

Definition cannotUpgrade (targetAppVer : string) (version : Version) : string :=
  cat ["!!! I cannot upgrade as target version "; targetAppVer;
       " is not past the current version "; AppVersion version].

(** [func (dm *DbMan) Upgrade() (log bytes.Buffer, err error, elapsed time.Duration)] *)
Definition Upgrade (cfg : Config) : Action (string * option string) :=
  let log := "" in
  let targetAppVer := Cfg_AppVersion cfg in
  got <- getVersion ;;
  match got with
  | (_, Some err) => ret (log, Some err)
  | (None, None) => ret (log, Some ("!!! the database does not exist" +:+ LF))
  | (Some version, None) =>
      match fetchPlan with
      | Err err => ret (log, Some err)
      | Ok plan =>
          if String.eqb targetAppVer (AppVersion version) then
            ret (log +:+ nothingToDo version, None)
          else
            let '(currentIx, targetIx) :=
              getUpgradeWindow plan (AppVersion version) targetAppVer in
            if targetIx <=? currentIx then
              ret (log, Some (cannotUpgrade targetAppVer version))
            else
              upgradeLoop cfg version plan currentIx targetIx
                (Z.to_nat (targetIx - currentIx + 1)) currentIx log
      end
  end.

(** ** Vocabulary for statements about the calls of an action *)

(** The reply of the provider to the opening [GetVersion] of an action,
    and the world that this call leaves. *)
Definition versionReplyIn (w : World) : string := (db_GetVersion (provider w)).1.

Definition afterGetVersion (w : World) : World :=
  {| provider := (db_GetVersion (provider w)).2;
     calls := calls w ++ [CallGetVersion (versionReplyIn w)] |}.

(** The reply carries an error. *)
Definition replyFailed (reply : string) : bool := HasError (NewParameterFromJSON reply).

Definition callFailed (call : Call) : bool :=
  match call with
  | CallGetVersion _ => false
  | CallRunCommand _ reply | CallSetVersion _ reply => replyFailed reply
  end.

Definition isRunCommand (call : Call) : bool :=
  match call with
  | CallRunCommand _ _ => true
  | _ => false
  end.

(** [calls] runs the whole [batch], in order, every reply free of error. *)
Definition ranAll (batch : list Command) (calls : list Call) : Prop :=
  Forall2 (λ c call, ∃ reply, call = CallRunCommand c reply ∧ replyFailed reply = false)
    batch calls.

(** A call whose reply carries an error is the last call. *)
Definition abortsOnFailure (calls : list Call) : Prop :=
  ∀ pre call post, calls = pre ++ call :: post → callFailed call = true → post = [].






(** What the calls of a batch look like, by the way [runCommands] ends:
    without an error the whole batch ran; otherwise the calls are command
    runs up to the one that stopped the batch. *)
Definition batchCalls (batch : res (list Command))
    (result : outcome (string * option string)) (new : list Call) : Prop :=
  match result with
  | Done (_, None) => ∃ commands, batch = Ok commands ∧ ranAll commands new
  | _ => Forall (λ call, isRunCommand call = true) new ∧ abortsOnFailure new
  end.





End Engine.

End Core.

(** * A small JSON codec

    An instance of the [JSON] parameters, used to run the engine and the
    envelope on concrete replies: objects are written with sorted keys as
    [encoding/json] does; strings escape the quote, the backslash and the
    line feed. *)

Module MiniJSON.
Import Plugin.

Definition DQ : ascii := Ascii.ascii_of_nat 34.
Definition BS : ascii := Ascii.ascii_of_nat 92.
Definition NL : ascii := Ascii.ascii_of_nat 10.

Fixpoint escape (s : string) : string :=
  match s with
  | EmptyString => EmptyString
  | String c s =>
      if Ascii.eqb c DQ then String BS (String DQ (escape s))
      else if Ascii.eqb c BS then String BS (String BS (escape s))
      else if Ascii.eqb c NL then String BS (String "n" (escape s))
      else String c (escape s)
  end.

Definition quote (s : string) : string := String DQ (escape s +:+ String DQ "").

Definition key_le (a b : string * string) : Prop := String.leb a.1 b.1 = true.

#[local] Instance key_le_dec a b : Decision (key_le a b).
Proof. unfold key_le. apply _. Defined.

Fixpoint print (v : jvalue) : string :=
  match v with
  | JNull => "null"
  | JBool b => if b then "true" else "false"
  | JNum literal => literal
  | JStr s => quote s
  | JArr items => cat ["["; String.concat "," (map print items); "]"]
  | JObj members =>
      cat ["{";
           String.concat ","
             (map (λ kv, cat [quote kv.1; ":"; kv.2])
                  (merge_sort key_le (map_to_list (print <$> members))));
           "}"]
  end.

Definition isSpace (c : ascii) : bool :=
  Ascii.eqb c " " || Ascii.eqb c NL ||
  Ascii.eqb c (Ascii.ascii_of_nat 9) || Ascii.eqb c (Ascii.ascii_of_nat 13).

Fixpoint skipSpace (cs : list ascii) : list ascii :=
  match cs with
  | c :: cs' => if isSpace c then skipSpace cs' else cs
  | [] => []
  end.

(** The characters of a string up to its closing quote. *)
Fixpoint scanString (cs : list ascii) : option (string * list ascii) :=
  match cs with
  | [] => None
  | c :: cs' =>
      if Ascii.eqb c DQ then Some ("", cs')
      else if Ascii.eqb c BS then
        match cs' with
        | e :: cs'' =>
            let c' := if Ascii.eqb e "n" then NL else e in
            match scanString cs'' with
            | Some (s, rest) => Some (String c' s, rest)
            | None => None
            end
        | [] => None
        end
      else
        match scanString cs' with
        | Some (s, rest) => Some (String c s, rest)
        | None => None
        end
  end.

Definition isNumberChar (c : ascii) : bool :=
  let n := Ascii.nat_of_ascii c in
  ((48 <=? n)%nat && (n <=? 57)%nat) ||
  Ascii.eqb c "-" || Ascii.eqb c "+" || Ascii.eqb c "." ||
  Ascii.eqb c "e" || Ascii.eqb c "E".

Fixpoint scanNumber (cs : list ascii) : string * list ascii :=
  match cs with
  | c :: cs' =>
      if isNumberChar c
      then let '(s, rest) := scanNumber cs' in (String c s, rest)
      else ("", cs)
  | [] => ("", [])
  end.

Fixpoint parseValue (fuel : nat) (cs : list ascii) : option (jvalue * list ascii) :=
  match fuel with
  | O => None
  | S fuel =>
      match skipSpace cs with
      | "n"%char :: "u"%char :: "l"%char :: "l"%char :: rest => Some (JNull, rest)
      | "t"%char :: "r"%char :: "u"%char :: "e"%char :: rest => Some (JBool true, rest)
      | "f"%char :: "a"%char :: "l"%char :: "s"%char :: "e"%char :: rest => Some (JBool false, rest)
      | c :: rest =>
          if Ascii.eqb c DQ then
            match scanString rest with
            | Some (s, rest) => Some (JStr s, rest)
            | None => None
            end
          else if Ascii.eqb c "[" then
            match skipSpace rest with
            | "]"%char :: rest => Some (JArr [], rest)
            | _ =>
                match parseItems fuel rest with
                | Some (items, rest) => Some (JArr items, rest)
                | None => None
                end
            end
          else if Ascii.eqb c "{" then
            match skipSpace rest with
            | "}"%char :: rest => Some (JObj ∅, rest)
            | _ =>
                match parseMembers fuel rest with
                | Some (members, rest) => Some (JObj members, rest)
                | None => None
                end
            end
          else if isNumberChar c then
            let '(literal, rest) := scanNumber (c :: rest) in Some (JNum literal, rest)
          else None
      | [] => None
      end
  end
with parseItems (fuel : nat) (cs : list ascii) : option (list jvalue * list ascii) :=
  match fuel with
  | O => None
  | S fuel =>
      match parseValue fuel cs with
      | Some (v, rest) =>
          match skipSpace rest with
          | ","%char :: rest =>
              match parseItems fuel rest with
              | Some (items, rest) => Some (v :: items, rest)
              | None => None
              end
          | "]"%char :: rest => Some ([v], rest)
          | _ => None
          end
      | None => None
      end
  end
with parseMembers (fuel : nat) (cs : list ascii)
    : option (gmap string jvalue * list ascii) :=
  match fuel with
  | O => None
  | S fuel =>
      match skipSpace cs with
      | c :: rest =>
          if Ascii.eqb c DQ then
            match scanString rest with
            | Some (key, rest) =>
                match skipSpace rest with
                | ":"%char :: rest =>
                    match parseValue fuel rest with
                    | Some (v, rest) =>
                        match skipSpace rest with
                        | ","%char :: rest =>
                            match parseMembers fuel rest with
                            | Some (members, rest) =>
                                Some (<[key := v]> members, rest)
                            | None => None
                            end
                        | "}"%char :: rest => Some ({[key := v]}, rest)
                        | _ => None
                        end
                    | None => None
                    end
                | _ => None
                end
            | None => None
            end
          else None
      | [] => None
      end
  end.

Definition marshal (m : gmap string jvalue) : string := print (JObj m).

(** On an error the freshly made map is left as it was. *)
Definition unmarshal (text : string) : option (gmap string jvalue) * option string :=
  match parseValue (S (String.length text)) (String.list_ascii_of_string text) with
  | Some (JObj m, rest) =>
      match skipSpace rest with
      | [] => (Some m, None)
      | _ => (Some ∅, Some "invalid character after top-level value")
      end
  | Some (JNull, _) => (None, None)
  | Some (_, _) => (Some ∅, Some "json: cannot unmarshal value into Go value of type map")
  | None => (Some ∅, Some "unexpected end of JSON input")
  end.

#[local] Instance codec : JSON :=
  {| json_Marshal := marshal; json_Unmarshal := unmarshal |}.

End MiniJSON.

(** * Reference definitions for the statements *)

Module Expected.
Import Diff.

(** The warnings that a diff result calls for, in the order of the
    generator's phases: enums with removed values, then per altered table
    its dropped columns and its altered columns, then dropped tables. *)
Definition enumWarning (enumDiff : EnumDiff) : list string :=
  if nonempty (RemovedValues enumDiff)
  then [cat ["Cannot automatically remove enum values from "; EnumDiff_Name enumDiff;
             ". Manual intervention required."]]
  else [].

Definition droppedColumnWarning (tableDiff : TableDiff) (col : Column) : string :=
  cat ["Dropping column "; TableDiff_TableName tableDiff; "."; Column_Name col;
       " will result in data loss"].

Definition alteredColumnWarnings (tableDiff : TableDiff) (colDiff : ColumnDiff) : list string :=
  (if TypeChanged colDiff
   then [cat ["Type change on "; TableDiff_TableName tableDiff; "."; ColumnDiff_Name colDiff;
              " may cause data loss or conversion errors"]]
   else []) ++
  (if NullableChanged colDiff && negb (Column_IsNullable (NewColumn colDiff))
   then [cat ["Setting NOT NULL on "; TableDiff_TableName tableDiff; "."; ColumnDiff_Name colDiff;
              " may fail if existing NULL values exist"]]
   else []).

Definition alteredTableWarnings (tableDiff : TableDiff) : list string :=
  map (droppedColumnWarning tableDiff) (DroppedColumns tableDiff) ++
  flat_map (alteredColumnWarnings tableDiff) (AlteredColumns tableDiff).

Definition droppedTableWarning (table : Table) : string :=
  cat ["Dropping table "; Table_Name table; " will result in complete data loss"].

Definition warningsFor (diff : DiffResult) : list string :=
  flat_map enumWarning (AlteredEnums diff) ++
  flat_map alteredTableWarnings (AlteredTables diff) ++
  map droppedTableWarning (DroppedTables diff).

(** The occurrences that make a script breaking: removed enum values, a
    dropped column, a dropped table. *)
Definition breakingFor (diff : DiffResult) : bool :=
  existsb (λ enumDiff, nonempty (RemovedValues enumDiff)) (AlteredEnums diff) ||
  existsb (λ tableDiff, nonempty (DroppedColumns tableDiff)) (AlteredTables diff) ||
  nonempty (DroppedTables diff).

(** What the generator has recorded so far in [script.Warnings] and
    [script.HasBreaking]. *)
Definition raised (o : Out) : list string * bool := (warnings o, hasBreaking o).

Definition raise (r : list string * bool) (w : list string) (b : bool) : list string * bool :=
  (r.1 ++ w, r.2 || b).

(** Writers that only add text. *)
Definition textOnly (write : string → Out → Out) : Prop :=
  ∀ text o, raised (write text o) = raised o.

End Expected.

(** * Sample inputs *)

Module Samples.
Import Diff.

Definition column (name dataType : string) (nullable : bool) (position : Z) : Column :=
  {| Column_Name := name; Column_DataType := dataType; Column_IsNullable := nullable;
     Column_DefaultValue := None; Column_CharMaxLength := None;
     Column_NumericPrecision := None; Column_NumericScale := None;
     Column_OrdinalPosition := position; Column_Comment := None |}.

Definition emptySchema : DatabaseSchema :=
  {| Tables := ∅; Sequences := ∅; Enums := ∅; Functions := ∅;
     Indexes := ∅; Constraints := ∅; Views := ∅; Triggers := ∅ |}.

Definition withEnum (e : Enum) : DatabaseSchema :=
  {| Tables := ∅; Sequences := ∅;
     Enums := {[ cat [Enum_Schema e; "."; Enum_Name e] := e ]};
     Functions := ∅; Indexes := ∅; Constraints := ∅; Views := ∅; Triggers := ∅ |}.

(** [color{red,green}] against [color{red,green,blue}] *)
Definition colorSource : DatabaseSchema :=
  withEnum {| Enum_Name := "color"; Enum_Schema := "s"; Enum_Values := ["red"; "green"] |}.

Definition colorTarget : DatabaseSchema :=
  withEnum {| Enum_Name := "color"; Enum_Schema := "s";
              Enum_Values := ["red"; "green"; "blue"] |}.

(** A diff whose only entry is column [t.c] changing type from [int] to
    [bigint]. *)
Definition typeChange : DiffResult :=
  {| CreatedTables := []; DroppedTables := [];
     AlteredTables :=
       [ {| TableDiff_TableName := "t"; AddedColumns := []; DroppedColumns := [];
            AlteredColumns :=
              [ {| ColumnDiff_Name := "c";
                   OldColumn := column "c" "int" true 1;
                   NewColumn := column "c" "bigint" true 1;
                   TypeChanged := true; NullableChanged := false;
                   DefaultChanged := false |} ] |} ];
     CreatedIndexes := []; DroppedIndexes := [];
     CreatedConstraints := []; DroppedConstraints := [];
     CreatedSequences := []; DroppedSequences := [];
     CreatedEnums := []; DroppedEnums := []; AlteredEnums := [];
     CreatedFunctions := []; DroppedFunctions := []; AlteredFunctions := [];
     CreatedViews := []; DroppedViews := []; AlteredViews := [];
     CreatedTriggers := []; DroppedTriggers := [] |}.

(** A diff whose only entry is column [t.c] becoming [NOT NULL]. *)
Definition setNotNull : DiffResult :=
  {| CreatedTables := []; DroppedTables := [];
     AlteredTables :=
       [ {| TableDiff_TableName := "t"; AddedColumns := []; DroppedColumns := [];
            AlteredColumns :=
              [ {| ColumnDiff_Name := "c";
                   OldColumn := column "c" "int" true 1;
                   NewColumn := column "c" "int" false 1;
                   TypeChanged := false; NullableChanged := true;
                   DefaultChanged := false |} ] |} ];
     CreatedIndexes := []; DroppedIndexes := [];
     CreatedConstraints := []; DroppedConstraints := [];
     CreatedSequences := []; DroppedSequences := [];
     CreatedEnums := []; DroppedEnums := []; AlteredEnums := [];
     CreatedFunctions := []; DroppedFunctions := []; AlteredFunctions := [];
     CreatedViews := []; DroppedViews := []; AlteredViews := [];
     CreatedTriggers := []; DroppedTriggers := [] |}.

End Samples.

(** A scripted provider and a three-release plan to run the actions on. *)

Module SampleEngine.
Import Plugin Core.

(** The provider answers [GetVersion] with [versionReply], each
    [RunCommand] with the next of [commandReplies] (an empty log once they
    are used up) and [SetVersion] with [setVersionReply], keeping the rows
    it was sent. *)
Record ScriptedDb := {
  versionReply : string;
  commandReplies : list string;
  setVersionReply : string;
  written : list string
}.

Definition doneReply : string :=
  MiniJSON.marshal {[ "log" := JStr "" ]}.

Definition errorReply (message : string) : string :=
  MiniJSON.marshal (<[ "error" := JStr message ]> {[ "log" := JStr "" ]}).

Definition versionObject (appVersion dbVersion : string) : jvalue :=
  JObj (<[ "appVersion" := JStr appVersion ]>
        (<[ "dbVersion" := JStr dbVersion ]>
         (<[ "description" := JStr "Created database" ]>
          (<[ "source" := JStr "repo/path" ]>
           {[ "time" := JStr "2020-01-01T00:00:00.000Z" ]})))).

(** An error-free reply that holds a version under [result]. *)
Definition foundReply (appVersion dbVersion : string) : string :=
  MiniJSON.marshal (<[ "result" := versionObject appVersion dbVersion ]>
                    {[ "log" := JStr "" ]}).

#[local] Instance scriptedProvider : DatabaseProvider ScriptedDb :=
  {| db_GetVersion := λ p, (versionReply p, p);
     db_RunCommand := λ _ p,
       match commandReplies p with
       | reply :: replies =>
           (reply, {| versionReply := versionReply p; commandReplies := replies;
                      setVersionReply := setVersionReply p; written := written p |})
       | [] => (doneReply, p)
       end;
     db_SetVersion := λ row p,
       (setVersionReply p,
        {| versionReply := versionReply p; commandReplies := commandReplies p;
           setVersionReply := setVersionReply p; written := written p ++ [row] |}) |}.

Definition release (appVersion : string) : Info :=
  {| Info_AppVersion := appVersion;
     Info_DbVersion := "db-" +:+ appVersion;
     Path := appVersion |}.

Definition manifestOf (appVersion : string) : Manifest :=
  {| Manifest_DbVersion := "db-" +:+ appVersion;
     CommandsPath := "commands";
     QueriesPath := "queries";
     Create_Commands := ["create-db"];
     Deploy_Commands := ["schema"; "objects"];
     Upgrade_Prepare := "drop-objects";
     Upgrade_Alter := "alter-schema";
     Upgrade_Deploy := "objects" |}.

Definition plan : Plan := {| Releases := [release "v1"; release "v2"; release "v3"] |}.

Definition commandNamed (name : string) : Command :=
  {| Command_Name := name; Command_Description := ""; Transactional := true;
     AsAdmin := false; UseDb := true; Scripts := [] |}.

(** One-based position of a release in the plan, [0] when it is absent. *)
Fixpoint indexOf (releases : list Info) (appVersion : string) : Z :=
  match releases with
  | [] => 0
  | info :: releases =>
      if String.eqb (Info_AppVersion info) appVersion then 1
      else match indexOf releases appVersion with
           | 0 => 0
           | ix => ix + 1
           end
  end.

#[local] Instance scripts : Scripts_ :=
  {| fetchPlan := Ok plan;
     fetchManifest := λ appVersion,
       if bool_decide (appVersion ∈ ["v1"; "v2"; "v3"])
       then Ok (release appVersion, manifestOf appVersion)
       else Err ("no release " +:+ appVersion);
     fetchCommandContent := λ _ _ c,
       Ok {| Command_Name := Command_Name c; Command_Description := Command_Description c;
             Transactional := Transactional c; AsAdmin := AsAdmin c; UseDb := UseDb c;
             Scripts := [ {| Script_Name := Command_Name c +:+ ".sql";
                             Script_Content := "select 1;" |} ] |};
     GetCommands := λ _ names, map commandNamed names;
     getUpgradeWindow := λ plan current target,
       (indexOf (Releases plan) current, indexOf (Releases plan) target);
     Command_ToString := λ c, MiniJSON.marshal {[ "name" := JStr (Command_Name c) ]};
     Version_ToString := λ v,
       MiniJSON.marshal (<[ "appVersion" := JStr (AppVersion v) ]>
                         {[ "dbVersion" := JStr (DbVersion v) ]}) |}.

Definition config (appVersion : string) : Config :=
  {| Cfg_AppVersion := appVersion; Cfg_DbName := "db"; Cfg_RepoURI := "repo" |}.

(** A world whose provider answers [GetVersion] with [reply]. *)
Definition world (reply : string) (commandReplies : list string) : World :=
  {| provider := {| versionReply := reply; commandReplies := commandReplies;
                    setVersionReply := doneReply; written := [] |};
     calls := [] |}.

(** An envelope with one string entry and a line in its log buffer. *)
Definition logged : Param :=
  {| value := Some {[ "result" := JStr "ok" ]}; log := "created table" +:+ LF |}.

(** The version that [foundReply "v2" "db-v2"] holds. *)
Definition deployedV2 : Version :=
  {| AppVersion := "v2"; DbVersion := "db-v2"; Description := "Created database";
     Source := "repo/path"; Time := "2020-01-01T00:00:00.000Z" |}.

End SampleEngine.

(** * Further vocabulary for statements about the comparator *)

Module Keyed.
Import Diff.

(** [x] is stored in [there] under a key that [here] does not have. *)
Definition onlyIn {A : Type} (here there : gmap string A) (x : A) : Prop :=
  ∃ key, there !! key = Some x ∧ here !! key = None.

(** A table difference that reports something, with every column
    difference in it having a flag set. *)
Definition tableDiffReports (tableDiff : TableDiff) : Prop :=
  nonempty (AddedColumns tableDiff) || nonempty (DroppedColumns tableDiff)
    || nonempty (AlteredColumns tableDiff) = true ∧
  Forall (λ colDiff, TypeChanged colDiff || NullableChanged colDiff
                       || DefaultChanged colDiff = true)
         (AlteredColumns tableDiff).

(** Two schemas that differ only in what is stored under the keys of
    their indexes, constraints, sequences and triggers. *)
Definition sameKeys (A B : DatabaseSchema) : Prop :=
  dom (Indexes A) = dom (Indexes B) ∧
  dom (Constraints A) = dom (Constraints B) ∧
  dom (Sequences A) = dom (Sequences B) ∧
  dom (Triggers A) = dom (Triggers B).

End Keyed.

(** * Sample schemas that differ in the definition of an index *)

Module SampleIndexes.
Import Diff.

Definition indexOn (definition : string) : Index :=
  {| Index_Name := "ix"; Index_TableName := "t"; Index_Schema := "s";
     Index_Columns := ["c"]; Index_IsUnique := false; Index_IsPrimary := false;
     Index_Definition := definition |}.

Definition withIndex (idx : Index) : DatabaseSchema :=
  {| Tables := ∅; Sequences := ∅; Enums := ∅; Functions := ∅;
     Indexes := {[ "s.ix" := idx ]};
     Constraints := ∅; Views := ∅; Triggers := ∅ |}.

Definition btree : DatabaseSchema :=
  withIndex (indexOn "CREATE INDEX ix ON s.t USING btree (c)").

Definition hash : DatabaseSchema :=
  withIndex (indexOn "CREATE INDEX ix ON s.t USING hash (c)").

End SampleIndexes.

(** * The differ (differ.go) and vocabulary for the generator's text *)

Module Pipeline.
Import Diff.

(** [func (d *Differ) Diff(description string)]: the two schema readers
    work on live connections and are given by what [ReadSchema] returns;
    [generatedAt] is the time that [Generate] reads. *)
Definition Diff (readSource readTarget : res DatabaseSchema)
    (schema description generatedAt : string) : res GeneratedScript :=
  match readSource with
  | Err err => Err (cat ["reading source schema: "; err])
  | Ok sourceSchema =>
      match readTarget with
      | Err err => Err (cat ["reading target schema: "; err])
      | Ok targetSchema =>
          let diffResult := Compare sourceSchema targetSchema in
          let generator := NewGenerator schema in
          Ok (Generate generator diffResult description generatedAt)
      end
  end.

(** Builders and script fields before anything is written. *)
Definition emptyOut : Out :=
  {| up := ""; down := ""; warnings := []; hasBreaking := false |}.

(** The text that a phase writes to the up and to the down script. *)
Definition upOf (phase : Out → Out) : string := up (phase emptyOut).
Definition downOf (phase : Out → Out) : string := down (phase emptyOut).

(** The three header lines of a script. *)
Definition header (description generatedAt direction : string) : string :=
  (cat ["-- Migration: "; description; LF] +:+ cat ["-- Generated: "; generatedAt; LF])
  +:+ cat ["-- "; direction; " Migration"; LF; LF].

(** A phase that only adds text at the end of the two scripts, the same
    text whatever was written before. *)
Definition appends (phase : Out → Out) : Prop :=
  ∃ u d, ∀ o, up (phase o) = up o +:+ u ∧ down (phase o) = down o +:+ d.

End Pipeline.

(** * The RPC client of a provider (dbProviderRpc.go) *)

Module Rpc.
Import Plugin.

(** [func (r *Parameter) SetErrorFromMessage(message string)] *)
Definition SetErrorFromMessage (r : Param) (message : string) : outcome Param :=
  Set_ r "error" (JStr message).

(** [func (r *Parameter) SetError(err error)]; an [error] is given by the
    text of [err.Error()]. *)
Definition SetError (r : Param) (err : string) : outcome Param :=
  Set_ r "error" (JStr err).

(** [net/rpc] is not part of the repository: [db.Client.Call(method, args,
    &result)] is a parameter, on a connection of type [T]. *)
Class Transport (T : Type) := {
  Client_Call : string → string → T → res string * T
}.

Section Client.
Context `{JSON} {T : Type} `{Transport T}.

(** [func (r *Parameter) ToError(err error) string] *)
Definition ToError (r : Param) (err : string) : outcome (string * Param) :=
  match SetError r err with
  | Panic => Panic
  | Done r =>
      match value r with
      | None => Panic
      | Some m =>
          let m := <["log" := JStr (log r)]> m in
          Done (json_Marshal m, {| value := Some m; log := log r |})
      end
  end.

(** [func (db *DatabaseProviderRPC) errorToString(err error) string] *)
Definition errorToString (err : string) : outcome string :=
  let output := NewParameter in
  match SetError output err with
  | Panic => Panic
  | Done output =>
      match ToString output with
      | Panic => Panic
      | Done (text, _) => Done text
      end
  end.

(** The body shared by the six methods of the client: the remote call,
    and the error of the transport turned into an envelope. *)
Definition call (method args : string) (t : T) : outcome string * T :=
  match Client_Call method args t with
  | (Err err, t) => (errorToString err, t)
  | (Ok result, t) => (Done result, t)
  end.

Definition Setup (config : string) : T → outcome string * T := call "Plugin.Setup" config.
Definition GetVersion : T → outcome string * T := call "Plugin.GetVersion" "".
Definition RunCommand (cmd : string) : T → outcome string * T := call "Plugin.RunCommand" cmd.
Definition SetVersion (args : string) : T → outcome string * T := call "Plugin.SetVersion" args.
Definition RunQuery (query : string) : T → outcome string * T := call "Plugin.RunQuery" query.
Definition GetInfo : T → outcome string * T := call "Plugin.GetInfo" "".

End Client.

End Rpc.

(** * A provider behind a connection that is shut down *)

Module SampleRpc.
Import Plugin Rpc.

(** Every remote call fails with the error of [net/rpc] for a closed
    connection. *)
#[local] Instance shutDown : Transport unit :=
  {| Client_Call := λ _ _ t, (Err "connection is shut down", t) |}.

End SampleRpc.

(** * Package core: the connection checks (dbman.go) *)

Module Connection.
Import Plugin Core.

Section Engine.
Context `{JSON} `{Scripts_} {P : Type} `{DatabaseProvider P}.

(** The dummy command with no scripts that tests the connection. *)
Definition testConnCmd : Command :=
  {| Command_Name := "test connection"; Command_Description := "";
     Transactional := false; AsAdmin := true; UseDb := false; Scripts := [] |}.

(** [func (dm *DbMan) CheckConfigSet() map[string]string]; what it prints
    is left out. *)
Definition CheckConfigSet : Action (gmap string string) :=
  let results : gmap string string := ∅ in
  let results :=
    match fetchPlan with
    | Err err => <["scripts uri" := err]> results
    | Ok _ => <["scripts uri" := "OK"]> results
    end in
  bind (callRunCommand testConnCmd) (λ r,
    let result := NewParameterFromJSON r in
    if HasError result then
      bind (lift (Error result)) (λ err,
        ret (<["db connection" := cat ["FAILED: "; default "<nil>" err]]> results))
    else
      ret (<["db connection" := "OK"]> results)).

(** [result.Error().Error()]: the method call on a nil error panics. *)
Definition errorText (result : Param) : outcome string :=
  match Error result with
  | Done (Some err) => Done err
  | Done None | Panic => Panic
  end.

(** The loop of [WaitForConnection] with [attempts] rounds left; it
    yields [connected] and [errorMsg].  Logging and [time.Sleep] between
    the rounds are left out. *)
Fixpoint waitLoop (attempts : nat) (errorMsg : string) : Action (bool * string) :=
  match attempts with
  | O => ret (false, errorMsg)
  | S attempts =>
      bind (callRunCommand testConnCmd) (λ r,
        let result := NewParameterFromJSON r in
        if HasError result then
          bind (lift (errorText result)) (λ errorMsg, waitLoop attempts errorMsg)
        else
          ret (true, errorMsg))
  end.

(** [func (dm *DbMan) WaitForConnection(attempts, interval int) error] *)
Definition WaitForConnection (attempts interval : Z) : Action (option string) :=
  bind (waitLoop (Z.to_nat attempts) "") (λ out,
    if negb out.1 then
      ret (Some (cat ["failed to connect to database after "; pretty attempts;
                      " attempts: "; out.2; LF]))
    else ret None).

(** ** Vocabulary for statements about batches and history rows *)

(** How a batch ends on the [reply] to one of its commands: with the
    error that the reply carries, or by a panic when the error or the log
    of the reply is not a string. *)
Definition stopsBatch (reply : string) (result : outcome (string * option string)) : Prop :=
  let r := NewParameterFromJSON reply in
  if HasError r then
    match result with
    | Done (_, err) => Error r = Done err ∧ is_Some err
    | Panic => Error r = Panic
    end
  else GetLog r = Panic ∧ result = Panic.

(** The calls [new] of a batch of [commands] that ends with [result]:
    the whole batch in order and no error, or the commands in order up to
    the one whose reply ends the batch. *)
Definition ranInOrder (commands : list Command)
    (result : outcome (string * option string)) (new : list Call) : Prop :=
  (ranAll commands new ∧ ∃ log, result = Done (log, None)) ∨
  (∃ ran c rest runs reply,
     commands = ran ++ c :: rest ∧ new = runs ++ [CallRunCommand c reply] ∧
     ranAll ran runs ∧ stopsBatch reply result).

(** A round of the connection test, with the reply it got. *)
Definition attempt (reply : string) : Call := CallRunCommand testConnCmd reply.

(** The error text [msg] that the last of the [replies] carries, and
    [initial] when there is no reply. *)
Definition lastErrorText (initial : string) (replies : list string) (msg : string) : Prop :=
  match last replies with
  | None => msg = initial
  | Some reply => Error (NewParameterFromJSON reply) = Done (Some msg)
  end.

(** The history rows among the calls. *)
Definition rowsOf (calls : list Call) : list Version :=
  omap (λ call, match call with
                | CallSetVersion input _ => Some input
                | _ => None
                end) calls.

(** The history row that [Deploy] writes for the release [info]. *)
Definition deployRow (cfg : Config) (info : Info) (manifest : Manifest) : Version :=
  {| AppVersion := Cfg_AppVersion cfg;
     DbVersion := Manifest_DbVersion manifest;
     Description := cat ["Created database version "; Manifest_DbVersion manifest];
     Source := cat [Cfg_RepoURI cfg; "/"; Path info];
     Time := "" |}.

(** The history row that [Upgrade] to the release at plan index
    [targetIx] writes for the release at plan index [i]. *)
Definition upgradeRow (cfg : Config) (version : Version) (plan : Plan)
    (targetIx i : Z) : option Version :=
  if i - 1 <? 0 then None else
  match Releases plan !! Z.to_nat (i - 1) with
  | None => None
  | Some info =>
      match fetchManifest (Info_AppVersion info) with
      | Err _ => None
      | Ok (_, manifest) =>
          Some {| AppVersion := if i =? targetIx then Cfg_AppVersion cfg
                                else Info_AppVersion info;
                  DbVersion := Manifest_DbVersion manifest;
                  Description :=
                    if i =? targetIx
                    then cat ["Upgraded database from version "; DbVersion version;
                              " to "; Manifest_DbVersion manifest]
                    else cat ["Updated database schema only to version ";
                              Manifest_DbVersion manifest];
                  Source := cat [Cfg_RepoURI cfg; "/"; Path info];
                  Time := "" |}
      end
  end.

End Engine.

End Connection.

(** * More sample replies for the engine *)

Module SampleReplies.
Import Plugin Core SampleEngine.

(** The version that [foundReply "v1" "db-v1"] holds. *)
Definition deployedV1 : Version :=
  {| AppVersion := "v1"; DbVersion := "db-v1"; Description := "Created database";
     Source := "repo/path"; Time := "2020-01-01T00:00:00.000Z" |}.

(** The reply of a provider that finds no version table. *)
Definition noDatabase : string := errorReply "the database does not exist".

End SampleReplies.

(** * Package core: the readiness check (dbman.go) *)

Module Readiness.
Import Plugin Core Connection.

(** [strings.Contains] *)
Fixpoint Contains (s substr : string) : bool :=
  String.prefix substr s
  || match s with
     | "" => false
     | String _ rest => Contains rest substr
     end.

Section Engine.
Context `{JSON} `{Scripts_} {P : Type} `{DatabaseProvider P}.

(** [strings.ToLower] follows the Unicode tables, which are not part of
    the repository: it is a parameter. *)
Variable ToLower : string → string.

(** The loop of [CheckReady] over the entries that are left: the error of
    the first result without [ok] in it. *)
Fixpoint firstFailed (entries : list (string * string)) : option string :=
  match entries with
  | [] => None
  | (check, result) :: entries =>
      if negb (Contains (ToLower result) "ok")
      then Some (cat [check; ": "; result])
      else firstFailed entries
  end.

(** [func (dm *DbMan) CheckReady() (bool, error)]; the first component is
    the value that the call leaves in [dm.ready]. *)
Definition CheckReady : Action (bool * (bool * option string)) :=
  bind CheckConfigSet (λ results,
    match firstFailed (map_to_list results) with
    | Some err => ret (false, (false, Some err))
    | None => ret (true, (true, None))
    end).

End Engine.

End Readiness.

(** * Package core: queries (dbman.go) *)

Module Queries.
Import Plugin Core.

(** Modelled from the spec: a [Var] of a query declares an input binding
    key, [FromInput] in the source. *)
Record Var := {
  FromInput : string
}.

(** Modelled from the spec: [Query{name, description, vars[]}]. *)
Record Query := {
  Query_Name : string;
  Query_Description : string;
  Vars : list Var
}.

(** The methods of [Manifest], [ScriptManager] and [Query] that [Query]
    calls and whose bodies are not among the sources, as parameters, and
    the decoding of a result object into the [Table] of the provider
    package, which [GetTable] does with [encoding/json]. *)
Class Queries_ (Table : Type) := {
  GetQuery : Manifest → string → option Query;
  fetchQueryContent : string → string → Query → gmap string string → res Query;
  Query_ToString : Query → string;
  decodeTable : gmap string jvalue → Table
}.

(** The [RunQuery] method of the provider interface. *)
Class QueryProvider (P : Type) := {
  db_RunQuery : string → P → string * P
}.

Section Engine.
Context `{JSON} `{Scripts_} {Table : Type} `{Queries_ Table} {P : Type} `{QueryProvider P}.








End Engine.

End Queries.

(** * Package diff: properties *)

Lemma foldl_append_omap {A B : Type} (f : A → option B) (l : list A) (acc : list B) :
  foldl (λ acc a, match f a with Some b => acc ++ [b] | None => acc end) acc l
  = acc ++ omap f l.
Proof.
  revert acc. induction l as [|a l IH]; intros acc; simpl.
  - by rewrite app_nil_r.
  - rewrite IH. destruct (f a); simpl; [|done]. by rewrite <- app_assoc.
Qed.

Lemma omap_none {A B : Type} (f : A → option B) (l : list A) :
  (∀ a, a ∈ l → f a = None) → omap f l = [].
Proof.
  induction l as [|a l IH]; intros Hf; simpl; [done|].
  rewrite (Hf a) by apply list_elem_of_here.
  apply IH. intros a' Ha'. apply Hf. by apply list_elem_of_further.
Qed.

Lemma Forall_omap {A B : Type} (Q : B → Prop) (f : A → option B) (l : list A) :
  (∀ a b, f a = Some b → Q b) → Forall Q (omap f l).
Proof.
  intros Hf. induction l as [|a l IH]; simpl; [constructor|].
  destruct (f a) as [b|] eqn:E; simpl; [|done].
  constructor; [by eapply Hf | done].
Qed.

Section RangeLoops.
Context {A B : Type}.

Lemma range_append_omap (m : gmap string A) (body : string → A → option B) acc :
  range_append m body acc = acc ++ omap (λ kv, body kv.1 kv.2) (map_to_list m).
Proof. unfold range_append. apply (foldl_append_omap (λ kv, body kv.1 kv.2)). Qed.

Lemma slice_append_omap (l : list A) (body : A → option B) acc :
  slice_append l body acc = acc ++ omap body l.
Proof. apply foldl_append_omap. Qed.

(** A loop over the entries of [m] whose body appends nothing on any entry
    of [m] leaves the slice alone. *)
Lemma range_append_none (m : gmap string A) (body : string → A → option B) acc :
  (∀ k a, m !! k = Some a → body k a = None) → range_append m body acc = acc.
Proof.
  intros Hb. rewrite range_append_omap, omap_none; [by rewrite app_nil_r|].
  intros [k a] Hin. apply Hb. by apply elem_of_map_to_list.
Qed.

End RangeLoops.

Section Comparator.
Import Diff.

Lemma missingFrom_self {A : Type} (m : gmap string A) acc : missingFrom m m acc = acc.
Proof.
  unfold missingFrom. apply range_append_none. intros k a Hk. by rewrite Hk.
Qed.

Lemma compareNullableStrings_refl a : compareNullableStrings a a = true.
Proof. destruct a; simpl; [apply String.eqb_refl | done]. Qed.

Lemma compareColumns_self c : compareColumns c c = None.
Proof.
  unfold compareColumns.
  by rewrite String.eqb_refl, Bool.eqb_reflx, compareNullableStrings_refl.
Qed.

Lemma compareTableStructure_self t : compareTableStructure t t = None.
Proof.
  unfold compareTableStructure.
  by rewrite !range_append_none
    by (intros k c Hk; rewrite Hk; first [done | apply compareColumns_self]).
Qed.

Lemma compareEnumValues_self e : compareEnumValues e e = None.
Proof.
  unfold compareEnumValues.
  rewrite !slice_append_omap.
  by rewrite !omap_none
    by (intros val Hval; rewrite bool_decide_eq_true_2;
        [done | by apply elem_of_list_to_set]).
Qed.

Ltac same_entries :=
  intros ? ? Hk; rewrite Hk;
  first [ done
        | by rewrite String.eqb_refl
        | apply compareEnumValues_self
        | apply compareTableStructure_self ].

Lemma compareTables_self S r : compareTables S S r = r.
Proof.
  unfold compareTables. rewrite !missingFrom_self.
  rewrite range_append_none by same_entries. by destruct r.
Qed.

Lemma compareIndexes_self S r : compareIndexes S S r = r.
Proof.
  unfold compareIndexes. rewrite !range_append_none by same_entries. by destruct r.
Qed.

Lemma compareConstraints_self S r : compareConstraints S S r = r.
Proof. unfold compareConstraints. rewrite !missingFrom_self. by destruct r. Qed.

Lemma compareSequences_self S r : compareSequences S S r = r.
Proof. unfold compareSequences. rewrite !missingFrom_self. by destruct r. Qed.

Lemma compareEnums_self S r : compareEnums S S r = r.
Proof.
  unfold compareEnums. rewrite !missingFrom_self.
  rewrite range_append_none by same_entries. by destruct r.
Qed.

Lemma compareFunctions_self S r : compareFunctions S S r = r.
Proof.
  unfold compareFunctions. rewrite !missingFrom_self.
  rewrite range_append_none by same_entries. by destruct r.
Qed.

Lemma compareViews_self S r : compareViews S S r = r.
Proof.
  unfold compareViews. rewrite !missingFrom_self.
  rewrite range_append_none by same_entries. by destruct r.
Qed.

Lemma compareTriggers_self S r : compareTriggers S S r = r.
Proof. unfold compareTriggers. rewrite !missingFrom_self. by destruct r. Qed.

(** C7: comparing a snapshot against itself yields the empty diff result,
    every created, dropped and altered bucket being the empty slice, and
    [HasChanges] is false on it. *)
Theorem Compare_self_no_changes (S : DatabaseSchema) :
  Compare S S = emptyDiffResult ∧ HasChanges (Compare S S) = false.
Proof.
  assert (Compare S S = emptyDiffResult) as ->; [|done].
  unfold Compare; cbv zeta.
  by rewrite compareTables_self, compareIndexes_self, compareConstraints_self,
    compareSequences_self, compareEnums_self, compareFunctions_self,
    compareViews_self, compareTriggers_self.
Qed.

Lemma CreatedIndexes_Compare A B :
  CreatedIndexes (Compare A B) =
  range_append (Indexes B)
    (λ key targetIndex,
       match Indexes A !! key with
       | None => if negb (Index_IsPrimary targetIndex) then Some targetIndex else None
       | Some _ => None
       end) [].
Proof. reflexivity. Qed.

Lemma DroppedIndexes_Compare A B :
  DroppedIndexes (Compare A B) =
  range_append (Indexes A)
    (λ key sourceIndex,
       match Indexes B !! key with
       | None => if negb (Index_IsPrimary sourceIndex) then Some sourceIndex else None
       | Some _ => None
       end) [].
Proof. reflexivity. Qed.

(** C8: whatever the two snapshots, every index in [CreatedIndexes] and
    every index in [DroppedIndexes] has [IsPrimary] unset. *)
Theorem Compare_no_primary_indexes (A B : DatabaseSchema) :
  Forall (λ index, Index_IsPrimary index = false) (CreatedIndexes (Compare A B)) ∧
  Forall (λ index, Index_IsPrimary index = false) (DroppedIndexes (Compare A B)).
Proof.
  rewrite CreatedIndexes_Compare, DroppedIndexes_Compare, !range_append_omap; simpl.
  split; apply Forall_omap; intros [k ix] ix'; simpl.
  - destruct (Indexes A !! k); [done|].
    destruct (Index_IsPrimary ix) eqn:E; simpl; [done|]. by intros [= <-].
  - destruct (Indexes B !! k); [done|].
    destruct (Index_IsPrimary ix) eqn:E; simpl; [done|]. by intros [= <-].
Qed.

Lemma nonempty_false {A : Type} (l : list A) : nonempty l = false ↔ l = [].
Proof. by destruct l. Qed.

(** [HasChanges] is false exactly when the nineteen buckets that it lists
    are empty; [AlteredEnums] is not among them. *)
Lemma HasChanges_false (d : DiffResult) :
  HasChanges d = false ↔
  CreatedTables d = [] ∧ DroppedTables d = [] ∧ AlteredTables d = [] ∧
  CreatedIndexes d = [] ∧ DroppedIndexes d = [] ∧
  CreatedConstraints d = [] ∧ DroppedConstraints d = [] ∧
  CreatedViews d = [] ∧ DroppedViews d = [] ∧ AlteredViews d = [] ∧
  CreatedFunctions d = [] ∧ DroppedFunctions d = [] ∧ AlteredFunctions d = [] ∧
  CreatedTriggers d = [] ∧ DroppedTriggers d = [] ∧
  CreatedEnums d = [] ∧ DroppedEnums d = [] ∧
  CreatedSequences d = [] ∧ DroppedSequences d = [].
Proof.
  unfold HasChanges. rewrite !orb_false_iff, !nonempty_false. tauto.
Qed.

(** C1: [HasChanges] leaves [AlteredEnums] out.  Comparing [color{red,green}]
    with [color{red,green,blue}] yields one altered enum, which the
    generator turns into an [ALTER TYPE] statement, while [HasChanges]
    answers false. *)
Theorem HasChanges_misses_AlteredEnums :
  AlteredEnums (Compare Samples.colorSource Samples.colorTarget)
    = [ {| EnumDiff_Name := "color"; AddedValues := ["blue"]; RemovedValues := [] |} ] ∧
  HasChanges (Compare Samples.colorSource Samples.colorTarget) = false.
Proof. split; vm_compute; reflexivity. Qed.

End Comparator.

Section GeneratorProps.
Import Diff Expected.

Lemma raise_nothing r : raise r [] false = r.
Proof. destruct r as [ws b]. unfold raise; simpl. by rewrite app_nil_r, orb_false_r. Qed.

Lemma raise_raise r w1 b1 w2 b2 : raise (raise r w1 b1) w2 b2 = raise r (w1 ++ w2) (b1 || b2).
Proof. unfold raise; simpl. by rewrite app_assoc, orb_assoc. Qed.

Lemma raised_upWrite text o : raised (upWrite text o) = raised o.
Proof. done. Qed.

Lemma raised_downWrite text o : raised (downWrite text o) = raised o.
Proof. done. Qed.

Lemma raised_warn w o : raised (warn w o) = raise (raised o) [w] false.
Proof. unfold raised, raise; simpl. by rewrite orb_false_r. Qed.

Lemma raised_breaking o : raised (breaking o) = raise (raised o) [] true.
Proof. unfold raised, raise; simpl. by rewrite app_nil_r, orb_true_r. Qed.

Lemma raised_foldl {A : Type} (f : Out → A → Out) (W : A → list string) (B : A → bool) l o :
  (∀ o x, raised (f o x) = raise (raised o) (W x) (B x)) →
  raised (foldl f o l) = raise (raised o) (flat_map W l) (existsb B l).
Proof.
  intros Hf. revert o. induction l as [|x l IH]; intros o; simpl.
  - by rewrite raise_nothing.
  - by rewrite IH, Hf, raise_raise.
Qed.

Lemma raised_foldl_quiet {A : Type} (f : Out → A → Out) l o :
  (∀ o x, raised (f o x) = raised o) → raised (foldl f o l) = raised o.
Proof.
  intros Hf. revert o. induction l as [|x l IH]; intros o; simpl; [done|].
  by rewrite IH, Hf.
Qed.

Lemma raised_range_slice_quiet {A : Type} (l : list A) (body : nat → A → Out → Out) o :
  (∀ i x o, raised (body i x o) = raised o) → raised (range_slice l body o) = raised o.
Proof. intros Hb. unfold range_slice. apply raised_foldl_quiet. intros. apply Hb. Qed.

Lemma raised_enumValueLines write values o :
  textOnly write → raised (enumValueLines write values o) = raised o.
Proof.
  intros Hw. unfold enumValueLines. apply raised_range_slice_quiet.
  intros i val o'. destruct (_ <? _); by rewrite !Hw.
Qed.

Lemma raised_columnSuffix write col o :
  textOnly write → raised (columnSuffix write col o) = raised o.
Proof.
  intros Hw. unfold columnSuffix, when.
  destruct (Column_DefaultValue col), (negb (Column_IsNullable col)); by rewrite ?Hw.
Qed.

Ltac quiet :=
  intros; unfold when;
  repeat first
    [ rewrite raised_upWrite | rewrite raised_downWrite
    | rewrite raised_enumValueLines by (intros ? ?; reflexivity)
    | rewrite raised_columnSuffix by (intros ? ?; reflexivity)
    | rewrite raised_range_slice_quiet by quiet
    | rewrite raised_foldl_quiet by quiet
    | match goal with |- context [if ?c then _ else _] => destruct c end
    | match goal with |- context [match ?c with Some _ => _ | None => _ end] => destruct c end ];
  try reflexivity.

Lemma flat_map_singleton {A B : Type} (f : A → B) (l : list A) :
  flat_map (λ x, [f x]) l = map f l.
Proof. induction l as [|x l IH]; simpl; [done|]. by rewrite IH. Qed.

Lemma existsb_always {A : Type} (l : list A) : existsb (λ _, true) l = nonempty l.
Proof. by destruct l. Qed.

Lemma existsb_never {A : Type} (l : list A) : existsb (λ _, false) l = false.
Proof. by induction l. Qed.

Lemma raised_generateEnums g diff o :
  raised (generateEnums g diff o) =
  raise (raised o) (flat_map enumWarning (AlteredEnums diff))
        (existsb (λ enumDiff, nonempty (RemovedValues enumDiff)) (AlteredEnums diff)).
Proof.
  unfold generateEnums.
  rewrite raised_foldl_quiet by quiet.
  rewrite (raised_foldl _ enumWarning (λ enumDiff, nonempty (RemovedValues enumDiff))).
  - by rewrite raised_foldl_quiet by quiet.
  - intros o' enumDiff. unfold enumWarning, when. rewrite raised_upWrite.
    destruct (nonempty (RemovedValues enumDiff)).
    + rewrite raised_breaking, raised_warn, raise_raise.
      by rewrite raised_foldl_quiet by quiet.
    + rewrite raise_nothing. by rewrite raised_foldl_quiet by quiet.
Qed.

Lemma raised_generateAlteredColumn g tableDiff colDiff o :
  raised (generateAlteredColumn g tableDiff colDiff o) =
  raise (raised o) (alteredColumnWarnings tableDiff colDiff) false.
Proof.
  unfold generateAlteredColumn, alteredColumnWarnings, when.
  destruct (TypeChanged colDiff), (NullableChanged colDiff),
    (Column_IsNullable (NewColumn colDiff)), (DefaultChanged colDiff),
    (Column_DefaultValue (NewColumn colDiff)), (Column_DefaultValue (OldColumn colDiff));
    simpl;
    repeat first [ rewrite raised_upWrite | rewrite raised_downWrite | rewrite raised_warn ];
    rewrite ?raise_raise, ?raise_nothing; reflexivity.
Qed.

Lemma raised_generateAlteredTable g tableDiff o :
  raised (generateAlteredTable g tableDiff o) =
  raise (raised o) (alteredTableWarnings tableDiff) (nonempty (DroppedColumns tableDiff)).
Proof.
  unfold generateAlteredTable, alteredTableWarnings.
  rewrite raised_downWrite, raised_upWrite.
  rewrite (raised_foldl _ (alteredColumnWarnings tableDiff) (λ _, false))
    by (intros; apply raised_generateAlteredColumn).
  rewrite (raised_foldl _ (λ col, [droppedColumnWarning tableDiff col]) (λ _, true)).
  - rewrite raised_foldl_quiet by quiet.
    by rewrite raise_raise, flat_map_singleton, existsb_always, existsb_never, orb_false_r.
  - intros o' col. rewrite raised_downWrite.
    rewrite raised_columnSuffix by (intros ? ?; reflexivity).
    by rewrite raised_downWrite, raised_breaking, raised_warn, raised_upWrite, raise_raise.
Qed.

Lemma raised_generateTables g diff o :
  raised (generateTables g diff o) =
  raise (raised o)
    (flat_map alteredTableWarnings (AlteredTables diff) ++
     map droppedTableWarning (DroppedTables diff))
    (existsb (λ tableDiff, nonempty (DroppedColumns tableDiff)) (AlteredTables diff) ||
     nonempty (DroppedTables diff)).
Proof.
  unfold generateTables.
  rewrite (raised_foldl _ (λ table, [droppedTableWarning table]) (λ _, true)).
  - rewrite (raised_foldl _ alteredTableWarnings
               (λ tableDiff, nonempty (DroppedColumns tableDiff)))
      by (intros; apply raised_generateAlteredTable).
    rewrite raised_foldl_quiet by quiet.
    by rewrite raise_raise, flat_map_singleton, existsb_always.
  - intros o' table.
    by rewrite raised_downWrite, raised_breaking, raised_warn, raised_upWrite, raise_raise.
Qed.

Lemma raised_generateSequences g diff o : raised (generateSequences g diff o) = raised o.
Proof. unfold generateSequences. quiet. Qed.

Lemma raised_generateConstraints g diff o : raised (generateConstraints g diff o) = raised o.
Proof. unfold generateConstraints. quiet. Qed.

Lemma raised_generateIndexes g diff o : raised (generateIndexes g diff o) = raised o.
Proof. unfold generateIndexes. quiet. Qed.

Lemma raised_generateFunctions g diff o : raised (generateFunctions g diff o) = raised o.
Proof. unfold generateFunctions. quiet. Qed.

Lemma raised_generateViews g diff o : raised (generateViews g diff o) = raised o.
Proof. unfold generateViews. quiet. Qed.

Lemma raised_generateTriggers g diff o : raised (generateTriggers g diff o) = raised o.
Proof. unfold generateTriggers. quiet. Qed.

(** C3, as the generator has it: every occurrence of a dropped column, a
    dropped table, a column type change, a column set [NOT NULL] and an
    enum losing values appends its warning, in phase order; [HasBreaking]
    is raised exactly by removed enum values, dropped columns and dropped
    tables. *)
Theorem Generate_warnings_and_breaking
    (g : Generator) (diff : DiffResult) (description generatedAt : string) :
  Warnings (Generate g diff description generatedAt) = warningsFor diff ∧
  HasBreaking (Generate g diff description generatedAt) = breakingFor diff.
Proof.
  set (script := Generate g diff description generatedAt).
  assert (raised {| up := UpScript script; down := DownScript script;
                    warnings := Warnings script; hasBreaking := HasBreaking script |}
          = (warningsFor diff, breakingFor diff)) as Hraised.
  { subst script. unfold Generate. simpl.
    change (raised ?o = _) with (raised o = raise ([], false) (warningsFor diff) (breakingFor diff)).
    match goal with
    | |- raised {| up := up ?o; down := _; warnings := _; hasBreaking := _ |} = _ =>
        change (raised o = raise ([], false) (warningsFor diff) (breakingFor diff))
    end.
    rewrite raised_generateTriggers, raised_generateViews, raised_generateFunctions,
      raised_generateIndexes, raised_generateConstraints, raised_generateTables,
      raised_generateSequences, raised_generateEnums.
    rewrite raise_raise. unfold warningsFor, breakingFor.
    by rewrite orb_assoc. }
  by injection Hraised.
Qed.

(** C3 as stated fails: a column type change appends its warning and
    leaves [HasBreaking] false, and so does setting [NOT NULL]. *)
Lemma Generate_type_change_not_breaking :
  Warnings (Generate (NewGenerator "s") Samples.typeChange "d" "t")
    = ["Type change on t.c may cause data loss or conversion errors"] ∧
  HasBreaking (Generate (NewGenerator "s") Samples.typeChange "d" "t") = false ∧
  Warnings (Generate (NewGenerator "s") Samples.setNotNull "d" "t")
    = ["Setting NOT NULL on t.c may fail if existing NULL values exist"] ∧
  HasBreaking (Generate (NewGenerator "s") Samples.setNotNull "d" "t") = false.
Proof. repeat split; vm_compute; reflexivity. Qed.


End GeneratorProps.

(** * Package plugin: properties *)

Section EnvelopeProps.
Import Plugin.
Context `{JSON}.

(** Whatever the text, a parsed envelope starts with an empty log buffer. *)
Lemma NewParameterFromJSON_log text : log (NewParameterFromJSON text) = "".
Proof. unfold NewParameterFromJSON, FromJSON. by destruct (json_Unmarshal text). Qed.

(** C4, as the envelope has it.  Take an envelope whose map is allocated
    and whose textual form decodes to the map it encodes, as
    [encoding/json] does for string-only leaves.  Parsing the text that
    [ToString] gives yields the value map that [ToString] left, with the
    log text under the key [log], and an empty log buffer.  The parsed
    envelope is the serialized one exactly when the log buffer was empty,
    and then serializing it again gives the same text; otherwise
    serializing it again stores the empty log. *)
Theorem ToString_FromJSON_round_trip (e : Param) (m : gmap string jvalue) :
  value e = Some m →
  stringOnly e = true →
  json_Unmarshal (json_Marshal (<["log" := JStr (log e)]> m))
    = (Some (<["log" := JStr (log e)]> m), None) →
  ∃ text e',
    ToString e = Done (text, e') ∧
    value (NewParameterFromJSON text) = value e' ∧
    Get (NewParameterFromJSON text) "log" = JStr (log e) ∧
    log (NewParameterFromJSON text) = "" ∧
    (NewParameterFromJSON text = e' ↔ log e = "") ∧
    (log e = "" → ToString (NewParameterFromJSON text) = Done (text, e')) ∧
    ToString (NewParameterFromJSON text)
      = Done (json_Marshal (<["log" := JStr ""]> m),
              {| value := Some (<["log" := JStr ""]> m); log := "" |}).
Proof.
  intros Hm _ Hcodec.
  exists (json_Marshal (<["log" := JStr (log e)]> m)),
         {| value := Some (<["log" := JStr (log e)]> m); log := log e |}.
  assert (NewParameterFromJSON (json_Marshal (<["log" := JStr (log e)]> m))
          = {| value := Some (<["log" := JStr (log e)]> m); log := "" |}) as Hparsed.
  { unfold NewParameterFromJSON, FromJSON. by rewrite Hcodec. }
  rewrite Hparsed. unfold ToString, Get. rewrite Hm; simpl.
  rewrite lookup_insert_eq, insert_insert_eq; simpl.
  repeat split; try done.
  - by intros [= ->].
  - by intros ->.
  - by intros ->.
Qed.

(** C9: without an object under [result] the type assertion of
    [GetVersion] fails. *)
Lemma GetVersion_needs_result_object (r : Param) :
  noResultObject r → GetVersion r = Panic.
Proof.
  unfold noResultObject, GetVersion, index.
  destruct (value r) as [m|]; [|done].
  destruct (m !! "result") as [[]|]; simpl; done.
Qed.

End EnvelopeProps.

(** * Package core: properties *)

Section EngineProps.
Import Plugin Core.
Context `{JSON} `{Scripts_} {P : Type} `{DatabaseProvider P}.

Lemma callGetVersion_run (w : World) :
  callGetVersion w = (Done (versionReplyIn w), afterGetVersion w).
Proof.
  unfold callGetVersion, afterGetVersion, versionReplyIn.
  by destruct (db_GetVersion (provider w)).
Qed.

(** C5: when the provider reports a deployed version whose application
    version is the configured target, and the plan can be fetched,
    [Upgrade] returns no error and the informational log, and the opening
    [GetVersion] is its only call to the provider: no [RunCommand], no
    [SetVersion]. *)
Theorem Upgrade_same_version_no_write
    (cfg : Config) (w : World) (version : Version) (plan : Plan) :
  GetVersion (NewParameterFromJSON (versionReplyIn w)) = Done (Some version) →
  Error (NewParameterFromJSON (versionReplyIn w)) = Done None →
  fetchPlan = Ok plan →
  Cfg_AppVersion cfg = AppVersion version →
  Upgrade cfg w = (Done (nothingToDo version, None), afterGetVersion w) ∧
  calls (afterGetVersion w) = calls w ++ [CallGetVersion (versionReplyIn w)].
Proof.
  intros Hversion Herror Hplan Htarget. split; [|done].
  unfold Upgrade, getVersion, bind. rewrite callGetVersion_run.
  unfold lift, ret. rewrite Hversion, Herror, Hplan, Htarget, String.eqb_refl.
  done.
Qed.

(** C9: [GetVersion] panics on every envelope that has no object under
    [result], be the key missing or its value something else; so [Create]
    panics at its check, right after the opening call, whenever the reply
    to [GetVersion] carries no error and no such object. *)
Theorem Create_panics_without_result_object (r : Param) :
  noResultObject r →
  GetVersion r = Panic ∧
  ∀ (cfg : Config) (w : World),
    NewParameterFromJSON (versionReplyIn w) = r →
    HasError r = false →
    Create cfg w = (Panic, afterGetVersion w).
Proof.
  intros Hr. pose proof (GetVersion_needs_result_object r Hr) as Hpanic.
  split; [done|]. intros cfg w Hw Hno.
  unfold Create, bind. rewrite callGetVersion_run, Hw, Hno. simpl.
  unfold lift. by rewrite Hpanic.
Qed.

(** The check of [Create] is passed without a panic only on a reply that
    carries an error or a well-formed version object. *)
Lemma Create_check_defined (cfg : Config) (w : World) :
  (Create cfg w).1 ≠ Panic →
  HasError (NewParameterFromJSON (versionReplyIn w)) = true ∨
  ∃ v, GetVersion (NewParameterFromJSON (versionReplyIn w)) = Done (Some v).
Proof.
  unfold Create, bind. rewrite callGetVersion_run.
  destruct (HasError _); simpl; [by left|].
  unfold lift. destruct (GetVersion _) as [[v|]|] eqn:Hv; simpl.
  - right. by exists v.
  - exfalso. revert Hv. unfold GetVersion.
    repeat (match goal with |- context [match ?x with _ => _ end] => destruct x end;
            try done).
  - done.
Qed.

(** On a reply to [GetVersion] that carries no error, [Deploy] makes no
    further call: it answers that the database exists when the envelope
    has the strings [dbVersion] and [appVersion] at its top level, and
    panics otherwise. *)
Lemma Deploy_error_free_reply (cfg : Config) (w : World) :
  HasError (NewParameterFromJSON (versionReplyIn w)) = false →
  (Deploy cfg w).2 = afterGetVersion w ∧
  ((Deploy cfg w).1 = Panic ∨
   ∃ dbVersion appVersion,
     (Deploy cfg w).1 = Done ("", Some (alreadyExistsDeploy dbVersion appVersion))).
Proof.
  intros Hno. unfold Deploy, bind. rewrite callGetVersion_run, Hno. simpl.
  unfold lift, ret.
  destruct (GetString _ "dbVersion") as [dbVersion|]; [|by split; [|left]].
  destruct (GetString _ "appVersion") as [appVersion|]; [|by split; [|left]].
  split; [done|]. right. by exists dbVersion, appVersion.
Qed.

(** ** Calls of the command batches *)

Lemma abortsOnFailure_nil : abortsOnFailure [].
Proof. intros [|? pre] call post Heq; discriminate. Qed.

Lemma abortsOnFailure_singleton call : abortsOnFailure [call].
Proof.
  intros [|? pre] call' post Heq _; simplify_eq/=; [done|].
  by destruct pre.
Qed.

Lemma abortsOnFailure_cons call calls :
  callFailed call = false → abortsOnFailure calls → abortsOnFailure (call :: calls).
Proof.
  intros Hok Hcalls [|? pre] call' post Heq Hfailed; simplify_eq/=.
  - congruence.
  - by eapply Hcalls.
Qed.

Lemma abortsOnFailure_app calls1 calls2 :
  Forall (λ call, callFailed call = false) calls1 →
  abortsOnFailure calls2 → abortsOnFailure (calls1 ++ calls2).
Proof.
  induction 1 as [|call calls1 Hok _ IH]; intros Hcalls2; simpl; [done|].
  apply abortsOnFailure_cons; auto.
Qed.

Lemma abortsOnFailure_succeeded calls :
  Forall (λ call, callFailed call = false) calls → abortsOnFailure calls.
Proof.
  intros Hok. rewrite <- (app_nil_r calls).
  apply abortsOnFailure_app; [done | apply abortsOnFailure_nil].
Qed.


Lemma ranAll_succeeded batch calls :
  ranAll batch calls → Forall (λ call, callFailed call = false) calls.
Proof. induction 1 as [|c call ? ? (reply & -> & Hok)]; constructor; done. Qed.

Lemma ranAll_commands batch calls :
  ranAll batch calls → Forall (λ call, isRunCommand call = true) calls.
Proof. induction 1 as [|c call ? ? (reply & -> & Hok)]; constructor; done. Qed.






Lemma Error_of_failed (r : Param) : HasError r = true → Error r ≠ Done None.
Proof. unfold HasError, Error. by destruct (index (value r) "error"). Qed.

Lemma callRunCommand_run c (w : World) :
  ∃ reply w', callRunCommand c w = (Done reply, w') ∧
              calls w' = calls w ++ [CallRunCommand c reply].
Proof.
  unfold callRunCommand. destruct (db_RunCommand _ _) as [reply p]. by eexists _, _.
Qed.

Lemma callSetVersion_run input (w : World) :
  ∃ reply w', callSetVersion input w = (Done reply, w') ∧
              calls w' = calls w ++ [CallSetVersion input reply].
Proof.
  unfold callSetVersion. destruct (db_SetVersion _ _) as [reply p]. by eexists _, _.
Qed.

Lemma executeCommands_calls commands log (w w' : World) result :
  executeCommands commands log w = (result, w') →
  ∃ new, calls w' = calls w ++ new ∧ batchCalls (Ok commands) result new.
Proof.
  revert log w. induction commands as [|c commands IH]; intros log w; simpl.
  - intros [= <- <-]. exists []. split; [by rewrite app_nil_r|].
    exists []. by split; [|constructor].
  - unfold bind at 1.
    destruct (callRunCommand_run c w) as (reply & w1 & -> & Hw1).
    destruct (HasError (NewParameterFromJSON reply)) eqn:Hfailed.
    + unfold bind, lift, ret.
      pose proof (Error_of_failed _ Hfailed) as Herr.
      destruct (Error (NewParameterFromJSON reply)) as [[err|]|];
        try done; intros [= <- <-];
        (exists [CallRunCommand c reply]; split; [done|]);
        (split; [by repeat constructor | apply abortsOnFailure_singleton]).
    + unfold bind at 1, lift.
      destruct (GetLog (NewParameterFromJSON reply)) as [l|].
      * intros Hrest. apply IH in Hrest as (new & Hnew & Hbatch).
        exists (CallRunCommand c reply :: new). split.
        { rewrite Hnew, Hw1. by rewrite <- app_assoc. }
        unfold batchCalls in *. destruct result as [[? [err|]]|].
        -- destruct Hbatch. split; [by constructor|]. by apply abortsOnFailure_cons.
        -- destruct Hbatch as (commands' & [= <-] & Hran).
           exists (c :: commands). split; [done|]. constructor; [|done]. by exists reply.
        -- destruct Hbatch. split; [by constructor|]. by apply abortsOnFailure_cons.
      * intros [= <- <-]. exists [CallRunCommand c reply]. split; [done|].
        split; [by repeat constructor | apply abortsOnFailure_singleton].
Qed.

Lemma runCommands_calls cfg cmds manifest (w w' : World) result :
  runCommands cfg cmds manifest w = (result, w') →
  ∃ new, calls w' = calls w ++ new ∧
         batchCalls (fetchCommands cfg manifest cmds) result new.
Proof.
  unfold runCommands. destruct (fetchCommands cfg manifest cmds) as [commands|err].
  - apply executeCommands_calls.
  - intros [= <- <-]. exists []. split; [by rewrite app_nil_r|].
    split; [constructor | apply abortsOnFailure_nil].
Qed.

Lemma setDbVersion_calls cfg appVer dbVersion description path (w w' : World) result :
  setDbVersion cfg appVer dbVersion description path w = (result, w') →
  ∃ reply,
    calls w' = calls w ++ [CallSetVersion {| AppVersion := appVer; DbVersion := dbVersion;
                                             Description := description;
                                             Source := cat [Cfg_RepoURI cfg; "/"; path];
                                             Time := "" |} reply] ∧
    (result = Done None → replyFailed reply = false).
Proof.
  unfold setDbVersion, bind.
  match goal with |- context [callSetVersion ?input w] =>
    destruct (callSetVersion_run input w) as (reply & w1 & -> & Hw1)
  end.
  unfold replyFailed, lift, ret.
  destruct (HasError (NewParameterFromJSON reply)) eqn:Hfailed; intros [= <- <-];
    exists reply; (split; [done|]); [|done].
  intros Herr. by apply Error_of_failed in Herr.
Qed.

(** ** Calls of [Deploy] *)



(** ** Calls of [Upgrade] *)








End EngineProps.

(** * The statements on sample inputs *)

Section OnSamples.
Import Plugin Core SampleEngine.
#[local] Existing Instance MiniJSON.codec.
#[local] Existing Instance scripts.
#[local] Existing Instance scriptedProvider.

(** C4 as stated fails: an envelope with string-only leaves and a
    non-empty log buffer is serialized; the parsed envelope differs from
    it, before and after the serialization, and serializing the parsed
    envelope gives another text, the log being lost. *)
Lemma ToString_FromJSON_drops_log_buffer :
  stringOnly logged = true ∧
  ∃ text e',
    ToString logged = Done (text, e') ∧
    NewParameterFromJSON text ≠ e' ∧
    NewParameterFromJSON text ≠ logged ∧
    ∃ text2 e2,
      ToString (NewParameterFromJSON text) = Done (text2, e2) ∧
      text2 ≠ text ∧
      Get e2 "log" = JStr "".
Proof.
  split; [vm_compute; reflexivity|].
  eexists _, _. split; [reflexivity|].
  split; [|split].
  - intros Heq. apply (f_equal log) in Heq. vm_compute in Heq. discriminate.
  - intros Heq. apply (f_equal log) in Heq. vm_compute in Heq. discriminate.
  - eexists _, _. split; [vm_compute; reflexivity|].
    split; [vm_compute; discriminate | vm_compute; reflexivity].
Qed.

Lemma ToString_FromJSON_round_trip_witness :
  ∃ text e',
    ToString logged = Done (text, e') ∧
    value (NewParameterFromJSON text) = value e' ∧
    Get (NewParameterFromJSON text) "log" = JStr (log logged) ∧
    log (NewParameterFromJSON text) = "" ∧
    (NewParameterFromJSON text = e' ↔ log logged = "") ∧
    (log logged = "" → ToString (NewParameterFromJSON text) = Done (text, e')) ∧
    ToString (NewParameterFromJSON text)
      = Done (json_Marshal (<["log" := JStr ""]> {[ "result" := JStr "ok" ]}),
              {| value := Some (<["log" := JStr ""]> {[ "result" := JStr "ok" ]});
                 log := "" |}).
Proof.
  apply (ToString_FromJSON_round_trip logged {[ "result" := JStr "ok" ]}).
  - reflexivity.
  - vm_compute; reflexivity.
  - vm_compute; reflexivity.
Defined.

Lemma Upgrade_same_version_no_write_witness :
  Upgrade (config "v2") (world (foundReply "v2" "db-v2") [])
    = (Done (nothingToDo deployedV2, None),
       afterGetVersion (world (foundReply "v2" "db-v2") [])) ∧
  calls (afterGetVersion (world (foundReply "v2" "db-v2") []))
    = calls (world (foundReply "v2" "db-v2") [])
      ++ [CallGetVersion (versionReplyIn (world (foundReply "v2" "db-v2") []))].
Proof.
  apply (Upgrade_same_version_no_write (config "v2") (world (foundReply "v2" "db-v2") [])
           deployedV2 plan).
  - vm_compute; reflexivity.
  - vm_compute; reflexivity.
  - reflexivity.
  - reflexivity.
Defined.

Lemma Create_panics_without_result_object_witness :
  GetVersion (NewParameterFromJSON doneReply) = Panic ∧
  Create (config "v1") (world doneReply []) = (Panic, afterGetVersion (world doneReply [])).
Proof.
  assert (noResultObject (NewParameterFromJSON doneReply)) as Hr
    by (vm_compute; exact I).
  destruct (Create_panics_without_result_object (NewParameterFromJSON doneReply) Hr)
    as [Hpanic Hcreate].
  split; [exact Hpanic|].
  apply Hcreate; [reflexivity | vm_compute; reflexivity].
Defined.

(** C2: [Deploy] on a reply to [GetVersion] that carries no error.  With
    an empty result it runs no deploy command; with a version under
    [result] it does not return the error that the database exists: in
    both cases it panics when it reads [dbVersion] at the top level of
    the envelope, the opening call being its only call. *)
Theorem Deploy_error_free_reply_panics :
  HasError (NewParameterFromJSON doneReply) = false ∧
  Deploy (config "v1") (world doneReply []) = (Panic, afterGetVersion (world doneReply [])) ∧
  GetVersion (NewParameterFromJSON (foundReply "v1" "db-v1"))
    = Done (Some {| AppVersion := "v1"; DbVersion := "db-v1";
                    Description := "Created database"; Source := "repo/path";
                    Time := "2020-01-01T00:00:00.000Z" |}) ∧
  Deploy (config "v1") (world (foundReply "v1" "db-v1") [])
    = (Panic, afterGetVersion (world (foundReply "v1" "db-v1") [])) ∧
  calls (afterGetVersion (world doneReply [])) = [CallGetVersion doneReply].
Proof. repeat split; vm_compute; reflexivity. Qed.

End OnSamples.

(** * Package diff: further properties of the comparator *)

Section ComparatorMore.
Import Diff.

Lemma compareNullableStrings_eq a b : compareNullableStrings a b = true ↔ a = b.
Proof.
  destruct a as [x|], b as [y|]; simpl; try (split; congruence).
  rewrite String.eqb_eq. split; congruence.
Qed.

Lemma elem_of_range_append {A B : Type} (m : gmap string A)
    (body : string → A → option B) acc y :
  y ∈ range_append m body acc ↔
  y ∈ acc ∨ ∃ key x, m !! key = Some x ∧ body key x = Some y.
Proof.
  rewrite range_append_omap, elem_of_app, list_elem_of_omap.
  split; (intros [?|Hy]; [by left | right]).
  - destruct Hy as ([key x] & Hin & Hbody). exists key, x.
    by rewrite <- elem_of_map_to_list.
  - destruct Hy as (key & x & Hin & Hbody). exists (key, x).
    by rewrite elem_of_map_to_list.
Qed.

Lemma elem_of_missingFrom {A : Type} (here there : gmap string A) x :
  x ∈ missingFrom here there [] ↔ ∃ key, there !! key = Some x ∧ here !! key = None.
Proof.
  unfold missingFrom. rewrite elem_of_range_append. split.
  - intros [Hnil|(key & x' & Hthere & Hbody)]; [by apply elem_of_nil in Hnil|].
    exists key. destruct (here !! key); simplify_eq. done.
  - intros (key & Hthere & Hhere). right. exists key, x. by rewrite Hhere.
Qed.

Lemma compareColumns_cases (source target : Column) :
  match compareColumns source target with
  | None =>
      Column_DataType source = Column_DataType target ∧
      Column_IsNullable source = Column_IsNullable target ∧
      Column_DefaultValue source = Column_DefaultValue target
  | Some d =>
      ColumnDiff_Name d = Column_Name target ∧
      OldColumn d = source ∧ NewColumn d = target ∧
      (TypeChanged d = true ↔ Column_DataType source ≠ Column_DataType target) ∧
      (NullableChanged d = true ↔ Column_IsNullable source ≠ Column_IsNullable target) ∧
      (DefaultChanged d = true ↔ Column_DefaultValue source ≠ Column_DefaultValue target) ∧
      TypeChanged d || NullableChanged d || DefaultChanged d = true
  end.
Proof.
  unfold compareColumns.
  pose proof (compareNullableStrings_eq (Column_DefaultValue source)
                (Column_DefaultValue target)) as Hd.
  destruct (String.eqb_spec (Column_DataType source) (Column_DataType target)) as [Ht|Ht];
    destruct (Bool.eqb_spec (Column_IsNullable source) (Column_IsNullable target)) as [Hn|Hn];
    destruct (compareNullableStrings (Column_DefaultValue source)
                (Column_DefaultValue target));
    simpl; intuition congruence.
Qed.

(** X1: The column comparison: no difference is reported exactly when data
    type, nullability and default agree; a reported difference carries the
    two columns, has each flag set exactly when its attribute differs, and
    so has at least one flag set. *)
Theorem compareColumns_flags (source target : Column) :
  match compareColumns source target with
  | None =>
      Column_DataType source = Column_DataType target ∧
      Column_IsNullable source = Column_IsNullable target ∧
      Column_DefaultValue source = Column_DefaultValue target
  | Some d =>
      ColumnDiff_Name d = Column_Name target ∧
      OldColumn d = source ∧ NewColumn d = target ∧
      (TypeChanged d = true ↔ Column_DataType source ≠ Column_DataType target) ∧
      (NullableChanged d = true ↔ Column_IsNullable source ≠ Column_IsNullable target) ∧
      (DefaultChanged d = true ↔ Column_DefaultValue source ≠ Column_DefaultValue target) ∧
      TypeChanged d || NullableChanged d || DefaultChanged d = true
  end.
Proof. apply compareColumns_cases. Qed.

Lemma compareEnumValues_cases (source target : Enum) :
  match compareEnumValues source target with
  | None => ∀ val, val ∈ Enum_Values source ↔ val ∈ Enum_Values target
  | Some d =>
      EnumDiff_Name d = Enum_Name target ∧
      AddedValues d = filter (λ val, val ∉ Enum_Values source) (Enum_Values target) ∧
      RemovedValues d = filter (λ val, val ∉ Enum_Values target) (Enum_Values source) ∧
      (AddedValues d ≠ [] ∨ RemovedValues d ≠ [])
  end.
Proof.
  assert (∀ (here there : list string),
            slice_append there
              (λ val, if bool_decide (val ∈ (list_to_set here : gset string))
                      then None else Some val) []
            = filter (λ val, val ∉ here) there) as Hloop.
  { intros here there. rewrite slice_append_omap; simpl.
    induction there as [|val there IH]; [done|].
    rewrite filter_cons. change (omap ?f (val :: there))
      with (match f val with Some y => y :: omap f there | None => omap f there end).
    rewrite IH. destruct (decide (val ∈ here)) as [Hin|Hout].
    - rewrite bool_decide_eq_true_2 by by apply elem_of_list_to_set.
      by rewrite decide_False by auto.
    - rewrite bool_decide_eq_false_2 by by rewrite elem_of_list_to_set.
      by rewrite decide_True. }
  unfold compareEnumValues. rewrite !Hloop.
  destruct (filter (λ val, val ∉ Enum_Values source) (Enum_Values target))
    as [|added addeds] eqn:Hadded;
  destruct (filter (λ val, val ∉ Enum_Values target) (Enum_Values source))
    as [|removed removeds] eqn:Hremoved; simpl;
    try (repeat split; try done; by (left + right)).
  intros val. split; intros Hin.
  - destruct (decide (val ∈ Enum_Values target)) as [|Hout]; [done|].
    assert (val ∈ filter (λ val, val ∉ Enum_Values target) (Enum_Values source)) as Hbad
      by by apply list_elem_of_filter.
    rewrite Hremoved in Hbad. by apply elem_of_nil in Hbad.
  - destruct (decide (val ∈ Enum_Values source)) as [|Hout]; [done|].
    assert (val ∈ filter (λ val, val ∉ Enum_Values source) (Enum_Values target)) as Hbad
      by by apply list_elem_of_filter.
    rewrite Hadded in Hbad. by apply elem_of_nil in Hbad.
Qed.

(** X2: The enum comparison only looks at which labels occur: no difference
    is reported exactly when the two enums have the same labels, whatever
    their order; a reported difference lists the labels of the target
    missing from the source and the labels of the source missing from the
    target, each in its declared order. *)
Theorem compareEnumValues_labels (source target : Enum) :
  match compareEnumValues source target with
  | None => ∀ val, val ∈ Enum_Values source ↔ val ∈ Enum_Values target
  | Some d =>
      EnumDiff_Name d = Enum_Name target ∧
      AddedValues d = filter (λ val, val ∉ Enum_Values source) (Enum_Values target) ∧
      RemovedValues d = filter (λ val, val ∉ Enum_Values target) (Enum_Values source) ∧
      (AddedValues d ≠ [] ∨ RemovedValues d ≠ [])
  end.
Proof. apply compareEnumValues_cases. Qed.

Lemma Compare_passes A B :
  Compare A B =
  {| CreatedTables := missingFrom (Tables A) (Tables B) [];
     DroppedTables := missingFrom (Tables B) (Tables A) [];
     AlteredTables :=
       range_append (Tables A)
         (λ key sourceTable,
            match Tables B !! key with
            | Some targetTable => compareTableStructure sourceTable targetTable
            | None => None
            end) [];
     CreatedIndexes :=
       range_append (Indexes B)
         (λ key targetIndex,
            match Indexes A !! key with
            | None => if negb (Index_IsPrimary targetIndex) then Some targetIndex else None
            | Some _ => None
            end) [];
     DroppedIndexes :=
       range_append (Indexes A)
         (λ key sourceIndex,
            match Indexes B !! key with
            | None => if negb (Index_IsPrimary sourceIndex) then Some sourceIndex else None
            | Some _ => None
            end) [];
     CreatedConstraints := missingFrom (Constraints A) (Constraints B) [];
     DroppedConstraints := missingFrom (Constraints B) (Constraints A) [];
     CreatedSequences := missingFrom (Sequences A) (Sequences B) [];
     DroppedSequences := missingFrom (Sequences B) (Sequences A) [];
     CreatedEnums := missingFrom (Enums A) (Enums B) [];
     DroppedEnums := missingFrom (Enums B) (Enums A) [];
     AlteredEnums :=
       range_append (Enums A)
         (λ key sourceEnum,
            match Enums B !! key with
            | Some targetEnum => compareEnumValues sourceEnum targetEnum
            | None => None
            end) [];
     CreatedFunctions := missingFrom (Functions A) (Functions B) [];
     DroppedFunctions := missingFrom (Functions B) (Functions A) [];
     AlteredFunctions :=
       range_append (Functions A)
         (λ key sourceFunc,
            match Functions B !! key with
            | Some targetFunc =>
                if negb (String.eqb (Func_Definition sourceFunc) (Func_Definition targetFunc))
                then Some {| FunctionDiff_Name := Func_Name targetFunc;
                             FunctionDiff_OldDefinition := Func_Definition sourceFunc;
                             FunctionDiff_NewDefinition := Func_Definition targetFunc |}
                else None
            | None => None
            end) [];
     CreatedViews := missingFrom (Views A) (Views B) [];
     DroppedViews := missingFrom (Views B) (Views A) [];
     AlteredViews :=
       range_append (Views A)
         (λ key sourceView,
            match Views B !! key with
            | Some targetView =>
                if negb (String.eqb (View_Definition sourceView) (View_Definition targetView))
                then Some {| ViewDiff_Name := View_Name targetView;
                             ViewDiff_OldDefinition := View_Definition sourceView;
                             ViewDiff_NewDefinition := View_Definition targetView |}
                else None
            | None => None
            end) [];
     CreatedTriggers := missingFrom (Triggers A) (Triggers B) [];
     DroppedTriggers := missingFrom (Triggers B) (Triggers A) [] |}.
Proof. reflexivity. Qed.

Lemma elem_of_nonprimary_missing (here there : gmap string Index) index :
  index ∈ range_append there
    (λ key x, match here !! key with
              | None => if negb (Index_IsPrimary x) then Some x else None
              | Some _ => None
              end) []
  ↔ Keyed.onlyIn here there index ∧ Index_IsPrimary index = false.
Proof.
  rewrite elem_of_range_append. unfold Keyed.onlyIn. split.
  - intros [Hnil|(key & x & Hthere & Hbody)]; [by apply elem_of_nil in Hnil|].
    destruct (here !! key) eqn:Hhere; [done|].
    destruct (Index_IsPrimary x) eqn:Hprimary; simplify_eq/=. eauto.
  - intros [(key & Hthere & Hhere) Hprimary]. right. exists key, index.
    by rewrite Hhere, Hprimary.
Qed.

(** X3: Created and dropped objects are found by key alone: an object is
    created exactly when the target stores it under a key that the source
    lacks, and dropped exactly when the source stores it under a key that
    the target lacks; for indexes the object must also not be a primary
    key index. *)
Theorem Compare_created_dropped_by_key (A B : DatabaseSchema) :
  (∀ x, x ∈ CreatedTables (Compare A B) ↔ Keyed.onlyIn (Tables A) (Tables B) x) ∧
  (∀ x, x ∈ DroppedTables (Compare A B) ↔ Keyed.onlyIn (Tables B) (Tables A) x) ∧
  (∀ x, x ∈ CreatedConstraints (Compare A B)
        ↔ Keyed.onlyIn (Constraints A) (Constraints B) x) ∧
  (∀ x, x ∈ DroppedConstraints (Compare A B)
        ↔ Keyed.onlyIn (Constraints B) (Constraints A) x) ∧
  (∀ x, x ∈ CreatedSequences (Compare A B) ↔ Keyed.onlyIn (Sequences A) (Sequences B) x) ∧
  (∀ x, x ∈ DroppedSequences (Compare A B) ↔ Keyed.onlyIn (Sequences B) (Sequences A) x) ∧
  (∀ x, x ∈ CreatedEnums (Compare A B) ↔ Keyed.onlyIn (Enums A) (Enums B) x) ∧
  (∀ x, x ∈ DroppedEnums (Compare A B) ↔ Keyed.onlyIn (Enums B) (Enums A) x) ∧
  (∀ x, x ∈ CreatedFunctions (Compare A B) ↔ Keyed.onlyIn (Functions A) (Functions B) x) ∧
  (∀ x, x ∈ DroppedFunctions (Compare A B) ↔ Keyed.onlyIn (Functions B) (Functions A) x) ∧
  (∀ x, x ∈ CreatedViews (Compare A B) ↔ Keyed.onlyIn (Views A) (Views B) x) ∧
  (∀ x, x ∈ DroppedViews (Compare A B) ↔ Keyed.onlyIn (Views B) (Views A) x) ∧
  (∀ x, x ∈ CreatedTriggers (Compare A B) ↔ Keyed.onlyIn (Triggers A) (Triggers B) x) ∧
  (∀ x, x ∈ DroppedTriggers (Compare A B) ↔ Keyed.onlyIn (Triggers B) (Triggers A) x) ∧
  (∀ x, x ∈ CreatedIndexes (Compare A B)
        ↔ Keyed.onlyIn (Indexes A) (Indexes B) x ∧ Index_IsPrimary x = false) ∧
  (∀ x, x ∈ DroppedIndexes (Compare A B)
        ↔ Keyed.onlyIn (Indexes B) (Indexes A) x ∧ Index_IsPrimary x = false).
Proof.
  rewrite Compare_passes; simpl.
  repeat match goal with |- _ ∧ _ => split end; intros x;
    first [ apply elem_of_missingFrom | apply elem_of_nonprimary_missing ].
Qed.

Lemma missingFrom_same_keys {A : Type} (here there : gmap string A) :
  dom here = dom there → missingFrom here there [] = [].
Proof.
  intros Hdom. unfold missingFrom. apply range_append_none. intros key x Hthere.
  assert (is_Some (here !! key)) as [y ->]; [|done].
  apply elem_of_dom. rewrite Hdom. apply elem_of_dom. eauto.
Qed.

(** X4: Indexes, constraints, sequences and triggers have no altered form:
    when two schemas have the same keys for them, the comparator reports
    nothing about them, whatever is stored under the keys. *)
Theorem Compare_same_keys_unreported (A B : DatabaseSchema) :
  Keyed.sameKeys A B →
  CreatedIndexes (Compare A B) = [] ∧ DroppedIndexes (Compare A B) = [] ∧
  CreatedConstraints (Compare A B) = [] ∧ DroppedConstraints (Compare A B) = [] ∧
  CreatedSequences (Compare A B) = [] ∧ DroppedSequences (Compare A B) = [] ∧
  CreatedTriggers (Compare A B) = [] ∧ DroppedTriggers (Compare A B) = [].
Proof.
  intros (Hix & Hcs & Hsq & Htr). rewrite Compare_passes; simpl.
  rewrite !missingFrom_same_keys by done.
  repeat split; apply range_append_none; intros key x Hx.
  - assert (is_Some (Indexes A !! key)) as [y ->]; [|done].
    apply elem_of_dom. rewrite Hix. apply elem_of_dom. eauto.
  - assert (is_Some (Indexes B !! key)) as [y ->]; [|done].
    apply elem_of_dom. rewrite <- Hix. apply elem_of_dom. eauto.
Qed.



Lemma compareTableStructure_reports source target tableDiff :
  compareTableStructure source target = Some tableDiff → Keyed.tableDiffReports tableDiff.
Proof.
  unfold compareTableStructure.
  match goal with |- context [negb ?c] => destruct c eqn:Hchanges end; [|done].
  intros [= <-]. split; [done|]. simpl.
  rewrite range_append_omap. simpl. apply Forall_omap.
  intros [key col] colDiff; simpl.
  destruct (Table_Columns target !! key) as [targetCol|]; [|done].
  intros Hcol. pose proof (compareColumns_cases col targetCol) as Hflags.
  rewrite Hcol in Hflags. apply Hflags.
Qed.

(** X5: Nothing unchanged is reported as altered: an altered table has an
    added, a dropped or an altered column, each altered column has a flag
    set, an altered enum has an added or a removed label, and an altered
    function or view has two different definitions. *)
Theorem Compare_alterations_report_changes (A B : DatabaseSchema) :
  Forall Keyed.tableDiffReports (AlteredTables (Compare A B)) ∧
  Forall (λ enumDiff, AddedValues enumDiff ≠ [] ∨ RemovedValues enumDiff ≠ [])
         (AlteredEnums (Compare A B)) ∧
  Forall (λ fnDiff, FunctionDiff_OldDefinition fnDiff ≠ FunctionDiff_NewDefinition fnDiff)
         (AlteredFunctions (Compare A B)) ∧
  Forall (λ viewDiff, ViewDiff_OldDefinition viewDiff ≠ ViewDiff_NewDefinition viewDiff)
         (AlteredViews (Compare A B)).
Proof.
  rewrite Compare_passes; simpl. rewrite !range_append_omap; simpl.
  repeat split; apply Forall_omap; intros [key x] y; simpl.
  - destruct (Tables B !! key); [|done]. apply compareTableStructure_reports.
  - destruct (Enums B !! key) as [target|]; [|done]. intros Hy.
    pose proof (compareEnumValues_cases x target) as Hlabels.
    rewrite Hy in Hlabels. apply Hlabels.
  - destruct (Functions B !! key) as [target|]; [|done].
    destruct (String.eqb_spec (Func_Definition x) (Func_Definition target)); [done|].
    by intros [= <-].
  - destruct (Views B !! key) as [target|]; [|done].
    destruct (String.eqb_spec (View_Definition x) (View_Definition target)); [done|].
    by intros [= <-].
Qed.







End ComparatorMore.

(** * Package diff: further properties of the generator *)

Section SortByOrdinal.
Import Diff.

Local Abbreviation ord := Column_OrdinalPosition.

Lemma sortStep_at pre x done y todo (i j : nat) :
  i = length pre → j = (i + 1 + length done)%nat →
  sortStep i j (pre ++ x :: done ++ y :: todo)
  = if ord x >? ord y then pre ++ y :: done ++ x :: todo
    else pre ++ x :: done ++ y :: todo.
Proof.
  intros -> ->. unfold sortStep.
  rewrite list_lookup_middle by done.
  assert (pre ++ x :: done ++ y :: todo = (pre ++ x :: done) ++ y :: todo) as Hfront
    by by rewrite <- app_assoc.
  rewrite Hfront at 1.
  rewrite list_lookup_middle by (rewrite length_app; simpl; lia).
  destruct (ord x >? ord y); [|done].
  rewrite insert_app_r_alt by lia. rewrite Nat.sub_diag. simpl.
  assert (pre ++ y :: done ++ y :: todo = (pre ++ y :: done) ++ y :: todo) as ->
    by by rewrite <- app_assoc.
  rewrite insert_app_r_alt by (rewrite length_app; simpl; lia).
  replace (length pre + 1 + length done - length (pre ++ y :: done))%nat with 0%nat
    by (rewrite length_app; simpl; lia).
  simpl. by rewrite <- app_assoc.
Qed.

(** The inner loop at [i] leaves at [i] a column that comes first among
    the columns from [i] on. *)
Lemma inner_loop (i : nat) pre todo : ∀ x done,
  i = length pre →
  Forall (λ y, ord x ≤ ord y) done →
  ∃ m rest,
    foldl (λ columns j, sortStep i j columns) (pre ++ x :: done ++ todo)
          (seq (i + 1 + length done) (length todo))
    = pre ++ m :: rest ∧
    Forall (λ y, ord m ≤ ord y) rest ∧
    m :: rest ≡ₚ x :: done ++ todo.
Proof.
  induction todo as [|y todo IH]; intros x done Hi Hdone; simpl.
  - exists x, done. by rewrite app_nil_r.
  - rewrite sortStep_at by done.
    replace (S (i + 1 + length done)) with (i + 1 + length (done ++ [x]))%nat
      by (rewrite length_app; simpl; lia).
    destruct (ord x >? ord y) eqn:Hgt.
    + destruct (IH y (done ++ [x]) Hi) as (m & rest & Hrun & Hm & Hperm).
      { apply Forall_app. split; [|constructor; [lia|constructor]].
        eapply Forall_impl; [exact Hdone|]. simpl. lia. }
      exists m, rest. rewrite <- app_assoc in Hrun. simpl in Hrun.
      split; [done|]. split; [done|].
      rewrite Hperm. rewrite <- app_assoc. simpl.
      rewrite <- (Permutation_middle done todo x), <- (Permutation_middle done todo y).
      apply perm_swap.
    + replace (length (done ++ [x])) with (length (done ++ [y]))
        by (rewrite !length_app; done).
      destruct (IH x (done ++ [y]) Hi) as (m & rest & Hrun & Hm & Hperm).
      { apply Forall_app. split; [done|]. constructor; [lia|constructor]. }
      exists m, rest. rewrite <- app_assoc in Hrun. simpl in Hrun.
      split; [done|]. split; [done|].
      by rewrite Hperm, <- app_assoc.
Qed.

Lemma outer_loop (N n : nat) : ∀ pre suf,
  length suf = n → N = (length pre + n)%nat →
  StronglySorted (λ a b, ord a ≤ ord b) pre →
  (∀ a b, a ∈ pre → b ∈ suf → ord a ≤ ord b) →
  ∃ out,
    foldl (λ columns i,
             foldl (λ columns j, sortStep i j columns) columns (seq (S i) (N - S i)))
          (pre ++ suf) (seq (length pre) n) = out ∧
    StronglySorted (λ a b, ord a ≤ ord b) out ∧ out ≡ₚ pre ++ suf.
Proof.
  induction n as [|n IH]; intros pre suf Hlen HN Hsorted Hle; simpl.
  - destruct suf; [|done]. exists (pre ++ []). by rewrite app_nil_r.
  - destruct suf as [|x rest]; [done|]. injection Hlen as Hlen.
    destruct (inner_loop (length pre) pre rest x [] eq_refl) as (m & rest' & Hrun & Hm & Hperm);
      [constructor|].
    simpl in Hrun.
    replace (N - S (length pre))%nat with (length rest) by lia.
    replace (length pre + 1 + 0)%nat with (S (length pre)) in Hrun by lia.
    rewrite Hrun.
    assert (pre ++ m :: rest' = (pre ++ [m]) ++ rest') as -> by by rewrite <- app_assoc.
    destruct (IH (pre ++ [m]) rest') as (out & Hout & Hsorted' & Hperm').
    + apply Permutation_length in Hperm. simpl in Hperm. lia.
    + rewrite length_app. simpl. lia.
    + apply StronglySorted_app_2; [|done|repeat constructor].
      intros a b Ha ->%list_elem_of_singleton. apply Hle; [done|].
      rewrite <- Hperm. apply list_elem_of_here.
    + intros a b [Ha| ->%list_elem_of_singleton]%elem_of_app Hb.
      * apply Hle; [done|]. rewrite <- Hperm. by apply list_elem_of_further.
      * rewrite Forall_forall in Hm. by apply Hm.
    + exists out. split; [|split; [done|]].
      * rewrite <- Hout. f_equal. f_equal. rewrite length_app. simpl. lia.
      * rewrite Hperm', <- app_assoc. simpl. by rewrite Hperm.
Qed.

(** X7: The sort that [generateTables] runs before it lists the columns of a
    created table yields the same columns in ascending [OrdinalPosition]. *)
Theorem sortByOrdinal_sorts (columns : list Column) :
  StronglySorted (λ a b, Column_OrdinalPosition a ≤ Column_OrdinalPosition b)
    (sortByOrdinal columns) ∧
  sortByOrdinal columns ≡ₚ columns.
Proof.
  unfold sortByOrdinal.
  destruct (outer_loop (length columns) (length columns) [] columns)
    as (out & Hout & Hsorted & Hperm).
  - done.
  - done.
  - constructor.
  - intros a b Ha. by apply elem_of_nil in Ha.
  - simpl in *. by rewrite Hout.
Qed.

Lemma sortByOrdinal_sorted (columns : list Column) :
  StronglySorted (λ a b, ord a ≤ ord b) (sortByOrdinal columns) ∧
  sortByOrdinal columns ≡ₚ columns.
Proof.
  unfold sortByOrdinal.
  destruct (outer_loop (length columns) (length columns) [] columns)
    as (out & Hout & Hsorted & Hperm);
    [done | done | constructor | by intros a b Ha%elem_of_nil |].
  simpl in *. by rewrite Hout.
Qed.

Lemma sorted_by_distinct_ordinals (l1 l2 : list Column) :
  StronglySorted (λ a b, ord a ≤ ord b) l1 →
  StronglySorted (λ a b, ord a ≤ ord b) l2 →
  l1 ≡ₚ l2 → NoDup (ord <$> l1) → l1 = l2.
Proof.
  intros Hsorted1. revert l2.
  induction Hsorted1 as [|x t1 Hsorted1 IH Hx]; intros l2 Hsorted2 Hperm Hdistinct.
  - by apply Permutation_nil_l in Hperm.
  - destruct Hsorted2 as [|y t2 Hsorted2 Hy].
    { by apply Permutation_nil_r in Hperm. }
    apply NoDup_cons in Hdistinct as [Hfresh Hdistinct]. fold (ord <$> t1) in *.
    assert (x = y) as <-.
    { assert (x ∈ y :: t2) as [->|Hxin]%elem_of_cons
        by (rewrite <- Hperm; apply list_elem_of_here); [done|].
      assert (y ∈ x :: t1) as [->|Hyin]%elem_of_cons
        by (rewrite Hperm; apply list_elem_of_here); [done|].
      rewrite Forall_forall in Hx, Hy.
      specialize (Hx y Hyin). specialize (Hy x Hxin).
      destruct Hfresh. replace (ord x) with (ord y) by lia.
      by apply list_elem_of_fmap_2. }
    f_equal. apply IH; [done | by apply Permutation_cons_inv in Hperm | done].
Qed.

(** X8: The columns of a created table are collected from a map, in the
    order in which the map happens to be visited.  When the ordinal
    positions of the columns are distinct, the sort yields the same list
    whatever that order was. *)
Theorem sortByOrdinal_order_independent (columns visited : list Column) :
  columns ≡ₚ visited →
  NoDup (Column_OrdinalPosition <$> columns) →
  sortByOrdinal columns = sortByOrdinal visited.
Proof.
  intros Hperm Hdistinct.
  destruct (sortByOrdinal_sorted columns) as [Hsorted1 Hperm1].
  destruct (sortByOrdinal_sorted visited) as [Hsorted2 Hperm2].
  apply sorted_by_distinct_ordinals; [done | done | |].
  - by rewrite Hperm1, Hperm2.
  - by rewrite Hperm1.
Qed.

End SortByOrdinal.

Section GeneratorPhases.
Import Diff Pipeline.

Lemma append_assoc (s1 s2 s3 : string) : (s1 +:+ s2) +:+ s3 = s1 +:+ (s2 +:+ s3).
Proof.
  induction s1 as [|c s1 IH]; [done|].
  change (String c ((s1 +:+ s2) +:+ s3) = String c (s1 +:+ s2 +:+ s3)).
  by rewrite IH.
Qed.

Lemma append_nil_r (s : string) : s +:+ "" = s.
Proof.
  induction s as [|c s IH]; [done|].
  change (String c (s +:+ "") = String c s). by rewrite IH.
Qed.

Lemma appends_id : appends (λ o, o).
Proof. exists "", "". intros o. by rewrite !append_nil_r. Qed.

Lemma appends_upWrite text : appends (upWrite text).
Proof. exists text, "". intros o. simpl. by rewrite append_nil_r. Qed.

Lemma appends_downWrite text : appends (downWrite text).
Proof. exists "", text. intros o. simpl. by rewrite append_nil_r. Qed.

Lemma appends_warn w : appends (warn w).
Proof. exists "", "". intros o. simpl. by rewrite !append_nil_r. Qed.

Lemma appends_breaking : appends breaking.
Proof. exists "", "". intros o. simpl. by rewrite !append_nil_r. Qed.

Lemma appends_comp (f g : Out → Out) : appends f → appends g → appends (λ o, g (f o)).
Proof.
  intros (u1 & d1 & Hf) (u2 & d2 & Hg). exists (u1 +:+ u2), (d1 +:+ d2). intros o.
  destruct (Hg (f o)) as [-> ->], (Hf o) as [-> ->]. by rewrite !append_assoc.
Qed.

Lemma appends_when c f : appends f → appends (when c f).
Proof. intros Hf. destruct c; [done | apply appends_id]. Qed.

Lemma appends_foldl {A : Type} (F : Out → A → Out) (l : list A) :
  (∀ x, appends (λ o, F o x)) → appends (λ o, foldl F o l).
Proof.
  intros HF. induction l as [|x l IH]; simpl; [apply appends_id|].
  apply (appends_comp (λ o, F o x) (λ o, foldl F o l)); [apply HF | apply IH].
Qed.

Lemma appends_range_slice {A : Type} (l : list A) (body : nat → A → Out → Out) :
  (∀ i x, appends (body i x)) → appends (range_slice l body).
Proof.
  intros Hbody. unfold range_slice.
  apply (appends_foldl (λ s ix, body ix.1 ix.2 s)). intros [i x]. apply Hbody.
Qed.

Lemma appends_enumValueLines write values :
  (∀ text, appends (write text)) → appends (enumValueLines write values).
Proof.
  intros Hw. unfold enumValueLines. apply appends_range_slice. intros i val.
  destruct (_ <? _);
    apply (appends_comp (write _) (write _)); apply Hw.
Qed.

Lemma appends_columnSuffix write col :
  (∀ text, appends (write text)) → appends (columnSuffix write col).
Proof.
  intros Hw. unfold columnSuffix.
  destruct (Column_DefaultValue col).
  - apply (appends_comp (when _ (write _)) (write _)); [apply appends_when|]; apply Hw.
  - apply (appends_comp (when _ (write _)) (λ o, o));
      [apply appends_when; apply Hw | apply appends_id].
Qed.

Ltac appending :=
  cbv beta zeta;
  lazymatch goal with
  | |- appends (λ o, o) => apply appends_id
  | |- appends (upWrite _) => apply appends_upWrite
  | |- appends (downWrite _) => apply appends_downWrite
  | |- appends (λ o, upWrite ?t (@?f o)) =>
      apply (appends_comp f (upWrite t)); [appending | apply appends_upWrite]
  | |- appends (λ o, downWrite ?t (@?f o)) =>
      apply (appends_comp f (downWrite t)); [appending | apply appends_downWrite]
  | |- appends (λ o, warn ?w (@?f o)) =>
      apply (appends_comp f (warn w)); [appending | apply appends_warn]
  | |- appends (λ o, breaking (@?f o)) =>
      apply (appends_comp f breaking); [appending | apply appends_breaking]
  | |- appends (λ o, when ?c ?g (@?f o)) =>
      apply (appends_comp f (when c g)); [appending | apply appends_when; appending]
  | |- appends (λ o, enumValueLines ?w ?vs (@?f o)) =>
      apply (appends_comp f (enumValueLines w vs));
        [appending | apply appends_enumValueLines; intros; appending]
  | |- appends (λ o, columnSuffix ?w ?col (@?f o)) =>
      apply (appends_comp f (columnSuffix w col));
        [appending | apply appends_columnSuffix; intros; appending]
  | |- appends (λ o, range_slice ?l ?body (@?f o)) =>
      apply (appends_comp f (range_slice l body));
        [appending | apply appends_range_slice; intros; appending]
  | |- appends (λ o, foldl ?F (@?f o) ?l) =>
      apply (appends_comp f (λ o, foldl F o l));
        [appending | apply appends_foldl; intros; appending]
  | |- appends (λ o, generateAlteredColumn ?g ?td ?cd (@?f o)) =>
      apply (appends_comp f (generateAlteredColumn g td cd));
        [appending | unfold generateAlteredColumn; appending]
  | |- appends (λ o, generateAlteredTable ?g ?td (@?f o)) =>
      apply (appends_comp f (generateAlteredTable g td));
        [appending | unfold generateAlteredTable; appending]
  | |- context [if ?c then _ else _] => destruct c; appending
  | |- context [match ?c with Some _ => _ | None => _ end] => destruct c; appending
  end.

Lemma appends_generateEnums g diff : appends (generateEnums g diff).
Proof. unfold generateEnums. appending. Qed.

Lemma appends_generateSequences g diff : appends (generateSequences g diff).
Proof. unfold generateSequences. appending. Qed.

Lemma appends_generateTables g diff : appends (generateTables g diff).
Proof. unfold generateTables. appending. Qed.

Lemma appends_generateConstraints g diff : appends (generateConstraints g diff).
Proof. unfold generateConstraints. appending. Qed.

Lemma appends_generateIndexes g diff : appends (generateIndexes g diff).
Proof. unfold generateIndexes. appending. Qed.

Lemma appends_generateFunctions g diff : appends (generateFunctions g diff).
Proof. unfold generateFunctions. appending. Qed.

Lemma appends_generateViews g diff : appends (generateViews g diff).
Proof. unfold generateViews. appending. Qed.

Lemma appends_generateTriggers g diff : appends (generateTriggers g diff).
Proof. unfold generateTriggers. appending. Qed.

Lemma appends_texts phase o :
  appends phase →
  up (phase o) = up o +:+ upOf phase ∧ down (phase o) = down o +:+ downOf phase.
Proof.
  intros (u & d & Hphase). unfold upOf, downOf.
  destruct (Hphase o) as [-> ->], (Hphase emptyOut) as [-> ->]. done.
Qed.

(** X9: The scripts are the header followed by what the eight phases write,
    in the order enums, sequences, tables, constraints, indexes,
    functions, views, triggers; what a phase writes does not depend on
    the phases before it. *)
Theorem Generate_phase_order
    (g : Generator) (diff : DiffResult) (description generatedAt : string) :
  UpScript (Generate g diff description generatedAt) =
    header description generatedAt "UP"
    +:+ upOf (generateEnums g diff) +:+ upOf (generateSequences g diff)
    +:+ upOf (generateTables g diff) +:+ upOf (generateConstraints g diff)
    +:+ upOf (generateIndexes g diff) +:+ upOf (generateFunctions g diff)
    +:+ upOf (generateViews g diff) +:+ upOf (generateTriggers g diff) ∧
  DownScript (Generate g diff description generatedAt) =
    header description generatedAt "DOWN"
    +:+ downOf (generateEnums g diff) +:+ downOf (generateSequences g diff)
    +:+ downOf (generateTables g diff) +:+ downOf (generateConstraints g diff)
    +:+ downOf (generateIndexes g diff) +:+ downOf (generateFunctions g diff)
    +:+ downOf (generateViews g diff) +:+ downOf (generateTriggers g diff).
Proof.
  unfold Generate. cbv zeta. cbn [UpScript DownScript].
  repeat match goal with
  | |- context [up (?phase g diff ?o)] =>
      let H := fresh in
      assert (appends (phase g diff)) as H
        by first [ apply appends_generateEnums | apply appends_generateSequences
                 | apply appends_generateTables | apply appends_generateConstraints
                 | apply appends_generateIndexes | apply appends_generateFunctions
                 | apply appends_generateViews | apply appends_generateTriggers ];
      destruct (appends_texts (phase g diff) o H) as [-> ->]; clear H
  end.
  rewrite !append_assoc. split; reflexivity.
Qed.

Lemma Compare_self_empty (S : DatabaseSchema) : Compare S S = emptyDiffResult.
Proof.
  unfold Compare; cbv zeta.
  by rewrite compareTables_self, compareIndexes_self, compareConstraints_self,
    compareSequences_self, compareEnums_self, compareFunctions_self,
    compareViews_self, compareTriggers_self.
Qed.

(** X10: The differ on two readings of the same snapshot: the scripts hold
    their header and nothing else, there is no warning and nothing
    breaking. *)
Theorem Diff_of_identical_schemas (S : DatabaseSchema)
    (schema description generatedAt : string) :
  Diff (Ok S) (Ok S) schema description generatedAt =
  Ok {| UpScript := header description generatedAt "UP";
        DownScript := header description generatedAt "DOWN";
        GeneratedAt := generatedAt;
        Description := description;
        HasBreaking := false;
        Warnings := [] |}.
Proof. unfold Diff. cbv zeta. rewrite Compare_self_empty. reflexivity. Qed.

End GeneratorPhases.

(** * Package core: more properties of the actions *)

Section EngineMore.
Import Plugin Core Connection.
Context `{JSON} `{Scripts_} {P : Type} `{DatabaseProvider P}.

Lemma fetchCommands_ok cfg manifest cmds commands :
  fetchCommands cfg manifest cmds = Ok commands ↔
  Forall2 (λ cmd c, fetchCommandContent (Cfg_AppVersion cfg) (CommandsPath manifest) cmd = Ok c)
    cmds commands.
Proof.
  revert commands. induction cmds as [|cmd cmds IH]; intros commands; simpl.
  - split; [by intros [= <-]; constructor | by intros ->%Forall2_nil_inv_l].
  - destruct (fetchCommandContent _ _ cmd) as [c|err] eqn:Hc.
    + destruct (fetchCommands cfg manifest cmds) as [commands'|err'].
      * split.
        -- intros [= <-]. constructor; [done|]. by apply IH.
        -- intros (c' & commands'' & Hc' & Hrest & ->)%Forall2_cons_inv_l.
           apply IH in Hrest. congruence.
      * split; [done|].
        intros (c' & commands'' & Hc' & Hrest & ->)%Forall2_cons_inv_l.
        by apply IH in Hrest.
    + split; [done|].
      intros (c' & commands'' & Hc' & Hrest & ->)%Forall2_cons_inv_l. congruence.
Qed.

Lemma fetchCommands_err cfg manifest cmds err :
  fetchCommands cfg manifest cmds = Err err ↔
  ∃ pre cmd post,
    cmds = pre ++ cmd :: post ∧
    Forall (λ cmd, ∃ c, fetchCommandContent (Cfg_AppVersion cfg) (CommandsPath manifest) cmd
                        = Ok c) pre ∧
    fetchCommandContent (Cfg_AppVersion cfg) (CommandsPath manifest) cmd = Err err.
Proof.
  induction cmds as [|cmd cmds IH]; simpl.
  - split; [done|]. intros (pre & cmd & post & Heq & _). by destruct pre.
  - destruct (fetchCommandContent _ _ cmd) as [c|err'] eqn:Hc.
    + destruct (fetchCommands cfg manifest cmds) as [commands'|err''].
      * split; [done|]. intros (pre & cmd' & post & Heq & Hpre & Hcmd).
        destruct pre as [|? pre]; simplify_eq/=; [congruence|].
        apply Forall_cons in Hpre as [_ Hpre].
        assert (Ok commands' = Err err) as Habs; [|done].
        apply IH. by exists pre, cmd', post.
      * split.
        -- intros [= ->]. destruct IH as [IH _].
           destruct (IH eq_refl) as (pre & cmd' & post & -> & Hpre & Hcmd).
           exists (cmd :: pre), cmd', post. split; [done|]. split; [|done].
           constructor; [by exists c | done].
        -- intros (pre & cmd' & post & Heq & Hpre & Hcmd).
           destruct pre as [|? pre]; simplify_eq/=; [congruence|].
           apply Forall_cons in Hpre as [_ Hpre].
           destruct IH as [_ IH]. rewrite IH; [done|]. by exists pre, cmd', post.
    + split.
      * intros [= ->]. exists [], cmd, cmds. by split; [|split; [constructor|]].
      * intros (pre & cmd' & post & Heq & Hpre & Hcmd).
        destruct pre as [|? pre]; simplify_eq/=; [congruence|].
        apply Forall_cons in Hpre as [[c' Hc'] _]. congruence.
Qed.

(** X11: The first loop of [runCommands]: the fetched batch holds the content
    of every command, in order; the loop fails with the error of the
    first command whose content cannot be fetched. *)
Theorem fetchCommands_all_or_first_error (cfg : Config) (manifest : Manifest)
    (cmds : list Command) :
  (∀ commands,
     fetchCommands cfg manifest cmds = Ok commands ↔
     Forall2 (λ cmd c, fetchCommandContent (Cfg_AppVersion cfg) (CommandsPath manifest) cmd
                       = Ok c) cmds commands) ∧
  (∀ err,
     fetchCommands cfg manifest cmds = Err err ↔
     ∃ pre cmd post,
       cmds = pre ++ cmd :: post ∧
       Forall (λ cmd, ∃ c, fetchCommandContent (Cfg_AppVersion cfg) (CommandsPath manifest) cmd
                           = Ok c) pre ∧
       fetchCommandContent (Cfg_AppVersion cfg) (CommandsPath manifest) cmd = Err err).
Proof. split; intros; [apply fetchCommands_ok | apply fetchCommands_err]. Qed.

Lemma executeCommands_in_order commands log (w w' : World) result :
  executeCommands commands log w = (result, w') →
  ∃ new, calls w' = calls w ++ new ∧ ranInOrder commands result new.
Proof.
  revert log w. induction commands as [|c commands IH]; intros log w; simpl.
  - intros [= <- <-]. exists []. split; [by rewrite app_nil_r|].
    left. split; [constructor | by eexists].
  - unfold bind at 1.
    destruct (callRunCommand_run c w) as (reply & w1 & -> & Hw1).
    destruct (HasError (NewParameterFromJSON reply)) eqn:Hfailed.
    + unfold bind, lift, ret.
      pose proof (Error_of_failed _ Hfailed) as Herr.
      destruct (Error (NewParameterFromJSON reply)) as [[err|]|] eqn:Herror;
        try done; intros [= <- <-];
        (exists [CallRunCommand c reply]; split; [done|]);
        right; exists [], c, commands, [], reply;
        (split; [done|]); (split; [done|]); (split; [constructor|]);
        unfold stopsBatch; rewrite Hfailed; [|done].
      split; [done | by eexists].
    + unfold bind at 1, lift.
      destruct (GetLog (NewParameterFromJSON reply)) as [l|] eqn:Hlog.
      * intros Hrest. apply IH in Hrest as (new & Hnew & Hbatch).
        exists (CallRunCommand c reply :: new). split.
        { rewrite Hnew, Hw1. by rewrite <- app_assoc. }
        destruct Hbatch as [[Hran Hresult]|
          (ran & c' & rest & runs & reply' & -> & -> & Hran & Hstop)].
        -- left. split; [|done]. constructor; [|done]. by exists reply.
        -- right. exists (c :: ran), c', rest, (CallRunCommand c reply :: runs), reply'.
           split; [done|]. split; [done|]. split; [|done].
           constructor; [|done]. by exists reply.
      * intros [= <- <-]. exists [CallRunCommand c reply]. split; [done|].
        right. exists [], c, commands, [], reply.
        split; [done|]. split; [done|]. split; [constructor|].
        unfold stopsBatch. by rewrite Hfailed.
Qed.

(** X12: [runCommands] makes no call to the provider unless the content of
    every command was fetched.  It then runs the commands in the order of
    the batch, one call each, and stops at the first reply that carries
    an error, returning that error; it returns no error only after the
    whole batch ran. *)
Theorem runCommands_in_order (cfg : Config) (cmds : list Command) (manifest : Manifest)
    (w : World) :
  ∃ new,
    calls (runCommands cfg cmds manifest w).2 = calls w ++ new ∧
    match fetchCommands cfg manifest cmds with
    | Err err => new = [] ∧ (runCommands cfg cmds manifest w).1 = Done ("", Some err)
    | Ok commands => ranInOrder commands (runCommands cfg cmds manifest w).1 new
    end.
Proof.
  unfold runCommands. destruct (fetchCommands cfg manifest cmds) as [commands|err].
  - destruct (executeCommands commands "" w) as [result w'] eqn:Hrun.
    by apply executeCommands_in_order in Hrun.
  - exists []. by rewrite app_nil_r.
Qed.

Lemma GetVersion_never_nil (r : Param) : GetVersion r ≠ Done None.
Proof.
  unfold GetVersion.
  repeat (match goal with |- context [match ?x with _ => _ end] => destruct x end;
          try done).
Qed.

Lemma Create_calls cfg (w w' : World) result :
  Create cfg w = (result, w') →
  ∃ runs,
    calls w' = calls w ++ CallGetVersion (versionReplyIn w) :: runs ∧
    Forall (λ call, isRunCommand call = true) runs ∧
    abortsOnFailure runs ∧
    (replyFailed (versionReplyIn w) = false →
       runs = [] ∧ ∀ log, result ≠ Done (log, None)) ∧
    (∀ log, result = Done (log, None) →
       ∃ info manifest commands,
         fetchManifest (Cfg_AppVersion cfg) = Ok (info, manifest) ∧
         fetchCommands cfg manifest (GetCommands manifest (Create_Commands manifest))
           = Ok commands ∧
         ranAll commands runs).
Proof.
  assert (∀ out : outcome (string * option string),
            (∀ log, out ≠ Done (log, None)) →
            (out, afterGetVersion w) = (result, w') →
            ∃ runs,
              calls w' = calls w ++ CallGetVersion (versionReplyIn w) :: runs ∧
              Forall (λ call, isRunCommand call = true) runs ∧
              abortsOnFailure runs ∧
              (replyFailed (versionReplyIn w) = false →
                 runs = [] ∧ ∀ log, result ≠ Done (log, None)) ∧
              (∀ log, result = Done (log, None) →
                 ∃ info manifest commands,
                   fetchManifest (Cfg_AppVersion cfg) = Ok (info, manifest) ∧
                   fetchCommands cfg manifest
                     (GetCommands manifest (Create_Commands manifest)) = Ok commands ∧
                   ranAll commands runs)) as Hopening.
  { intros out Hout [= <- <-]. exists []. split; [done|]. split; [constructor|].
    split; [apply abortsOnFailure_nil|]. split; [done|].
    intros log Hlog. by destruct (Hout log). }
  unfold Create, bind at 1. rewrite callGetVersion_run. unfold bind at 1.
  change (HasError (NewParameterFromJSON (versionReplyIn w)))
    with (replyFailed (versionReplyIn w)).
  destruct (replyFailed (versionReplyIn w)) eqn:Hfailed; simpl.
  - destruct (fetchManifest (Cfg_AppVersion cfg)) as [[info manifest]|err] eqn:Hfetch;
      [|by apply Hopening].
    unfold bind.
    destruct (runCommands cfg _ manifest (afterGetVersion w)) as [out w1] eqn:Hrun.
    apply runCommands_calls in Hrun as (new & Hnew & Hbatch).
    unfold batchCalls in Hbatch. unfold ret.
    destruct out as [[l [e|]]|]; simpl; intros [= <- <-]; exists new;
      (split; [by rewrite Hnew; simpl; rewrite <- app_assoc|]).
    + destruct Hbatch. by repeat split.
    + destruct Hbatch as (commands & Hcommands & Hran).
      split; [by eapply ranAll_commands|].
      split; [by eapply abortsOnFailure_succeeded, ranAll_succeeded|].
      split; [done|]. intros _ _. by exists info, manifest, commands.
    + destruct Hbatch. by repeat split.
  - unfold lift.
    pose proof (GetVersion_never_nil (NewParameterFromJSON (versionReplyIn w))) as Hnil.
    destruct (GetVersion (NewParameterFromJSON (versionReplyIn w))) as [[v|]|];
      [|done|]; by apply Hopening.
Qed.

(** X13: [Create] never writes a history row: after the opening [GetVersion]
    it only runs commands, and a reply that carries an error is its last
    call.  It runs commands only when the opening reply carries an error,
    and it returns no error only after the whole create batch of the
    manifest ran. *)
Theorem Create_only_runs_commands (cfg : Config) (w : World) :
  ∃ runs,
    calls (Create cfg w).2 = calls w ++ CallGetVersion (versionReplyIn w) :: runs ∧
    Forall (λ call, isRunCommand call = true) runs ∧
    abortsOnFailure runs ∧
    (replyFailed (versionReplyIn w) = false →
       runs = [] ∧ ∀ log, (Create cfg w).1 ≠ Done (log, None)) ∧
    (∀ log, (Create cfg w).1 = Done (log, None) →
       ∃ info manifest commands,
         fetchManifest (Cfg_AppVersion cfg) = Ok (info, manifest) ∧
         fetchCommands cfg manifest (GetCommands manifest (Create_Commands manifest))
           = Ok commands ∧
         ranAll commands runs).
Proof. destruct (Create cfg w) as [result w'] eqn:Hrun. by apply Create_calls in Hrun. Qed.

(** X14: A [Deploy] that returns no error made these calls and no other: the
    opening [GetVersion], answered with an error; the whole deploy batch
    of the manifest, in order and free of error; one [SetVersion], free
    of error, with the row of the configured application version, the
    database version of the manifest and the source of the release. *)
Theorem Deploy_success_writes_row (cfg : Config) (w : World) (log : string) :
  (Deploy cfg w).1 = Done (log, None) →
  ∃ info manifest batch runs reply,
    fetchManifest (Cfg_AppVersion cfg) = Ok (info, manifest) ∧
    fetchCommands cfg manifest (GetCommands manifest (Deploy_Commands manifest)) = Ok batch ∧
    calls (Deploy cfg w).2
      = calls w ++ CallGetVersion (versionReplyIn w)
                   :: runs ++ [CallSetVersion (deployRow cfg info manifest) reply] ∧
    ranAll batch runs ∧
    replyFailed reply = false ∧
    replyFailed (versionReplyIn w) = true.
Proof.
  destruct (Deploy cfg w) as [result w'] eqn:Hrun. simpl. intros ->. revert Hrun.
  unfold Deploy, bind at 1. rewrite callGetVersion_run. unfold replyFailed.
  destruct (HasError (NewParameterFromJSON (versionReplyIn w))) eqn:Hfailed; simpl.
  - destruct (fetchManifest (Cfg_AppVersion cfg)) as [[info manifest]|err] eqn:Hfetch;
      [|done].
    unfold bind at 1.
    destruct (runCommands cfg _ manifest (afterGetVersion w)) as [out w1] eqn:Hrun.
    apply runCommands_calls in Hrun as (new & Hnew & Hbatch).
    unfold batchCalls in Hbatch.
    destruct out as [[l [e|]]|]; simpl; [done| |done].
    destruct Hbatch as (commands & Hcommands & Hran).
    unfold bind.
    match goal with |- context [setDbVersion ?a ?b ?c ?d ?e w1] =>
      destruct (setDbVersion a b c d e w1) as [err w2] eqn:Hset
    end.
    apply setDbVersion_calls in Hset as (reply & Hw2 & Hreply).
    destruct err as [[err|]|]; simpl; [done| |done].
    intros [= <- <-]. exists info, manifest, commands, new, reply.
    split; [done|]. split; [done|]. split.
    { rewrite Hw2, Hnew. simpl. by rewrite <- !app_assoc. }
    split; [done|]. split; [by apply Hreply | done].
  - unfold bind, lift, ret.
    destruct (GetString _ "dbVersion"); [|done].
    by destruct (GetString _ "appVersion").
Qed.

(** X15: [getVersion] never yields a nil version: it returns the version held
    under [result] together with the error of the reply, and it panics on
    a reply without a result object, a reply that carries an error
    included.  [Upgrade] panics with it after its opening call, so that it
    returns without a panic only on a reply that holds a version. *)
Theorem getVersion_version_or_panic (w : World) :
  (getVersion w).2 = afterGetVersion w ∧
  (∀ version err,
     (getVersion w).1 = Done (version, err) →
     ∃ v, version = Some v ∧
          GetVersion (NewParameterFromJSON (versionReplyIn w)) = Done (Some v) ∧
          Error (NewParameterFromJSON (versionReplyIn w)) = Done err) ∧
  (noResultObject (NewParameterFromJSON (versionReplyIn w)) →
     (getVersion w).1 = Panic ∧
     ∀ cfg, Upgrade cfg w = (Panic, afterGetVersion w)) ∧
  (∀ cfg, (Upgrade cfg w).1 ≠ Panic →
     ∃ v, GetVersion (NewParameterFromJSON (versionReplyIn w)) = Done (Some v)).
Proof.
  unfold Upgrade, getVersion, bind. rewrite callGetVersion_run. unfold lift, ret.
  pose proof (GetVersion_never_nil (NewParameterFromJSON (versionReplyIn w))) as Hnil.
  pose proof (GetVersion_needs_result_object (NewParameterFromJSON (versionReplyIn w)))
    as Hpanic.
  destruct (GetVersion (NewParameterFromJSON (versionReplyIn w))) as [[v|]|];
    [|done|].
  - destruct (Error (NewParameterFromJSON (versionReplyIn w))) as [err|]; simpl.
    + split; [done|]. split; [intros ? ? [= <- <-]; by exists v|].
      split; [by intros ?%Hpanic|]. intros _ _. by exists v.
    + split; [done|]. split; [done|]. split; [by intros ?%Hpanic|]. done.
  - simpl. split; [done|]. split; [done|]. split; [done|]. done.
Qed.


Lemma filter_Forall_id {A : Type} (Q : A → Prop) `{∀ x, Decision (Q x)} (l : list A) :
  Forall Q l → filter Q l = l.
Proof.
  induction 1 as [|x l Hx _ IH]; [done|].
  by rewrite filter_cons, decide_True, IH.
Qed.

Lemma rowsOf_app calls1 calls2 : rowsOf (calls1 ++ calls2) = rowsOf calls1 ++ rowsOf calls2.
Proof. unfold rowsOf. apply omap_app. Qed.

Lemma rowsOf_commands runs :
  Forall (λ call, isRunCommand call = true) runs → rowsOf runs = [].
Proof.
  induction 1 as [|call runs Hrun _ IH]; [done|].
  by destruct call.
Qed.

Lemma runCommands_success cfg cmds manifest (w w' : World) log :
  runCommands cfg cmds manifest w = (Done (log, None), w') →
  ∃ new, calls w' = calls w ++ new ∧
         Forall (λ call, callFailed call = false) new ∧ rowsOf new = [].
Proof.
  intros (new & Hnew & commands & Hcommands & Hran)%runCommands_calls.
  exists new. split; [done|].
  split; [by eapply ranAll_succeeded | by eapply rowsOf_commands, ranAll_commands].
Qed.

Lemma setDbVersion_success cfg appVer dbVersion description path (w w' : World) :
  setDbVersion cfg appVer dbVersion description path w = (Done None, w') →
  ∃ new, calls w' = calls w ++ new ∧
         Forall (λ call, callFailed call = false) new ∧
         rowsOf new = [ {| AppVersion := appVer; DbVersion := dbVersion;
                           Description := description;
                           Source := cat [Cfg_RepoURI cfg; "/"; path];
                           Time := "" |} ].
Proof.
  intros (reply & Hw' & Hreply)%setDbVersion_calls.
  eexists. split; [done|]. split; [|done].
  constructor; [by apply Hreply | constructor].
Qed.

(** A release of [Upgrade] that lets the loop go on: its calls are free
    of error; the current release writes no row, any other release the
    row of its plan index. *)
Lemma upgradeRelease_rows cfg version plan currentIx targetIx i log (w w' : World) log' :
  upgradeRelease cfg version plan currentIx targetIx i log w = (Done (inr log'), w') →
  ∃ new, calls w' = calls w ++ new ∧
         Forall (λ call, callFailed call = false) new ∧
         Some <$> rowsOf new
           = if i =? currentIx then [] else [upgradeRow cfg version plan targetIx i].
Proof.
  unfold upgradeRelease, upgradeRow, bind at 1, lift.
  destruct (i - 1 <? 0); [done|].
  destruct (Releases plan !! Z.to_nat (i - 1)) as [info|]; [|done].
  destruct (fetchManifest (Info_AppVersion info)) as [[info' manifest]|err]; [|done].
  destruct (i =? currentIx).
  - unfold bind, ret.
    destruct (runCommands cfg _ manifest w) as [[[l [e|]]|] w1] eqn:Hrun; simpl; try done.
    intros [= <- <-]. apply runCommands_success in Hrun as (new & Hnew & Hok & Hrows).
    exists new. by rewrite Hrows.
  - unfold bind at 1.
    assert (∃ altered w1 new1,
              upgradeAlter cfg manifest
                (log +:+ cat ["? I am applying manifest for application version ";
                              Info_AppVersion info; ", db version "; Info_DbVersion info; LF])
                w = (altered, w1) ∧
              (∀ l, altered = Done (l, None) →
                 calls w1 = calls w ++ new1 ∧
                 Forall (λ call, callFailed call = false) new1 ∧ rowsOf new1 = []))
      as (altered & w1 & new1 & -> & Halter).
    { unfold upgradeAlter. destruct (0 <? String.length (Upgrade_Alter manifest))%nat.
      - unfold bind, ret.
        destruct (runCommands cfg _ manifest w) as [[[l [e|]]|] w1] eqn:Hrun; simpl.
        + by eexists _, _, [].
        + apply runCommands_success in Hrun as (new & Hnew). by eexists _, _, new.
        + by eexists _, _, [].
      - eexists _, _, []. split; [done|]. intros l _. by rewrite app_nil_r. }
    destruct altered as [[l [e|]]|]; simpl; try done.
    destruct (Halter l eq_refl) as (Hw1 & Hok1 & Hrows1).
    unfold upgradeRecord. destruct (i =? targetIx).
    + unfold bind at 1.
      destruct (runCommands cfg _ manifest w1) as [[[l2 [e|]]|] w2] eqn:Hrun; simpl;
        try done.
      apply runCommands_success in Hrun as (new2 & Hw2 & Hok2 & Hrows2).
      unfold bind, ret.
      match goal with |- context [setDbVersion ?a ?b ?c ?d ?e w2] =>
        destruct (setDbVersion a b c d e w2) as [[[err|]|] w3] eqn:Hset
      end; try done.
      apply setDbVersion_success in Hset as (new3 & Hw3 & Hok3 & Hrows3).
      intros [= <- <-]. exists (new1 ++ new2 ++ new3).
      split; [by rewrite Hw3, Hw2, Hw1, <- !app_assoc|].
      split; [by rewrite !Forall_app|].
      by rewrite !rowsOf_app, Hrows1, Hrows2, Hrows3.
    + unfold bind, ret.
      match goal with |- context [setDbVersion ?a ?b ?c ?d ?e w1] =>
        destruct (setDbVersion a b c d e w1) as [[[err|]|] w3] eqn:Hset
      end; try done.
      apply setDbVersion_success in Hset as (new3 & Hw3 & Hok3 & Hrows3).
      intros [= <- <-]. exists (new1 ++ new3).
      split; [by rewrite Hw3, Hw1, <- !app_assoc|].
      split; [by rewrite !Forall_app|].
      by rewrite !rowsOf_app, Hrows1, Hrows3.
Qed.

Lemma upgradeRelease_stops cfg version plan currentIx targetIx i log (w w' : World) log' :
  upgradeRelease cfg version plan currentIx targetIx i log w ≠ (Done (inl (log', None)), w').
Proof.
  unfold upgradeRelease, upgradeAlter, upgradeRecord, bind, lift, ret.
  repeat first
    [ done
    | match goal with
      | |- context [match ?x with _ => _ end] => destruct x; simpl
      end ].
Qed.

Lemma upgradeLoop_rows cfg version plan currentIx targetIx n i log (w w' : World) log' :
  upgradeLoop cfg version plan currentIx targetIx n i log w = (Done (log', None), w') →
  ∃ new, calls w' = calls w ++ new ∧
         Forall (λ call, callFailed call = false) new ∧
         Some <$> rowsOf new
           = upgradeRow cfg version plan targetIx
               <$> filter (λ j, j ≠ currentIx) (seqZ i (Z.of_nat n)).
Proof.
  revert i log w. induction n as [|n IH]; intros i log w.
  - simpl. intros [= <- <-]. exists []. by rewrite app_nil_r.
  - cbn [upgradeLoop]. unfold bind.
    destruct (upgradeRelease cfg version plan currentIx targetIx i log w)
      as [[[[l e]|l]|] w1] eqn:Hrelease; [|..|done].
    + intros [= -> -> <-]. by apply upgradeRelease_stops in Hrelease.
    + apply upgradeRelease_rows in Hrelease as (new1 & Hw1 & Hok1 & Hrows1).
      intros (new2 & Hw2 & Hok2 & Hrows2)%IH.
      exists (new1 ++ new2). split; [by rewrite Hw2, Hw1, <- app_assoc|].
      split; [by rewrite Forall_app|].
      rewrite rowsOf_app, fmap_app, Hrows1, Hrows2.
      replace (Z.of_nat (S n)) with (Z.succ (Z.of_nat n)) by lia.
      rewrite (seqZ_cons i) by lia. rewrite Z.pred_succ, filter_cons.
      change (Z.succ i) with (i + 1).
      destruct (Z.eqb_spec i currentIx) as [->|Hne].
      * by rewrite decide_False by (intros Hne; by apply Hne).
      * by rewrite decide_True by done.
Qed.

(** X17: An [Upgrade] to a target other than the deployed version that returns
    no error wrote one history row for each release of the plan after the
    current one, up to the target, in the order of the plan, and every
    call that it made was free of error. *)
Theorem Upgrade_success_rows (cfg : Config) (w : World) (version : Version) (log : string) :
  GetVersion (NewParameterFromJSON (versionReplyIn w)) = Done (Some version) →
  Cfg_AppVersion cfg ≠ AppVersion version →
  (Upgrade cfg w).1 = Done (log, None) →
  ∃ plan currentIx targetIx new,
    fetchPlan = Ok plan ∧
    getUpgradeWindow plan (AppVersion version) (Cfg_AppVersion cfg) = (currentIx, targetIx) ∧
    currentIx < targetIx ∧
    calls (Upgrade cfg w).2 = calls w ++ CallGetVersion (versionReplyIn w) :: new ∧
    Forall (λ call, callFailed call = false) new ∧
    Some <$> rowsOf new
      = upgradeRow cfg version plan targetIx <$> seqZ (currentIx + 1) (targetIx - currentIx).
Proof.
  intros Hversion Htarget.
  destruct (Upgrade cfg w) as [result w'] eqn:Hrun. simpl. intros ->. revert Hrun.
  unfold Upgrade, getVersion, bind at 1. unfold bind at 1. rewrite callGetVersion_run.
  unfold bind at 1, lift, ret. rewrite Hversion.
  unfold bind at 1.
  destruct (Error (NewParameterFromJSON (versionReplyIn w))) as [[err|]|]; [done| |done].
  destruct fetchPlan as [plan|err]; [|done].
  apply String.eqb_neq in Htarget. rewrite Htarget.
  destruct (getUpgradeWindow plan (AppVersion version) (Cfg_AppVersion cfg))
    as [currentIx targetIx] eqn:Hwindow.
  destruct (Z.leb_spec targetIx currentIx) as [Hle|Hlt]; [done|].
  intros (new & Hnew & Hok & Hrows)%upgradeLoop_rows.
  exists plan, currentIx, targetIx, new.
  split; [done|]. split; [done|]. split; [done|].
  split; [by rewrite Hnew; simpl; rewrite <- app_assoc|]. split; [done|].
  rewrite Hrows. f_equal.
  rewrite Z2Nat.id by lia.
  replace (targetIx - currentIx + 1) with (Z.succ (targetIx - currentIx)) by lia.
  rewrite seqZ_cons by lia. rewrite Z.pred_succ, filter_cons.
  rewrite decide_False by (intros Hne; by apply Hne).
  change (Z.succ currentIx) with (currentIx + 1).
  apply filter_Forall_id, Forall_seqZ. lia.
Qed.

(** ** The connection checks *)

Lemma waitLoop_calls n errorMsg (w w' : World) result :
  waitLoop n errorMsg w = (result, w') →
  ∃ replies,
    calls w' = calls w ++ (attempt <$> replies) ∧
    (length replies ≤ n)%nat ∧
    match result with
    | Done (true, _) =>
        ∃ failed reply,
          replies = failed ++ [reply] ∧
          Forall (λ reply, replyFailed reply = true) failed ∧ replyFailed reply = false
    | Done (false, msg) =>
        length replies = n ∧
        Forall (λ reply, replyFailed reply = true) replies ∧
        lastErrorText errorMsg replies msg
    | Panic =>
        ∃ failed reply,
          replies = failed ++ [reply] ∧
          Forall (λ reply, replyFailed reply = true) failed ∧
          replyFailed reply = true ∧ Error (NewParameterFromJSON reply) = Panic
    end.
Proof.
  revert errorMsg w. induction n as [|n IH]; intros errorMsg w; simpl.
  - intros [= <- <-]. exists []. simpl. by rewrite app_nil_r.
  - unfold bind at 1.
    destruct (callRunCommand_run testConnCmd w) as (reply & w1 & -> & Hw1).
    destruct (HasError (NewParameterFromJSON reply)) eqn:Hfailed.
    + unfold bind at 1, lift, errorText.
      pose proof (Error_of_failed _ Hfailed) as Herr.
      destruct (Error (NewParameterFromJSON reply)) as [[err|]|] eqn:Herror; [|done|].
      * intros (replies & Hw' & Hlen & Hresult)%IH.
        exists (reply :: replies). split; [by rewrite Hw', Hw1, <- app_assoc|].
        split; [simpl; lia|].
        destruct result as [[[] msg]|].
        -- destruct Hresult as (failed & reply' & -> & Hfailed' & Hok).
           exists (reply :: failed), reply'. split; [done|]. split; [by constructor|done].
        -- destruct Hresult as (Hn & Hall & Hmsg).
           split; [simpl; lia|]. split; [by constructor|].
           unfold lastErrorText in *. rewrite last_cons.
           destruct (last replies); [done | by subst].
        -- destruct Hresult as (failed & reply' & -> & Hfailed' & Hbad & Hpanic).
           exists (reply :: failed), reply'. split; [done|]. split; [by constructor|done].
      * intros [= <- <-]. exists [reply]. split; [done|]. split; [simpl; lia|].
        exists [], reply. split; [done|]. split; [constructor|done].
    + intros [= <- <-]. exists [reply]. split; [done|]. split; [simpl; lia|].
      exists [], reply. split; [done|]. split; [constructor|done].
Qed.

Lemma CheckConfigSet_calls (w w' : World) result :
  CheckConfigSet w = (result, w') →
  ∃ reply,
    calls w' = calls w ++ [attempt reply] ∧
    match result with
    | Done results =>
        dom results = ({[ "scripts uri"; "db connection" ]} : gset string) ∧
        results !! "scripts uri"
          = Some (match fetchPlan with Ok _ => "OK" | Err err => err end) ∧
        (results !! "db connection" = Some "OK" ↔ replyFailed reply = false) ∧
        (replyFailed reply = true →
           ∃ err, Error (NewParameterFromJSON reply) = Done (Some err) ∧
                  results !! "db connection" = Some (cat ["FAILED: "; err]))
    | Panic => replyFailed reply = true ∧ Error (NewParameterFromJSON reply) = Panic
    end.
Proof.
  unfold CheckConfigSet, bind at 1.
  destruct (callRunCommand_run testConnCmd w) as (reply & w1 & -> & Hw1).
  unfold replyFailed.
  destruct (HasError (NewParameterFromJSON reply)) eqn:Hfailed.
  - unfold bind, lift, ret.
    pose proof (Error_of_failed _ Hfailed) as Herr.
    destruct (Error (NewParameterFromJSON reply)) as [[err|]|] eqn:Herror; [|done|];
      intros [= <- <-]; exists reply; rewrite Hfailed; (split; [done|]); [|done].
    split.
    { destruct fetchPlan; rewrite !dom_insert_L, dom_empty_L; set_solver. }
    split.
    { rewrite lookup_insert_ne by done. destruct fetchPlan; by rewrite lookup_insert_eq. }
    rewrite lookup_insert_eq. split; [by split|]. intros _. by exists err.
  - unfold ret. intros [= <- <-]. exists reply. rewrite Hfailed. split; [done|]. split.
    { destruct fetchPlan; rewrite !dom_insert_L, dom_empty_L; set_solver. }
    split.
    { rewrite lookup_insert_ne by done. destruct fetchPlan; by rewrite lookup_insert_eq. }
    rewrite lookup_insert_eq. by split.
Qed.

(** X18: [CheckConfigSet] makes one call to the provider, the connection test,
    also when the plan cannot be fetched.  The map that it returns has the
    two entries [scripts uri] and [db connection]: the first holds [OK] or
    the error of the plan, the second holds [OK] exactly when the reply
    is free of error and else the error of the reply.  It panics when the
    error of the reply is not a string. *)
Theorem CheckConfigSet_checks (w : World) :
  ∃ reply,
    calls (CheckConfigSet w).2 = calls w ++ [attempt reply] ∧
    match (CheckConfigSet w).1 with
    | Done results =>
        dom results = ({[ "scripts uri"; "db connection" ]} : gset string) ∧
        results !! "scripts uri"
          = Some (match fetchPlan with Ok _ => "OK" | Err err => err end) ∧
        (results !! "db connection" = Some "OK" ↔ replyFailed reply = false) ∧
        (replyFailed reply = true →
           ∃ err, Error (NewParameterFromJSON reply) = Done (Some err) ∧
                  results !! "db connection" = Some (cat ["FAILED: "; err]))
    | Panic => replyFailed reply = true ∧ Error (NewParameterFromJSON reply) = Panic
    end.
Proof.
  destruct (CheckConfigSet w) as [result w'] eqn:Hrun. by apply CheckConfigSet_calls in Hrun.
Qed.

(** X19: [WaitForConnection] makes at most [attempts] calls to the provider,
    each one the connection test, and none when [attempts] is not
    positive.  It returns no error at the first reply free of error, its
    last call; it returns an error only after [attempts] failed rounds,
    with the error text of the last round in the message; it panics on a
    reply whose error is not a string. *)
Theorem WaitForConnection_attempts (attempts interval : Z) (w : World) :
  ∃ replies,
    calls (WaitForConnection attempts interval w).2 = calls w ++ (attempt <$> replies) ∧
    (length replies ≤ Z.to_nat attempts)%nat ∧
    match (WaitForConnection attempts interval w).1 with
    | Done None =>
        ∃ failed reply,
          replies = failed ++ [reply] ∧
          Forall (λ reply, replyFailed reply = true) failed ∧ replyFailed reply = false
    | Done (Some err) =>
        length replies = Z.to_nat attempts ∧
        Forall (λ reply, replyFailed reply = true) replies ∧
        ∃ msg, lastErrorText "" replies msg ∧
               err = cat ["failed to connect to database after "; pretty attempts;
                          " attempts: "; msg; LF]
    | Panic =>
        ∃ failed reply,
          replies = failed ++ [reply] ∧
          Forall (λ reply, replyFailed reply = true) failed ∧
          replyFailed reply = true ∧ Error (NewParameterFromJSON reply) = Panic
    end.
Proof.
  unfold WaitForConnection, bind.
  destruct (waitLoop (Z.to_nat attempts) "" w) as [out w'] eqn:Hloop.
  apply waitLoop_calls in Hloop as (replies & Hw' & Hlen & Hout).
  exists replies. destruct out as [[[] msg]|]; simpl.
  - done.
  - split; [done|]. split; [done|]. destruct Hout as (? & ? & ?).
    split; [done|]. split; [done|]. by exists msg.
  - done.
Qed.

End EngineMore.

(** * Package plugin: more properties of the envelope and the RPC client *)

Section EnvelopeMore.
Import Plugin.
Context `{JSON} {T : Type} `{Rpc.Transport T}.

Lemma append_cons c (a b : string) : String c a +:+ b = String c (a +:+ b).
Proof. reflexivity. Qed.

Lemma length_append (a b : string) :
  String.length (a +:+ b) = (String.length a + String.length b)%nat.
Proof. induction a as [|c a IH]; [done|]. rewrite append_cons. simpl. by rewrite IH. Qed.

Lemma substring_all (s : string) : String.substring 0 (String.length s) s = s.
Proof. induction s as [|c s IH]; [done|]. simpl. by rewrite IH. Qed.

Lemma substring_append_r (a b : string) :
  String.substring (String.length a) (String.length b) (a +:+ b) = b.
Proof. induction a as [|c a IH]; [apply substring_all|]. by rewrite append_cons. Qed.

Lemma substring_append_l (a b : string) :
  String.substring 0 (String.length a) (a +:+ b) = a.
Proof.
  induction a as [|c a IH]; [by destruct b|]. rewrite append_cons. simpl. by rewrite IH.
Qed.

Lemma substring_split (n : nat) (s : string) :
  (n ≤ String.length s)%nat →
  String.substring 0 n s +:+ String.substring n (String.length s - n) s = s.
Proof.
  revert n. induction s as [|c s IH]; intros [|n] Hn; simpl in *; try lia.
  - done.
  - by rewrite substring_all.
  - rewrite append_cons, IH by lia. done.
Qed.

Lemma HasSuffix_spec (s suffix : string) :
  HasSuffix s suffix = true ↔ ∃ pre, s = pre +:+ suffix.
Proof.
  unfold HasSuffix. cbv zeta. rewrite andb_true_iff, Nat.leb_le, String.eqb_eq. split.
  - remember (String.length suffix) as k eqn:Hk. clear Hk.
    intros [Hle <-]. exists (String.substring 0 (String.length s - k) s).
    etrans; [symmetry; apply (substring_split (String.length s - k) s); lia|].
    do 2 f_equal. lia.
  - intros [pre ->]. rewrite length_append. split; [lia|].
    replace (String.length pre + String.length suffix - String.length suffix)%nat
      with (String.length pre) by lia.
    apply substring_append_r.
Qed.

Lemma TrimSuffix_append (pre suffix : string) : TrimSuffix (pre +:+ suffix) suffix = pre.
Proof.
  unfold TrimSuffix.
  assert (HasSuffix (pre +:+ suffix) suffix = true) as -> by (apply HasSuffix_spec; eauto).
  rewrite length_append.
  replace (String.length pre + String.length suffix - String.length suffix)%nat
    with (String.length pre) by lia.
  apply substring_append_l.
Qed.

(** X20: [GetLog] on a log that ends in two line feeds drops the last one, and
    gives back any other log as it is; without a [log] entry it gives the
    empty text, and it panics on a [log] entry that is not a string. *)
Theorem GetLog_trims_one_line_feed (r : Param) :
  match Get r "log" with
  | JNull => GetLog r = Done ""
  | JStr log =>
      (∀ body, log = body +:+ LF +:+ LF → GetLog r = Done (body +:+ LF)) ∧
      ((∀ body, log ≠ body +:+ LF +:+ LF) → GetLog r = Done log)
  | _ => GetLog r = Panic
  end.
Proof.
  unfold Get, GetLog. destruct (index (value r) "log") as [| | |log| |]; try done.
  split.
  - intros body ->. rewrite <- append_assoc.
    assert (HasSuffix ((body +:+ LF) +:+ LF) (LF +:+ LF) = true) as ->.
    { apply HasSuffix_spec. exists body. by rewrite append_assoc. }
    by rewrite TrimSuffix_append.
  - intros Hnot. destruct (HasSuffix log (LF +:+ LF)) eqn:Hsuffix; [|done].
    apply HasSuffix_spec in Hsuffix as [body ->]. by destruct (Hnot body).
Qed.

(** X21: [GetVersion] returns a version exactly when the [result] entry is an
    object whose entries [time], [appVersion], [dbVersion], [description]
    and [source] are strings, and the version holds these; in every other
    case it panics, so that it never returns nil. *)
Theorem GetVersion_fields (r : Param) :
  (∀ v, GetVersion r = Done (Some v) ↔
        ∃ m, Get r "result" = JObj m ∧
             m !! "time" = Some (JStr (Time v)) ∧
             m !! "appVersion" = Some (JStr (AppVersion v)) ∧
             m !! "dbVersion" = Some (JStr (DbVersion v)) ∧
             m !! "description" = Some (JStr (Description v)) ∧
             m !! "source" = Some (JStr (Source v))) ∧
  (GetVersion r = Panic ∨ ∃ v, GetVersion r = Done (Some v)).
Proof.
  unfold GetVersion, Get. split.
  - intros v. destruct (index (value r) "result") as [| | | | |m]; simpl;
      try (split; [done | by intros (m' & ? & _)]).
    split.
    + intros Hv. exists m. split; [done|]. revert Hv.
      destruct (m !! "time") as [[]|]; simpl; try done.
      destruct (m !! "appVersion") as [[]|]; simpl; try done.
      destruct (m !! "dbVersion") as [[]|]; simpl; try done.
      destruct (m !! "description") as [[]|]; simpl; try done.
      destruct (m !! "source") as [[]|]; simpl; try done.
      by intros [= <-].
    + intros (m' & [= <-] & -> & -> & -> & -> & ->). simpl. by destruct v.
  - destruct (index (value r) "result") as [| | | | |m]; simpl; try by left.
    destruct (m !! "time") as [[]|]; simpl; try by left.
    destruct (m !! "appVersion") as [[]|]; simpl; try by left.
    destruct (m !! "dbVersion") as [[]|]; simpl; try by left.
    destruct (m !! "description") as [[]|]; simpl; try by left.
    destruct (m !! "source") as [[]|]; simpl; try by left.
    right. by eexists.
Qed.

(** X22: When the remote call fails, the client answers with an envelope that
    carries the error of the transport and an empty log: the engine reads
    it as a failed reply with that error, and finds no version in it. *)
Theorem client_reports_transport_error (method args : string) (t t' : T) (err : string) :
  Rpc.Client_Call method args t = (Err err, t') →
  json_Unmarshal (json_Marshal (<["log" := JStr ""]> (<["error" := JStr err]> ∅)))
    = (Some (<["log" := JStr ""]> (<["error" := JStr err]> ∅)), None) →
  ∃ text,
    Rpc.call method args t = (Done text, t') ∧
    HasError (NewParameterFromJSON text) = true ∧
    Error (NewParameterFromJSON text) = Done (Some err) ∧
    GetLog (NewParameterFromJSON text) = Done "" ∧
    GetVersion (NewParameterFromJSON text) = Panic.
Proof.
  intros Hcall Hcodec. unfold Rpc.call. rewrite Hcall.
  eexists. split; [reflexivity|].
  unfold NewParameterFromJSON, FromJSON. simpl. rewrite Hcodec. simpl.
  unfold HasError, Error, GetLog, GetVersion, index. simpl.
  rewrite lookup_insert_ne by done. rewrite !lookup_insert_eq.
  rewrite !lookup_insert_ne by done. rewrite lookup_empty. done.
Qed.

End EnvelopeMore.


(** * Package diff: what the altered buckets hold *)

Section ComparatorAltered.
Import Diff.

Lemma elem_of_range_both {A B : Type} (source target : gmap string A)
    (compare : A → A → option B) d :
  d ∈ range_append source
        (λ key x, match target !! key with
                  | Some y => compare x y
                  | None => None
                  end) []
  ↔ ∃ key x y, source !! key = Some x ∧ target !! key = Some y ∧ compare x y = Some d.
Proof.
  rewrite elem_of_range_append. split.
  - intros [Hnil|(key & x & Hsource & Hbody)]; [by apply elem_of_nil in Hnil|].
    destruct (target !! key) as [y|] eqn:Htarget; [|done]. by exists key, x, y.
  - intros (key & x & y & Hsource & Htarget & Hd). right. exists key, x.
    by rewrite Htarget.
Qed.



(** X24: The altered buckets of [Compare] hold the differences of the objects
    stored under the keys that both schemas have: for tables and enums
    what [compareTableStructure] and [compareEnumValues] return, for
    functions and views the old and the new definition when the two
    differ. *)
Theorem Compare_altered_by_key (A B : DatabaseSchema) :
  (∀ d, d ∈ AlteredTables (Compare A B)
        ↔ ∃ key s t, Tables A !! key = Some s ∧ Tables B !! key = Some t ∧
                     compareTableStructure s t = Some d) ∧
  (∀ d, d ∈ AlteredEnums (Compare A B)
        ↔ ∃ key s t, Enums A !! key = Some s ∧ Enums B !! key = Some t ∧
                     compareEnumValues s t = Some d) ∧
  (∀ d, d ∈ AlteredFunctions (Compare A B)
        ↔ ∃ key s t, Functions A !! key = Some s ∧ Functions B !! key = Some t ∧
                     Func_Definition s ≠ Func_Definition t ∧
                     d = {| FunctionDiff_Name := Func_Name t;
                            FunctionDiff_OldDefinition := Func_Definition s;
                            FunctionDiff_NewDefinition := Func_Definition t |}) ∧
  (∀ d, d ∈ AlteredViews (Compare A B)
        ↔ ∃ key s t, Views A !! key = Some s ∧ Views B !! key = Some t ∧
                     View_Definition s ≠ View_Definition t ∧
                     d = {| ViewDiff_Name := View_Name t;
                            ViewDiff_OldDefinition := View_Definition s;
                            ViewDiff_NewDefinition := View_Definition t |}).
Proof.
  rewrite Compare_passes; simpl.
  split; [intros d; apply elem_of_range_both|].
  split; [intros d; apply elem_of_range_both|].
  split; intros d.
  - rewrite (elem_of_range_both (Functions A) (Functions B)
               (λ s t, if negb (String.eqb (Func_Definition s) (Func_Definition t))
                       then Some {| FunctionDiff_Name := Func_Name t;
                                    FunctionDiff_OldDefinition := Func_Definition s;
                                    FunctionDiff_NewDefinition := Func_Definition t |}
                       else None)).
    split; intros (key & s & t & Hs & Ht & Hd); exists key, s, t;
      (split; [done|]); (split; [done|]).
    + destruct (String.eqb_spec (Func_Definition s) (Func_Definition t)); simplify_eq/=.
      done.
    + destruct Hd as [Hne ->].
      by destruct (String.eqb_spec (Func_Definition s) (Func_Definition t)).
  - rewrite (elem_of_range_both (Views A) (Views B)
               (λ s t, if negb (String.eqb (View_Definition s) (View_Definition t))
                       then Some {| ViewDiff_Name := View_Name t;
                                    ViewDiff_OldDefinition := View_Definition s;
                                    ViewDiff_NewDefinition := View_Definition t |}
                       else None)).
    split; intros (key & s & t & Hs & Ht & Hd); exists key, s, t;
      (split; [done|]); (split; [done|]).
    + destruct (String.eqb_spec (View_Definition s) (View_Definition t)); simplify_eq/=.
      done.
    + destruct Hd as [Hne ->].
      by destruct (String.eqb_spec (View_Definition s) (View_Definition t)).
Qed.

End ComparatorAltered.

(** * Package core: the readiness check *)

Section ReadinessProps.
Import Plugin Core Connection Readiness.
Context `{JSON} `{Scripts_} {P : Type} `{DatabaseProvider P}.
Variable ToLower : string → string.

Lemma firstFailed_none entries :
  firstFailed ToLower entries = None ↔
  Forall (λ entry, Contains (ToLower entry.2) "ok" = true) entries.
Proof.
  induction entries as [|[check result] entries IH]; simpl.
  - split; [constructor | done].
  - destruct (Contains (ToLower result) "ok") eqn:Hok; simpl.
    + rewrite IH. split; [by constructor | by intros [_ ?]%Forall_cons].
    + split; [done|]. intros [Hbad _]%Forall_cons. simpl in Hbad. congruence.
Qed.

Lemma firstFailed_some entries err :
  firstFailed ToLower entries = Some err →
  ∃ check result, (check, result) ∈ entries ∧
                  Contains (ToLower result) "ok" = false ∧
                  err = cat [check; ": "; result].
Proof.
  induction entries as [|[check result] entries IH]; simpl; [done|].
  destruct (Contains (ToLower result) "ok") eqn:Hok; simpl.
  - intros (check' & result' & Hin & Hrest)%IH. exists check', result'.
    split; [by apply list_elem_of_further | done].
  - intros [= <-]. exists check, result. split; [apply list_elem_of_here | done].
Qed.

(** X25: [CheckReady] makes the calls of [CheckConfigSet] and no other.  It
    reports ready, and leaves [dm.ready] set, exactly when the lower-case
    form of every result of the checks contains [ok]; otherwise it
    returns an error that names one check whose result does not. *)
Theorem CheckReady_passes_on_ok (w : World) :
  (CheckReady ToLower w).2 = (CheckConfigSet w).2 ∧
  match (CheckReady ToLower w).1 with
  | Done (ready, (ok, err)) =>
      ready = ok ∧
      ∃ results,
        (CheckConfigSet w).1 = Done results ∧
        (ok = true ↔ ∀ check result,
                       results !! check = Some result →
                       Contains (ToLower result) "ok" = true) ∧
        match err with
        | None => ok = true
        | Some err =>
            ok = false ∧
            ∃ check result,
              results !! check = Some result ∧
              Contains (ToLower result) "ok" = false ∧
              err = cat [check; ": "; result]
        end
  | Panic => (CheckConfigSet w).1 = Panic
  end.
Proof.
  unfold CheckReady, bind. destruct (CheckConfigSet w) as [[results|] w'] eqn:Hrun; [|done].
  destruct (firstFailed ToLower (map_to_list results)) as [err|] eqn:Hloop; simpl.
  - split; [done|]. split; [done|]. exists results. split; [done|].
    apply firstFailed_some in Hloop as (check & result & Hin & Hbad & ->).
    apply elem_of_map_to_list in Hin. split.
    + split; [done|]. intros Hall. specialize (Hall check result Hin). congruence.
    + split; [done|]. by exists check, result.
  - split; [done|]. split; [done|]. exists results. split; [done|].
    apply firstFailed_none in Hloop. split; [|done]. split; [|done].
    intros _ check result Hin. apply elem_of_map_to_list in Hin.
    rewrite Forall_forall in Hloop. by apply (Hloop (check, result)).
Qed.

End ReadinessProps.

(** * Package core: queries *)

Section QueryProps.
Import Plugin Core Queries.
Context `{JSON} `{Scripts_} {Table : Type} `{Queries_ Table} {P : Type} `{QueryProvider P}.



End QueryProps.

(** * Package core: what the actions need before they touch the database *)

Section ActionGuards.
Import Plugin Core.
Context `{JSON} `{Scripts_} {P : Type} `{DatabaseProvider P}.

(** X27: [Upgrade] makes a call after its opening [GetVersion] only when the
    reply holds a version and no error, the plan is fetched, the target is
    not the deployed version and the plan places the target after the
    current release. *)
Theorem Upgrade_calls_need_valid_window (cfg : Config) (w : World) :
  (Upgrade cfg w).2 = afterGetVersion w ∨
  ∃ version plan currentIx targetIx,
    GetVersion (NewParameterFromJSON (versionReplyIn w)) = Done (Some version) ∧
    Error (NewParameterFromJSON (versionReplyIn w)) = Done None ∧
    fetchPlan = Ok plan ∧
    Cfg_AppVersion cfg ≠ AppVersion version ∧
    getUpgradeWindow plan (AppVersion version) (Cfg_AppVersion cfg)
      = (currentIx, targetIx) ∧
    currentIx < targetIx.
Proof.
  unfold Upgrade, getVersion, bind. rewrite callGetVersion_run. unfold lift, ret.
  destruct (GetVersion (NewParameterFromJSON (versionReplyIn w))) as [[version|]|];
    [| |by left].
  - destruct (Error (NewParameterFromJSON (versionReplyIn w))) as [[err|]|];
      [by left| |by left].
    destruct fetchPlan as [plan|err]; [|by left].
    destruct (String.eqb_spec (Cfg_AppVersion cfg) (AppVersion version)) as [Heq|Hne];
      [by left|].
    destruct (getUpgradeWindow plan (AppVersion version) (Cfg_AppVersion cfg))
      as [currentIx targetIx] eqn:Hwindow.
    destruct (Z.leb_spec targetIx currentIx) as [Hle|Hlt]; [by left|].
    right. by exists version, plan, currentIx, targetIx.
  - destruct (Error (NewParameterFromJSON (versionReplyIn w))) as [[err|]|]; by left.
Qed.

(** X28: [Create] and [Deploy] make a call to the provider after their opening
    [GetVersion] only when the opening reply carries an error, the
    manifest of the configured release is fetched and the content of
    every command of their batch is fetched. *)
Theorem Create_Deploy_calls_need_fetched_batch (cfg : Config) (w : World) :
  ((Create cfg w).2 = afterGetVersion w ∨
   replyFailed (versionReplyIn w) = true ∧
   ∃ info manifest batch,
     fetchManifest (Cfg_AppVersion cfg) = Ok (info, manifest) ∧
     fetchCommands cfg manifest (GetCommands manifest (Create_Commands manifest))
       = Ok batch) ∧
  ((Deploy cfg w).2 = afterGetVersion w ∨
   replyFailed (versionReplyIn w) = true ∧
   ∃ info manifest batch,
     fetchManifest (Cfg_AppVersion cfg) = Ok (info, manifest) ∧
     fetchCommands cfg manifest (GetCommands manifest (Deploy_Commands manifest))
       = Ok batch).
Proof.
  unfold replyFailed. split.
  - unfold Create, bind. rewrite callGetVersion_run.
    destruct (HasError (NewParameterFromJSON (versionReplyIn w))) eqn:Hfailed; simpl.
    + destruct (fetchManifest (Cfg_AppVersion cfg)) as [[info manifest]|err] eqn:Hfetch;
        [|by left].
      destruct (fetchCommands cfg manifest (GetCommands manifest (Create_Commands manifest)))
        as [batch|err] eqn:Hbatch.
      * right. split; [done|]. by exists info, manifest, batch.
      * left. unfold runCommands. by rewrite Hbatch.
    + left. unfold lift.
      pose proof (GetVersion_never_nil (NewParameterFromJSON (versionReplyIn w))) as Hnil.
      by destruct (GetVersion (NewParameterFromJSON (versionReplyIn w))) as [[v|]|].
  - unfold Deploy, bind. rewrite callGetVersion_run.
    destruct (HasError (NewParameterFromJSON (versionReplyIn w))) eqn:Hfailed; simpl.
    + destruct (fetchManifest (Cfg_AppVersion cfg)) as [[info manifest]|err] eqn:Hfetch;
        [|by left].
      destruct (fetchCommands cfg manifest (GetCommands manifest (Deploy_Commands manifest)))
        as [batch|err] eqn:Hbatch.
      * right. split; [done|]. by exists info, manifest, batch.
      * left. unfold runCommands. by rewrite Hbatch.
    + left. unfold lift, ret.
      destruct (GetString _ "dbVersion"); [|done].
      by destruct (GetString _ "appVersion").
Qed.

End ActionGuards.

(** * The further statements on sample inputs *)

Section OnMoreSamples.
Import Diff Plugin Core Connection SampleEngine SampleReplies SampleIndexes.
#[local] Existing Instance MiniJSON.codec.
#[local] Existing Instance scripts.
#[local] Existing Instance scriptedProvider.
#[local] Existing Instance SampleRpc.shutDown.

Lemma Compare_same_keys_unreported_witness :
  CreatedIndexes (Compare btree hash) = [] ∧ DroppedIndexes (Compare btree hash) = [] ∧
  CreatedConstraints (Compare btree hash) = [] ∧
  DroppedConstraints (Compare btree hash) = [] ∧
  CreatedSequences (Compare btree hash) = [] ∧ DroppedSequences (Compare btree hash) = [] ∧
  CreatedTriggers (Compare btree hash) = [] ∧ DroppedTriggers (Compare btree hash) = [].
Proof.
  apply (Compare_same_keys_unreported btree hash).
  repeat split; vm_compute; reflexivity.
Defined.

Lemma Deploy_success_writes_row_witness :
  ∃ info manifest batch runs reply,
    fetchManifest (Cfg_AppVersion (config "v1")) = Ok (info, manifest) ∧
    fetchCommands (config "v1") manifest (GetCommands manifest (Deploy_Commands manifest))
      = Ok batch ∧
    calls (Deploy (config "v1") (world noDatabase [])).2
      = calls (world noDatabase [])
        ++ CallGetVersion (versionReplyIn (world noDatabase []))
           :: runs ++ [CallSetVersion (deployRow (config "v1") info manifest) reply] ∧
    ranAll batch runs ∧
    replyFailed reply = false ∧
    replyFailed (versionReplyIn (world noDatabase [])) = true.
Proof.
  eapply (Deploy_success_writes_row (config "v1") (world noDatabase [])).
  vm_compute. reflexivity.
Defined.


Lemma Upgrade_success_rows_witness :
  ∃ plan currentIx targetIx new,
    fetchPlan = Ok plan ∧
    getUpgradeWindow plan (AppVersion deployedV1) (Cfg_AppVersion (config "v3"))
      = (currentIx, targetIx) ∧
    currentIx < targetIx ∧
    calls (Upgrade (config "v3") (world (foundReply "v1" "db-v1") [])).2
      = calls (world (foundReply "v1" "db-v1") [])
        ++ CallGetVersion (versionReplyIn (world (foundReply "v1" "db-v1") [])) :: new ∧
    Forall (λ call, callFailed call = false) new ∧
    Some <$> rowsOf new
      = upgradeRow (config "v3") deployedV1 plan targetIx
          <$> seqZ (currentIx + 1) (targetIx - currentIx).
Proof.
  eapply (Upgrade_success_rows (config "v3") (world (foundReply "v1" "db-v1") [])
            deployedV1).
  - vm_compute; reflexivity.
  - simpl. discriminate.
  - vm_compute. reflexivity.
Defined.

Lemma client_reports_transport_error_witness :
  ∃ text,
    Rpc.call "Plugin.GetVersion" "" () = (Done text, ()) ∧
    HasError (NewParameterFromJSON text) = true ∧
    Error (NewParameterFromJSON text) = Done (Some "connection is shut down") ∧
    GetLog (NewParameterFromJSON text) = Done "" ∧
    GetVersion (NewParameterFromJSON text) = Panic.
Proof.
  apply (client_reports_transport_error "Plugin.GetVersion" "" () ()
           "connection is shut down").
  - reflexivity.
  - vm_compute; reflexivity.
Defined.

Lemma sortByOrdinal_order_independent_witness :
  sortByOrdinal [Samples.column "id" "integer" false 1; Samples.column "name" "text" true 2]
  = sortByOrdinal [Samples.column "name" "text" true 2; Samples.column "id" "integer" false 1].
Proof.
  apply sortByOrdinal_order_independent.
  - apply perm_swap.
  - vm_compute. apply NoDup_cons. split; [|apply NoDup_singleton].
    intros Hin%list_elem_of_singleton. discriminate Hin.
Defined.

End OnMoreSamples.
